(** * A shallow embedding of the two-channel delay-and-sum audio pipeline

    The development follows the C++ sources file by file:
    - [circular_buffer.cpp]: the bounded sample channel between two stages;
    - [error_handler.cpp]: the global error state and the watchdog;
    - [audio_capture.cpp], [alsa_output.cpp]: the capture and output loops;
    - [beamformer.cpp]: the delay table and the processing loop;
    - [logger.cpp]: the ring of log entries.

    Integers of type [size_t] are modelled as [Z] with the wrap-around
    modulo [2^64] written out, arrays and vectors as lists indexed with
    stdpp's lookup and insert, the mutable objects as records that are
    passed explicitly, and [float] and [double] as the binary32 and
    binary64 numbers of [SpecFloat]. *)

From Stdlib Require Import ZArith Lia Bool DecimalString SpecFloat.
From stdpp Require Import base list strings.

Local Open Scope Z_scope.

(** ** Machine integers and arrays *)

(** Arithmetic on [size_t] wraps modulo [2^64]. *)
Definition size_t (z : Z) : Z := z mod 2 ^ 64.

(** Samples are [int16_t]; the channel only copies them. *)
Definition int16_t : Type := Z.

(** [for (i = 0; i < n; i++) s = body i s]: the iterations [0 .. n-1] run
    in ascending order, the last one being [body (n-1)]. *)
Fixpoint for_loop {S : Type} (n : nat) (body : Z -> S -> S) (s : S) : S :=
  match n with
  | O => s
  | Datatypes.S m => body (Z.of_nat m) (for_loop m body s)
  end.

(** [a[i]] and [a[i] = v] on a [std::vector] or a raw array.  Outside the
    bounds the C++ behaviour is undefined; there [aget] reads a fixed value
    (the default of [Z], which is 1) and [aset] leaves the array unchanged. *)
Definition aget (a : list int16_t) (i : Z) : int16_t := a !!! Z.to_nat i.
Definition aset (a : list int16_t) (i : Z) (v : int16_t) : list int16_t :=
  <[Z.to_nat i := v]> a.

(** The same accesses with the bounds checked: [None] where the C++
    behaviour is undefined.  [n] is the number of elements the array
    holds: the size of the vector, or the count the caller passed with a
    raw pointer. *)
Definition aget_chk (a : list int16_t) (n i : Z) : option int16_t :=
  if (0 <=? i) && (i <? n) && (n <=? Z.of_nat (length a))
  then Some (aget a i) else None.
Definition aset_chk (a : list int16_t) (n i : Z) (v : int16_t)
  : option (list int16_t) :=
  if (0 <=? i) && (i <? n) && (n <=? Z.of_nat (length a))
  then Some (aset a i v) else None.

(** [n] is one of [1, 2, 4, 8, ...]. *)
Definition power_of_two (n : Z) : Prop := exists k, 0 <= k /\ n = 2 ^ k.

(** ** circular_buffer.cpp *)

Module CircularBuffer.

Record t : Type := mk {
  buffer : list int16_t;
  readPos : Z;
  writePos : Z;
  bufferSize : Z;
  bufferMask : Z;
  closed : bool
}.

Inductive exception : Type :=
| invalid_argument (what : string)
| length_error.

(** [std::vector<int16_t>::max_size()] on a 64-bit target:
    [PTRDIFF_MAX / sizeof(int16_t)], which is [2^62 - 1]. *)
Definition max_size : Z := (2 ^ 63 - 1) / 2.

(** The constructor.  [buffer.resize(size)] throws [std::length_error]
    above [max_size]; up to [max_size] the allocation is taken to succeed
    ([std::bad_alloc] is not modelled). *)
Definition CircularBuffer (size : Z) : exception + t :=
  if negb (Z.land size (size_t (size - 1)) =? 0)
  then inl (invalid_argument "Buffer size must be a power of 2")
  else if max_size <? size then inl length_error
  else inr {| readPos := 0; writePos := 0; closed := false;
              bufferSize := size;
              bufferMask := size_t (size - 1);
              buffer := replicate (Z.to_nat size) 0 |}.

Definition availableRead (cb : t) : Z :=
  Z.land (size_t (writePos cb - readPos cb)) (bufferMask cb).

Definition availableWrite (cb : t) : Z :=
  size_t (bufferSize cb - 1 - availableRead cb).

Definition isClosed (cb : t) : bool := closed cb.

(** [close()]: taken under the mutex, sets the flag; the notifications have
    no effect on the data. *)
Definition close (cb : t) : t :=
  {| buffer := buffer cb; readPos := readPos cb; writePos := writePos cb;
     bufferSize := bufferSize cb; bufferMask := bufferMask cb;
     closed := true |}.

(** What one pass through the body of a [while] loop of [write] or [read]
    does next: leave the function with a value, block in [wait_for] with
    the mutex released, or go back to the loop head with the counter. *)
Inductive flow : Type :=
| Return (n : Z)
| Wait
| Continue (n : Z).

(** One pass of [while (written < size && !closed)] in [write], from the
    loop test, with the mutex held. *)
Definition write_iter (cb : t) (data : list int16_t) (size written : Z)
  : t * flow :=
  if (written <? size) && negb (closed cb) then
    let available := availableWrite cb in
    if available =? 0 then (cb, Wait)
    else
      let toWrite := Z.min available (size_t (size - written)) in
      let buffer' :=
        for_loop (Z.to_nat toWrite)
          (fun i buf =>
             aset buf (Z.land (size_t (writePos cb + i)) (bufferMask cb))
                  (aget data (size_t (written + i))))
          (buffer cb) in
      ({| buffer := buffer'; readPos := readPos cb;
          writePos := Z.land (size_t (writePos cb + toWrite)) (bufferMask cb);
          bufferSize := bufferSize cb; bufferMask := bufferMask cb;
          closed := closed cb |},
       Continue (size_t (written + toWrite)))
  else (cb, Return written).

(** The same pass with every access of [buffer] and of the caller's [data]
    checked: [None] when the copy loop leaves one of the two arrays. *)
Definition write_iter_chk (cb : t) (data : list int16_t) (size written : Z)
  : option (t * flow) :=
  if (written <? size) && negb (closed cb) then
    let available := availableWrite cb in
    if available =? 0 then Some (cb, Wait)
    else
      let toWrite := Z.min available (size_t (size - written)) in
      buffer' ←
        for_loop (Z.to_nat toWrite)
          (fun i obuf =>
             buf ← obuf;
             v ← aget_chk data size (size_t (written + i));
             aset_chk buf (bufferSize cb)
                      (Z.land (size_t (writePos cb + i)) (bufferMask cb)) v)
          (Some (buffer cb));
      Some ({| buffer := buffer'; readPos := readPos cb;
               writePos :=
                 Z.land (size_t (writePos cb + toWrite)) (bufferMask cb);
               bufferSize := bufferSize cb; bufferMask := bufferMask cb;
               closed := closed cb |},
            Continue (size_t (written + toWrite)))
  else Some (cb, Return written).

(** After [notFull.wait_for] returns: [if (closed) break; continue;]. *)
Definition write_wake (cb : t) (written : Z) : flow :=
  if closed cb then Return written else Continue written.

(** One pass of [while (read < size)] in [read], with the mutex held.  The
    caller's array [data] is threaded through. *)
Definition read_iter (cb : t) (data : list int16_t) (size read : Z)
  : t * list int16_t * flow :=
  if read <? size then
    let available := availableRead cb in
    if available =? 0 then
      if closed cb then (cb, data, Return read) else (cb, data, Wait)
    else
      let toRead := Z.min available (size_t (size - read)) in
      let data' :=
        for_loop (Z.to_nat toRead)
          (fun i d =>
             aset d (size_t (read + i))
                  (aget (buffer cb)
                        (Z.land (size_t (readPos cb + i)) (bufferMask cb))))
          data in
      ({| buffer := buffer cb;
          readPos := Z.land (size_t (readPos cb + toRead)) (bufferMask cb);
          writePos := writePos cb;
          bufferSize := bufferSize cb; bufferMask := bufferMask cb;
          closed := closed cb |},
       data', Continue (size_t (read + toRead)))
  else (cb, data, Return read).

(** The same pass with every access checked. *)
Definition read_iter_chk (cb : t) (data : list int16_t) (size read : Z)
  : option (t * list int16_t * flow) :=
  if read <? size then
    let available := availableRead cb in
    if available =? 0 then
      if closed cb then Some (cb, data, Return read)
      else Some (cb, data, Wait)
    else
      let toRead := Z.min available (size_t (size - read)) in
      data' ←
        for_loop (Z.to_nat toRead)
          (fun i od =>
             d ← od;
             v ← aget_chk (buffer cb) (bufferSize cb)
                   (Z.land (size_t (readPos cb + i)) (bufferMask cb));
             aset_chk d size (size_t (read + i)) v)
          (Some data);
      Some ({| buffer := buffer cb;
               readPos :=
                 Z.land (size_t (readPos cb + toRead)) (bufferMask cb);
               writePos := writePos cb;
               bufferSize := bufferSize cb; bufferMask := bufferMask cb;
               closed := closed cb |},
            data', Continue (size_t (read + toRead)))
  else Some (cb, data, Return read).

(** After [notEmpty.wait_for] returns: [if (closed) break; continue;]. *)
Definition read_wake (cb : t) (read : Z) : flow :=
  if closed cb then Return read else Continue read.

(** *** A call run on its own

    [write] and [read] as functions: the loop is run until the call returns
    or reaches [wait_for].  With no other thread to change the channel a
    blocked call stays blocked, which [Blocked] reports together with the
    count transferred so far. *)
Inductive outcome : Type :=
| Returned (n : Z)
| Blocked (n : Z)
| OutOfFuel.

Fixpoint write_loop (fuel : nat) (cb : t) (data : list int16_t)
    (size written : Z) : t * outcome :=
  match fuel with
  | O => (cb, OutOfFuel)
  | Datatypes.S fuel' =>
      match write_iter cb data size written with
      | (cb', Return n) => (cb', Returned n)
      | (cb', Wait) => (cb', Blocked written)
      | (cb', Continue n) => write_loop fuel' cb' data size n
      end
  end.

Definition write (fuel : nat) (cb : t) (data : list int16_t) (size : Z)
  : t * outcome :=
  if closed cb then (cb, Returned 0)
  else write_loop fuel cb data size 0.

Fixpoint read_loop (fuel : nat) (cb : t) (data : list int16_t)
    (size read : Z) : t * list int16_t * outcome :=
  match fuel with
  | O => (cb, data, OutOfFuel)
  | Datatypes.S fuel' =>
      match read_iter cb data size read with
      | (cb', data', Return n) => (cb', data', Returned n)
      | (cb', data', Wait) => (cb', data', Blocked read)
      | (cb', data', Continue n) => read_loop fuel' cb' data' size n
      end
  end.

Definition read (fuel : nat) (cb : t) (data : list int16_t) (size : Z)
  : t * list int16_t * outcome :=
  read_loop fuel cb data size 0.

(** *** One writer, one reader and a closer, interleaved

    The mutex is held from the loop head to the next [wait_for] or return,
    so the threads interleave at the granularity of loop passes; a thread
    whose next action needs the mutex is enabled only when it is free. *)
Inductive thread : Type :=
| Idle
| AtHead (data : list int16_t) (size n : Z)
| InWait (data : list int16_t) (size n : Z).

Inductive owner : Type := Writer | Reader.

Record call : Type := mkcall {
  c_data : list int16_t;
  c_size : Z;
  c_ret : Z
}.

Record system : Type := mksys {
  chan : t;
  mutex : option owner;
  writer : thread;
  reader : thread;
  writes : list call;
  reads : list call
}.

Inductive event : Type :=
| CallWrite (data : list int16_t) (size : Z)
| CallRead (data : list int16_t) (size : Z)
| StepWriter
| StepReader
| CallClose.

Definition boot (cb : t) : system :=
  {| chan := cb; mutex := None; writer := Idle; reader := Idle;
     writes := []; reads := [] |}.

(** A call is well formed when [size] fits [size_t] and the array passed
    holds [size] elements. *)
Definition valid_call (data : list int16_t) (size : Z) : bool :=
  (0 <=? size) && (size <? 2 ^ 64) && (size <=? Z.of_nat (length data)).

Definition free (m : option owner) : bool :=
  match m with None => true | Some _ => false end.

Definition writer_flow (s : system) (cb : t) (data : list int16_t)
    (size : Z) (f : flow) (waited : Z) : system :=
  match f with
  | Return n =>
      {| chan := cb; mutex := None; writer := Idle; reader := reader s;
         writes := writes s ++ [mkcall data size n]; reads := reads s |}
  | Wait =>
      {| chan := cb; mutex := None; writer := InWait data size waited;
         reader := reader s; writes := writes s; reads := reads s |}
  | Continue n =>
      {| chan := cb; mutex := Some Writer; writer := AtHead data size n;
         reader := reader s; writes := writes s; reads := reads s |}
  end.

Definition reader_flow (s : system) (cb : t) (data : list int16_t)
    (size : Z) (f : flow) (waited : Z) : system :=
  match f with
  | Return n =>
      {| chan := cb; mutex := None; writer := writer s; reader := Idle;
         writes := writes s; reads := reads s ++ [mkcall data size n] |}
  | Wait =>
      {| chan := cb; mutex := None; writer := writer s;
         reader := InWait data size waited;
         writes := writes s; reads := reads s |}
  | Continue n =>
      {| chan := cb; mutex := Some Reader; writer := writer s;
         reader := AtHead data size n;
         writes := writes s; reads := reads s |}
  end.

(** [step e s] is [None] when [e] is not enabled in [s]. *)
Definition step (e : event) (s : system) : option system :=
  match e with
  | CallWrite data size =>
      match writer s with
      | Idle =>
          if negb (valid_call data size) then None
          else if closed (chan s) then
            (* if (closed) return 0; *)
            Some {| chan := chan s; mutex := mutex s; writer := Idle;
                    reader := reader s;
                    writes := writes s ++ [mkcall data size 0];
                    reads := reads s |}
          else if free (mutex s) then
            Some (writer_flow s (chan s) data size (Continue 0) 0)
          else None
      | _ => None
      end
  | CallRead data size =>
      match reader s with
      | Idle =>
          if negb (valid_call data size) then None
          else if free (mutex s) then
            Some (reader_flow s (chan s) data size (Continue 0) 0)
          else None
      | _ => None
      end
  | StepWriter =>
      match writer s with
      | Idle => None
      | AtHead data size written =>
          let '(cb, f) := write_iter (chan s) data size written in
          Some (writer_flow s cb data size f written)
      | InWait data size written =>
          if free (mutex s)
          then Some (writer_flow s (chan s) data size
                       (write_wake (chan s) written) written)
          else None
      end
  | StepReader =>
      match reader s with
      | Idle => None
      | AtHead data size n =>
          let '(cb, data', f) := read_iter (chan s) data size n in
          Some (reader_flow s cb data' size f n)
      | InWait data size n =>
          if free (mutex s)
          then Some (reader_flow s (chan s) data size
                       (read_wake (chan s) n) n)
          else None
      end
  | CallClose =>
      if free (mutex s)
      then Some {| chan := close (chan s); mutex := mutex s;
                   writer := writer s; reader := reader s;
                   writes := writes s; reads := reads s |}
      else None
  end.

Fixpoint run (evs : list event) (s : system) : option system :=
  match evs with
  | [] => Some s
  | e :: evs' =>
      match step e s with
      | Some s' => run evs' s'
      | None => None
      end
  end.

(** The samples a call has transferred: the first [c_ret] of its array. *)
Definition transferred (c : call) : list int16_t :=
  take (Z.to_nat (c_ret c)) (c_data c).

Definition in_flight (th : thread) : list int16_t :=
  match th with
  | Idle => []
  | AtHead data _ n | InWait data _ n => take (Z.to_nat n) data
  end.

(** All samples accepted by [write] so far, and all samples handed out by
    [read] so far, in call order. *)
Definition written_samples (s : system) : list int16_t :=
  concat (transferred <$> writes s) ++ in_flight (writer s).

Definition read_samples (s : system) : list int16_t :=
  concat (transferred <$> reads s) ++ in_flight (reader s).

(** All samples passed to the completed [write] calls. *)
Definition passed_to_write (s : system) : list int16_t :=
  concat ((fun c => take (Z.to_nat (c_size c)) (c_data c)) <$> writes s).

Definition returned_by_read (s : system) : list int16_t :=
  concat (transferred <$> reads s).

(** The buffered samples, oldest first. *)
Definition contents (cb : t) : list int16_t :=
  (fun j => aget (buffer cb) (Z.land (size_t (readPos cb + j)) (bufferMask cb)))
    <$> seqZ 0 (availableRead cb).

End CircularBuffer.

(** ** Invariants of the channel *)

Module ChannelInv.
Import CircularBuffer.

(** A channel of capacity [2^k]: what the constructor establishes and every
    operation keeps. *)
Record wf (k : Z) (cb : t) : Prop := mkwf {
  wf_k : 0 <= k < 64;
  wf_size : bufferSize cb = 2 ^ k;
  wf_mask : bufferMask cb = 2 ^ k - 1;
  wf_len : Z.of_nat (length (buffer cb)) = 2 ^ k;
  wf_read : 0 <= readPos cb < 2 ^ k;
  wf_write : 0 <= writePos cb < 2 ^ k
}.

(** A call in progress has transferred [n] of its [size] samples. *)
Definition thread_ok (th : thread) : Prop :=
  match th with
  | Idle => True
  | AtHead data size n | InWait data size n =>
      0 <= n <= size /\ size < 2 ^ 64 /\ size <= Z.of_nat (length data)
  end.

(** A completed call transferred everything, or the channel is closed. *)
Definition call_ok (cb : t) (c : call) : Prop :=
  0 <= c_ret c <= c_size c /\
  c_size c <= Z.of_nat (length (c_data c)) /\
  (c_ret c = c_size c \/ closed cb = true).

(** The mutex is held by the thread that is at its loop head, and by no
    thread otherwise; the two threads are never both there. *)
Definition at_head (th : thread) : bool :=
  match th with AtHead _ _ _ => true | _ => false end.

Definition mutex_ok (s : system) : Prop :=
  mutex s = (if at_head (writer s) then Some Writer
             else if at_head (reader s) then Some Reader else None) /\
  at_head (writer s) && at_head (reader s) = false.

Record Inv (k : Z) (s : system) : Prop := mkInv {
  inv_wf : wf k (chan s);
  inv_writer : thread_ok (writer s);
  inv_reader : thread_ok (reader s);
  inv_writes : Forall (call_ok (chan s)) (writes s);
  inv_reads : Forall (call_ok (chan s)) (reads s);
  inv_fifo : written_samples s = read_samples s ++ contents (chan s)
}.

End ChannelInv.

(** ** beamformer_defs.h *)

Definition WATCHDOG_TIMEOUT_MS : Z := 5000.

Inductive AppState : Type :=
| STATE_INIT
| STATE_RUNNING
| STATE_ERROR
| STATE_RECOVERY
| STATE_TERMINATING.

Inductive ErrorType : Type :=
| ERROR_NONE
| ERROR_ALSA_XRUN
| ERROR_ALSA_SUSPEND
| ERROR_PROCESSING
| ERROR_SYSTEM.

(** The value of an enumerator, as [std::to_string] prints it. *)
Definition AppState_value (st : AppState) : Z :=
  match st with
  | STATE_INIT => 0
  | STATE_RUNNING => 1
  | STATE_ERROR => 2
  | STATE_RECOVERY => 3
  | STATE_TERMINATING => 4
  end.

Definition to_string (z : Z) : string := NilZero.string_of_int (Z.to_int z).

(** The levels of [syslog.h]. *)
Definition LOG_ERR : Z := 3.
Definition LOG_WARNING : Z := 4.
Definition LOG_INFO : Z := 6.

(** The log sink is an external collaborator: the model records the calls
    of [logger->log(level, message)], oldest first. *)
Abbreviation Logger := (list (Z * string)).

(** ** error_handler.cpp *)

Module ErrorHandler.

Record t : Type := mk {
  globalState : AppState;
  lastError : ErrorType;
  errorMutex : bool;          (* true while a [lock_guard] holds it *)
  logger : Logger;
  watchdogRunning : bool;
  watchdogPing : bool
}.

(** Code that runs on the handler either completes or blocks for ever on
    [errorMutex].  [std::mutex] is not recursive: locking it in the thread
    that holds it is undefined behaviour, and with the pthread mutex that
    implements it the thread blocks on itself. *)
Inductive result (A : Type) : Type :=
| Ok (a : A) (h : t)
| Deadlock (h : t).
Arguments Ok {A} a h.
Arguments Deadlock {A} h.

Definition M (A : Type) : Type := t -> result A.

Definition ret {A : Type} (a : A) : M A := fun h => Ok a h.

Definition bind {A B : Type} (m : M A) (f : A -> M B) : M B :=
  fun h =>
    match m h with
    | Ok a h' => f a h'
    | Deadlock h' => Deadlock h'
    end.

#[export] Instance M_ret : MRet M := @ret.
#[export] Instance M_bind : MBind M := fun A B f m => bind m f.

Definition get : M t := fun h => Ok h h.

Definition log (level : Z) (message : string) : M unit :=
  fun h => Ok tt {| globalState := globalState h; lastError := lastError h;
                    errorMutex := errorMutex h;
                    logger := logger h ++ [(level, message)];
                    watchdogRunning := watchdogRunning h;
                    watchdogPing := watchdogPing h |}.

Definition set_globalState (st : AppState) : M unit :=
  fun h => Ok tt {| globalState := st; lastError := lastError h;
                    errorMutex := errorMutex h; logger := logger h;
                    watchdogRunning := watchdogRunning h;
                    watchdogPing := watchdogPing h |}.

Definition set_lastError (e : ErrorType) : M unit :=
  fun h => Ok tt {| globalState := globalState h; lastError := e;
                    errorMutex := errorMutex h; logger := logger h;
                    watchdogRunning := watchdogRunning h;
                    watchdogPing := watchdogPing h |}.

Definition set_errorMutex (b : bool) (h : t) : t :=
  {| globalState := globalState h; lastError := lastError h;
     errorMutex := b; logger := logger h;
     watchdogRunning := watchdogRunning h;
     watchdogPing := watchdogPing h |}.

Definition set_watchdogRunning (b : bool) : M unit :=
  fun h => Ok tt {| globalState := globalState h; lastError := lastError h;
                    errorMutex := errorMutex h; logger := logger h;
                    watchdogRunning := b;
                    watchdogPing := watchdogPing h |}.

Definition set_watchdogPing (b : bool) : M unit :=
  fun h => Ok tt {| globalState := globalState h; lastError := lastError h;
                    errorMutex := errorMutex h; logger := logger h;
                    watchdogRunning := watchdogRunning h;
                    watchdogPing := b |}.

(** [errorMutex.lock()] and [unlock()], by the one thread the model runs. *)
Definition lock : M unit :=
  fun h => if errorMutex h then Deadlock h else Ok tt (set_errorMutex true h).

Definition unlock : M unit := fun h => Ok tt (set_errorMutex false h).

(** [{ std::lock_guard<std::mutex> lock(errorMutex); body }] *)
Definition lock_guard {A : Type} (body : M A) : M A :=
  lock;; (r ← body; unlock;; ret r).

(** The constructor. *)
Definition ErrorHandler (log : Logger) : t :=
  {| globalState := STATE_INIT; lastError := ERROR_NONE;
     errorMutex := false; logger := log;
     watchdogRunning := false; watchdogPing := false |}.

Definition setGlobalState (state : AppState) : M unit :=
  set_globalState state;;
  log LOG_INFO ("Global state changed to: " +:+ to_string (AppState_value state)).

Definition getGlobalState (h : t) : AppState := globalState h.

Definition recoverFromError : M bool :=
  lock_guard (
    setGlobalState STATE_RECOVERY;;
    (h ← get;
     let recovered :=
       match lastError h with
       | ERROR_ALSA_XRUN => true
       | ERROR_ALSA_SUSPEND => true
       | ERROR_PROCESSING => false
       | ERROR_SYSTEM => false
       | _ => false
       end in
     (if negb recovered then setGlobalState STATE_ERROR else ret tt);;
     ret recovered)).

Definition reportError (err : ErrorType) (details : string) : M unit :=
  lock_guard (
    set_lastError err;;
    match err with
    | ERROR_ALSA_XRUN => log LOG_ERR ("ALSA xrun error: " +:+ details)
    | ERROR_ALSA_SUSPEND => log LOG_ERR ("ALSA suspend error: " +:+ details)
    | ERROR_PROCESSING => log LOG_ERR ("Processing error: " +:+ details)
    | ERROR_SYSTEM => log LOG_ERR ("System error: " +:+ details)
    | _ => log LOG_ERR ("Unknown error: " +:+ details)
    end;;
    setGlobalState STATE_ERROR;;
    bind recoverFromError (fun recovered : bool =>
      if recovered
      then log LOG_INFO "Recovered from error";; setGlobalState STATE_RUNNING
      else ret tt)).

(** [startWatchdog]: the thread it starts is [watchdogLoop] below. *)
Definition startWatchdog : M bool :=
  h ← get;
  if watchdogRunning h then ret true
  else
    set_watchdogRunning true;;
    set_watchdogPing true;;
    log LOG_INFO "Watchdog started";;
    ret true.

(** [stopWatchdog], as far as the flags go; the join is not modelled. *)
Definition stopWatchdog : M unit :=
  h ← get;
  if negb (watchdogRunning h) then ret tt
  else set_watchdogRunning false;; log LOG_INFO "Watchdog stopped".

Definition pingWatchdog : M unit := set_watchdogPing true.

(** What other threads do to the watchdog flags while the watchdog thread
    sleeps: the orchestrator pings or stops it. *)
Inductive env : Type := Ping | Stop.

Definition env_step (e : env) (h : t) : t :=
  match e with
  | Ping =>
      match pingWatchdog h with Ok _ h' | Deadlock h' => h' end
  | Stop =>
      {| globalState := globalState h; lastError := lastError h;
         errorMutex := errorMutex h; logger := logger h;
         watchdogRunning := false; watchdogPing := watchdogPing h |}
  end.

(** One [sleep_for(100 ms)]: the events of that tick happen. *)
Definition tick : Type := list env.
Definition sleep_for (tk : tick) (h : t) : t := foldl (fun h e => env_step e h) h tk.

(** [for (i = 0; i < WATCHDOG_TIMEOUT_MS / 100 && watchdogRunning; i++)
       sleep_for(100 ms);]
    with [n] the iterations left; a window with fewer ticks than
    iterations is quiet for the rest. *)
Fixpoint wait_window (n : nat) (ticks : list tick) (h : t) : t :=
  match n with
  | O => h
  | S n' =>
      if watchdogRunning h then
        match ticks with
        | [] => wait_window n' [] h
        | tk :: ticks' => wait_window n' ticks' (sleep_for tk h)
        end
      else h
  end.

(** The state of the watchdog thread after the windows observed. *)
Inductive thread : Type :=
| Monitoring (h : t)     (* at the head of [while (watchdogRunning)] *)
| Exited (h : t)         (* the loop was left and the thread ended *)
| Hung (h : t).          (* blocked for ever inside [reportError] *)

(** One pass of [while (watchdogRunning)], entered at the loop test. *)
Definition watchdog_window (w : list tick) (h : t) : thread :=
  if negb (watchdogRunning h) then
    match log LOG_INFO "Watchdog thread stopped" h with
    | Ok _ h' | Deadlock h' => Exited h'
    end
  else
    let h := wait_window (Z.to_nat (WATCHDOG_TIMEOUT_MS / 100)) w h in
    if negb (watchdogRunning h) then
      (* break *)
      match log LOG_INFO "Watchdog thread stopped" h with
      | Ok _ h' | Deadlock h' => Exited h'
      end
    else
      let check :=
        (if negb (watchdogPing h)
         then log LOG_ERR "Watchdog timeout - system stalled";;
              reportError ERROR_SYSTEM "Watchdog timeout"
         else ret tt);;
        set_watchdogPing false in
      match check h with
      | Ok _ h' => Monitoring h'
      | Deadlock h' => Hung h'
      end.

(** [watchdogLoop] over the windows observed, oldest first. *)
Fixpoint watchdog_windows (ws : list (list tick)) (th : thread) : thread :=
  match ws with
  | [] => th
  | w :: ws' =>
      match th with
      | Monitoring h => watchdog_windows ws' (watchdog_window w h)
      | _ => th
      end
  end.

Definition watchdogLoop (ws : list (list tick)) (h : t) : thread :=
  match log LOG_INFO "Watchdog thread started" h with
  | Ok _ h' | Deadlock h' => watchdog_windows ws (Monitoring h')
  end.

(** The handler a thread state carries. *)
Definition handler (th : thread) : t :=
  match th with Monitoring h | Exited h | Hung h => h end.

(** The number of calls of [reportError(ERROR_SYSTEM, ...)] so far: each
    one logs its "System error" line first. *)
Definition system_reports (h : t) : nat :=
  length (filter (fun e => e = (LOG_ERR, "System error: Watchdog timeout")) (logger h)).

(** [h'] differs from [h] in the watchdog flags at most. *)
Definition same_errors (h h' : t) : Prop :=
  globalState h' = globalState h /\ lastError h' = lastError h /\
  errorMutex h' = errorMutex h /\ logger h' = logger h.

(** The error lines logged so far. *)
Definition errors (h : t) : Logger :=
  filter (fun e => e.1 = LOG_ERR) (logger h).

(** A window in which nobody pinged, and one in which nobody stopped. *)
Definition no_ping (w : list tick) : Prop := Forall (Forall (fun e => e <> Ping)) w.
Definition no_stop (w : list tick) : Prop := Forall (Forall (fun e => e <> Stop)) w.

(** A window in one of whose ticks somebody pinged, or stopped the
    watchdog; only the ticks of the window count. *)
Definition pinged (w : list tick) : Prop :=
  Exists (Exists (fun e => e = Ping))
         (take (Z.to_nat (WATCHDOG_TIMEOUT_MS / 100)) w).
Definition stopped (w : list tick) : Prop :=
  Exists (Exists (fun e => e = Stop))
         (take (Z.to_nat (WATCHDOG_TIMEOUT_MS / 100)) w).

End ErrorHandler.

(** ** alsa_common.cpp, audio_capture.cpp, alsa_output.cpp

    The stage loops talk to ALSA, to a channel and to the log.  The model
    records what a loop does as a list of effects and takes what the
    outside answers (frames transferred, samples read, error codes) as
    inputs of each pass. *)

Module Stage.

Inductive effect : Type :=
| Log (level : Z) (message : string)
| SleepMs (ms : Z)
| PcmWrite (data : list int16_t) (frames : Z)
    (* snd_pcm_writei(handle, data, frames) *)
| ChannelWrite (data : list int16_t) (size : Z)
    (* outputBuffer->write(data, size) *)
| ReportError (err : ErrorType) (details : string).

Inductive control : Type := Next | Break.

(** The fields of [AlsaDevice] the loops use. *)
Record AlsaDevice : Type := mkdev {
  channels : Z;
  periodSize : Z;
  state : AppState
}.

Definition set_state (st : AppState) (dev : AlsaDevice) : AlsaDevice :=
  {| channels := channels dev; periodSize := periodSize dev; state := st |}.

(** [errno.h] *)
Definition EAGAIN : Z := 11.
Definition EPIPE : Z := 32.
Definition ESTRPIPE : Z := 86.

(** The conversion [(int) z]. *)
Definition int_cast (z : Z) : Z := (z + 2 ^ 31) mod 2 ^ 32 - 2 ^ 31.

(** [state == STATE_ERROR || state == STATE_RECOVERY ||
     state == STATE_TERMINATING] *)
Definition paused (st : AppState) : bool :=
  match st with
  | STATE_ERROR | STATE_RECOVERY | STATE_TERMINATING => true
  | _ => false
  end.

Section Loops.

(** [snd_strerror] of the ALSA library. *)
Variable snd_strerror : Z -> string.

(** [while ((err = snd_pcm_resume(handle)) == -EAGAIN) sleep_for(100 ms);]
    where the call answered [-EAGAIN] [eagain] times and then [resume]. *)
Definition resume_loop (eagain : nat) : list effect :=
  replicate eagain (SleepMs 100).

(** [AlsaDevice::xrunRecovery(err)], given the answers of
    [snd_pcm_prepare] and [snd_pcm_resume]. *)
Definition xrunRecovery (err prepare resume : Z) (eagain : nat)
  : Z * list effect :=
  if err =? - EPIPE then
    (prepare,
     [Log LOG_WARNING "ALSA xrun (underrun)"]
     ++ (if prepare <? 0
         then [Log LOG_ERR ("Can't recover from underrun: "
                            +:+ snd_strerror prepare)]
         else []))
  else if err =? - ESTRPIPE then
    let effs := [Log LOG_WARNING "ALSA suspend event"] ++ resume_loop eagain in
    if resume <? 0 then
      (prepare,
       effs ++ (if prepare <? 0
                then [Log LOG_ERR ("Can't recover from suspend: "
                                   +:+ snd_strerror prepare)]
                else []))
    else (resume, effs)
  else (err, []).

(** What the outside answers during one pass of [captureLoop], and the
    shared error handler as the pass finds it. *)
Record capture_env : Type := mkcenv {
  readi : Z;                    (* snd_pcm_readi(handle, buffer, periodSize) *)
  captured : list int16_t;      (* [buffer] after that call *)
  c_prepare : Z;
  c_resume : Z;
  c_eagain : nat;
  written : Z;                  (* what outputBuffer->write returns *)
  c_handler : ErrorHandler.t    (* [*errorHandler] *)
}.

(** How a pass of [captureLoop] ends: back at the loop test, or never,
    inside a call that does not return. *)
Inductive pass_end : Type := Again | Stuck.

(** The scan of the first samples of the period:
    [hasNonZeroSamples] and [maxSample]. *)
Definition scan (buffer : list int16_t) (n : Z) : bool * int16_t :=
  for_loop (Z.to_nat n)
    (fun i '(hasNonZeroSamples, maxSample) =>
       if negb (aget buffer i =? 0) then
         (true,
          if Z.abs (aget buffer i) >? Z.abs maxSample
          then aget buffer i else maxSample)
       else (hasNonZeroSamples, maxSample))
    (false, 0).

(** One pass of [while (running)] in [captureLoop].  The call of
    [errorHandler->reportError] is the one of the error handler above:
    [state = STATE_ERROR] is reached only if it returns. *)
Definition capture_pass (dev : AlsaDevice) (e : capture_env)
  : AlsaDevice * pass_end * list effect :=
  if paused (state dev) then (dev, Again, [SleepMs 100])
  else
    let frames := readi e in
    let buffer := captured e in
    if frames <? 0 then
      let '(r, effs) :=
        xrunRecovery frames (c_prepare e) (c_resume e) (c_eagain e) in
      let effs :=
        [Log LOG_WARNING ("ALSA read error: " +:+ snd_strerror frames)]
        ++ effs in
      if r <? 0 then
        let details := "Read error: " +:+ snd_strerror frames in
        let effs := effs ++ [ReportError ERROR_ALSA_XRUN details] in
        match ErrorHandler.reportError ERROR_ALSA_XRUN details (c_handler e)
        with
        | ErrorHandler.Ok _ _ => (set_state STATE_ERROR dev, Again, effs)
        | ErrorHandler.Deadlock _ => (dev, Stuck, effs)
        end
      else (dev, Again, effs)
    else if frames >? 0 then
      let '(hasNonZeroSamples, maxSample) :=
        scan buffer (Z.min (int_cast (frames * channels dev)) 100) in
      if negb hasNonZeroSamples then
        (dev, Again, [Log LOG_WARNING "All audio samples are zero"])
      else
        let samplesToWrite := size_t (frames * channels dev) in
        (dev, Again,
         [Log LOG_INFO ("Captured " +:+ to_string frames
                        +:+ " frames, max amplitude: " +:+ to_string maxSample);
          ChannelWrite buffer samplesToWrite]
         ++ (if written e <? samplesToWrite
             then [Log LOG_WARNING
                     ("Buffer overflow, dropped "
                      +:+ to_string (size_t (samplesToWrite - written e))
                      +:+ " samples")]
             else [Log LOG_INFO
                     ("Wrote " +:+ to_string (written e)
                      +:+ " samples to output buffer")]))
    else
      (dev, Again,
       [Log LOG_WARNING ("ALSA read returned " +:+ to_string frames
                         +:+ " frames");
        SleepMs 10]).

(** The device and the effects of a pass. *)
Definition capture_iter (dev : AlsaDevice) (e : capture_env)
  : AlsaDevice * list effect :=
  let '(dev', _, effs) := capture_pass dev e in (dev', effs).

(** What the outside answers during one pass of [outputLoop]. *)
Record output_env : Type := mkoenv {
  chan_read : Z;               (* inputBuffer->read(buffer, periodSize) *)
  chan_data : list int16_t;    (* [buffer] after that call *)
  chan_closed : bool;          (* inputBuffer->isClosed() *)
  writei : Z;                  (* the first snd_pcm_writei *)
  o_recover : Z;               (* snd_pcm_recover *)
  o_resume : Z;
  o_eagain : nat;
  o_prepare : Z;
  writei_retry : Z             (* snd_pcm_writei after recovery *)
}.

(** [std::fill(buffer.begin() + read, buffer.end(), 0)] *)
Definition fill_from (buffer : list int16_t) (read : Z) : list int16_t :=
  take (Z.to_nat read) buffer
  ++ replicate (length buffer - Z.to_nat read) 0.

(** The two log lines after a write that did not fail. *)
Definition write_report (dev : AlsaDevice) (frames : Z) : list effect :=
  if (frames >? 0) && (frames <? periodSize dev) then
    [Log LOG_WARNING ("Short write: " +:+ to_string frames
                      +:+ " frames of " +:+ to_string (periodSize dev))]
  else if frames >? 0 then
    [Log LOG_INFO ("Wrote " +:+ to_string frames
                   +:+ " frames to audio output")]
  else [].

(** The part of a pass of [outputLoop] from the write to the device on. *)
Definition output_write (dev : AlsaDevice) (e : output_env)
    (buffer : list int16_t) : AlsaDevice * list effect :=
  let frames := writei e in
  let w := [PcmWrite buffer (periodSize dev)] in
  if frames <? 0 then
    let w := w ++ [Log LOG_WARNING
                     ("ALSA write error: " +:+ snd_strerror frames)] in
    let failed (effs : list effect) (what : string) (err : Z) :=
      (set_state STATE_ERROR dev,
       w ++ effs ++ [Log LOG_ERR (what +:+ snd_strerror err)]) in
    let retry (effs : list effect) :=
      let w := w ++ effs ++ [PcmWrite buffer (periodSize dev)] in
      if writei_retry e <? 0 then
        (set_state STATE_ERROR dev,
         w ++ [Log LOG_ERR ("Failed to write after recovery: "
                            +:+ snd_strerror (writei_retry e))])
      else (dev, w ++ write_report dev (writei_retry e)) in
    if frames =? - EPIPE then
      let effs := [Log LOG_WARNING "ALSA buffer underrun"] in
      if o_recover e <? 0
      then failed effs "Cannot recover from underrun: " (o_recover e)
      else retry effs
    else if frames =? - ESTRPIPE then
      let effs := [Log LOG_WARNING "ALSA suspended"]
                  ++ resume_loop (o_eagain e) in
      if (o_resume e <? 0) && (o_prepare e <? 0)
      then failed effs "Cannot recover from suspend: " (o_prepare e)
      else retry effs
    else
      if o_recover e <? 0
      then failed [] "Cannot recover from error: " (o_recover e)
      else retry []
  else (dev, w ++ write_report dev frames).

(** One pass of [while (running)] in [outputLoop]. *)
Definition output_iter (dev : AlsaDevice) (e : output_env)
  : AlsaDevice * control * list effect :=
  if paused (state dev) then (dev, Next, [SleepMs 100])
  else
    let read := chan_read e in
    let buffer := chan_data e in
    if read <? periodSize dev then
      if chan_closed e then
        (dev, Break,
         [Log LOG_INFO "Input buffer closed, exiting output loop"])
      else if read >? 0 then
        let '(dev', effs) := output_write dev e (fill_from buffer read) in
        (dev', Next,
         [Log LOG_WARNING "Buffer underrun in output, padding with silence"]
         ++ effs)
      else (dev, Next, [SleepMs 10])
    else
      let '(dev', effs) := output_write dev e buffer in
      (dev', Next, effs).

(** The passes of the loop over the answers observed; after a [break] the
    thread logs that it stops. *)
Fixpoint output_iters (dev : AlsaDevice) (es : list output_env)
  : list effect :=
  match es with
  | [] => []
  | e :: es' =>
      let '(dev', c, effs) := output_iter dev e in
      effs ++ match c with
              | Next => output_iters dev' es'
              | Break => [Log LOG_INFO "Output thread stopped"]
              end
  end.

(** [outputLoop]: the two periods of silence, then the passes. *)
Definition outputLoop (dev : AlsaDevice) (es : list output_env)
  : list effect :=
  let silence := replicate (Z.to_nat (periodSize dev)) 0 in
  [Log LOG_INFO ("Output thread started, writing "
                 +:+ to_string (periodSize dev) +:+ " frames per period")]
  ++ for_loop 2 (fun _ effs => effs ++ [PcmWrite silence (periodSize dev)]) []
  ++ output_iters dev es.

(** The passes of [captureLoop] over the answers observed; a thread that
    is stuck in a call makes no further pass. *)
Fixpoint capture_iters (dev : AlsaDevice) (es : list capture_env)
  : AlsaDevice * list effect :=
  match es with
  | [] => (dev, [])
  | e :: es' =>
      let '(dev', c, effs) := capture_pass dev e in
      match c with
      | Again =>
          let '(dev'', effs') := capture_iters dev' es' in
          (dev'', effs ++ effs')
      | Stuck => (dev', effs)
      end
  end.

End Loops.

(** The writes to the device among the effects, in order. *)
Definition pcm_writes (effs : list effect) : list (list int16_t * Z) :=
  omap (fun x => match x with PcmWrite d n => Some (d, n) | _ => None end) effs.

(** The calls of the channel's [write] among the effects, in order. *)
Definition channel_writes (effs : list effect) : list (list int16_t * Z) :=
  omap (fun x => match x with ChannelWrite d n => Some (d, n) | _ => None end)
       effs.

(** The calls of [errorHandler->reportError] among the effects. *)
Definition reports (effs : list effect) : list (ErrorType * string) :=
  omap (fun x => match x with ReportError e d => Some (e, d) | _ => None end)
       effs.

(** The effects of a pass that only sleeps. *)
Definition only_sleeps (effs : list effect) : Prop :=
  Forall (fun x => x = SleepMs 100) effs.

End Stage.

(** ** beamformer.cpp: the processing loop *)

Module BeamFormer.
Import Stage.

Definition FRAME_SIZE : Z := 512.
Definition NUM_CHANNELS : Z := 2.

(** The conversion of an [int] to [int16_t]. *)
Definition int16_cast (z : Z) : Z := (z + 2 ^ 15) mod 2 ^ 16 - 2 ^ 15.

(** The range of [int16_t]. *)
Definition int16_range (z : Z) : Prop := - 2 ^ 15 <= z < 2 ^ 15.

(** [(l + r) / 2] on two samples promoted to [int], stored as [int16_t];
    the division of C++ truncates towards zero. *)
Definition mix (l r : int16_t) : int16_t := int16_cast ((l + r) ÷ 2).

(** [processFrameTimeDomain], and the same loop inside [processingLoop]:
    [for (i = 0; i < FRAME_SIZE; i++)
       output[i] = (input[i * NUM_CHANNELS] + input[i * NUM_CHANNELS + 1]) / 2;] *)
Definition processFrameTimeDomain (input output : list int16_t)
  : list int16_t :=
  for_loop (Z.to_nat FRAME_SIZE)
    (fun i out =>
       aset out i
         (mix (aget input (i * NUM_CHANNELS))
              (aget input (i * NUM_CHANNELS + 1))))
    output.

Definition processFrameFrequencyDomain (input output : list int16_t)
  : list int16_t :=
  processFrameTimeDomain input output.

(** [estimateDOA]: a placeholder that ignores its input. *)
Definition estimateDOA (input : list int16_t) : Z := 90.

(** *** The table of steering delays *)

(** [double] and [float] are IEEE binary64 and binary32, rounding to
    nearest even; a [float] promoted to [double] keeps its value. *)
Definition double_of_int (z : Z) : spec_float :=
  binary_normalize 53 1024 z 0 false.
Definition float_of_int (z : Z) : spec_float :=
  binary_normalize 24 128 z 0 false.
Definition float_of_double (x : spec_float) : spec_float :=
  match x with
  | S754_finite s m e => binary_round 24 128 s m e
  | _ => x
  end.

(** [M_PI] is 0x1.921fb54442d18p+1 and [0.0585] is
    0x1.df3b645a1cac1p-5. *)
Definition M_PI : spec_float := S754_finite false 7074237752028440 (-51).
Definition MIC_DISTANCE : spec_float :=
  S754_finite false 8430738502437569 (-57).
Definition SOUND_SPEED : spec_float := double_of_int 343.
Definition SAMPLE_RATE : Z := 32000.
Definition MAX_STEERING_DELAY : Z := 24.
Definition MAX_DOA_ANGLES : Z := 181.

(** [x] is a zero or a finite number. *)
Definition finite (x : spec_float) : bool :=
  match x with
  | S754_zero _ | S754_finite _ _ _ => true
  | _ => false
  end.

(** [x] is finite and [|x| < 2^b]. *)
Definition below (b : Z) (x : spec_float) : Prop :=
  match x with
  | S754_zero _ => True
  | S754_finite _ m e => Zpos (digits2_pos m) + e <= b
  | _ => False
  end.

(** The value of [round(x)], which rounds to the nearest integer and
    halves away from zero; there is none for an infinity or a NaN. *)
Definition c_round (x : spec_float) : option Z :=
  match x with
  | S754_zero _ => Some 0
  | S754_finite s m e =>
      let mag := if 0 <=? e then Zpos m * 2 ^ e
                 else (Zpos m + 2 ^ (- e - 1)) / 2 ^ (- e) in
      Some (if s then - mag else mag)
  | _ => None
  end.

(** The conversion [(int) v] of a floating-point number of integral value
    [v]: undefined outside the range of [int]. *)
Definition int_of_value (v : Z) : option Z :=
  if (- 2 ^ 31 <=? v) && (v <? 2 ^ 31) then Some v else None.

(** The two [if]s that keep an entry within [MAX_STEERING_DELAY]. *)
Definition clamp (d : Z) : Z :=
  let d := if d >? MAX_STEERING_DELAY then MAX_STEERING_DELAY else d in
  if d <? - MAX_STEERING_DELAY then - MAX_STEERING_DELAY else d.

Section Delays.

(** [sin] of the C library, as the call [sin(angleRad)] resolves it. *)
Variable sin : spec_float -> spec_float.

(** [float angleRad = (angle - 90) * M_PI / 180.0f;] *)
Definition angleRad (angle : Z) : spec_float :=
  float_of_double
    (SFdiv 53 1024 (SFmul 53 1024 (double_of_int (angle - 90)) M_PI)
       (float_of_int 180)).

(** [delaySeconds = (MIC_DISTANCE * sin(angleRad)) / SOUND_SPEED;
     delaySamples = delaySeconds * SAMPLE_RATE;] *)
Definition delaySamples (angle : Z) : spec_float :=
  let delaySeconds :=
    float_of_double
      (SFdiv 53 1024 (SFmul 53 1024 MIC_DISTANCE (sin (angleRad angle)))
         SOUND_SPEED) in
  SFmul 24 128 delaySeconds (float_of_int SAMPLE_RATE).

(** The entry of [delayPerAngle] for [angle]; [None] when the conversion
    to [int] is undefined. *)
Definition delay (angle : Z) : option Z :=
  v ← c_round (delaySamples angle);
  d ← int_of_value v;
  Some (clamp d).

(** [calculateDelaysForAngles], which fills the member
    [int delayPerAngle[MAX_DOA_ANGLES]]:
    [for (int angle = 0; angle <= 180; angle++)]. *)
Definition calculateDelaysForAngles (delayPerAngle : list Z)
  : option (list Z) :=
  for_loop (Z.to_nat (180 + 1))
    (fun angle tbl => t ← tbl; d ← delay angle; Some (aset t angle d))
    (Some delayPerAngle).

End Delays.

(** *** The processing loop *)

(** The fields of [BeamFormer] the loop uses, together with
    [static int frameCount], the function-local static of [processingLoop]:
    one counter for the whole process, shared by every object, which the
    thread that runs the loop carries here. *)
Record t : Type := mk {
  state : AppState;
  currentSteeringAngle : Z;
  frameCount : Z
}.

(** The constructor starts at broadside.  It does not touch the static
    counter: [frameCount] is what the process has counted so far, 0 until
    the first frame is processed and never reset. *)
Definition BeamFormer (frameCount : Z) : t :=
  {| state := STATE_INIT; currentSteeringAngle := 90;
     frameCount := frameCount |}.

(** [init], when the DSP resources could be allocated. *)
Definition init (bf : t) : t :=
  {| state := STATE_RUNNING;
     currentSteeringAngle := currentSteeringAngle bf;
     frameCount := frameCount bf |}.

(** [updateSteering] *)
Definition updateSteering (angle : Z) (bf : t) : t * list effect :=
  ({| state := state bf; currentSteeringAngle := angle;
      frameCount := frameCount bf |},
   [Log LOG_INFO ("Steering angle updated to " +:+ to_string angle
                  +:+ " degrees")]).

(** What the outside answers during one pass of [processingLoop]. *)
Record proc_env : Type := mkpenv {
  p_read : Z;                (* inputBuffer->read(inBuffer, 1024) *)
  p_data : list int16_t;     (* [inBuffer] after that call *)
  p_closed : bool;           (* inputBuffer->isClosed() *)
  p_logging : bool;          (* logger->isLoggingEnabled() *)
  p_written : Z              (* outputBuffer->write(outBuffer, 512) *)
}.

(** One pass of [while (running)] in [processingLoop]; [outBuffer] is
    threaded through.  Nothing in the [try] block throws, so the [catch]
    branch is not modelled. *)
Definition proc_iter (bf : t) (outBuffer : list int16_t) (e : proc_env)
  : t * list int16_t * control * list effect :=
  if paused (state bf) then (bf, outBuffer, Next, [SleepMs 100])
  else if p_read e <? FRAME_SIZE * NUM_CHANNELS then
    if p_closed e then (bf, outBuffer, Break, [])
    else (bf, outBuffer, Next, [SleepMs 10])
  else
    (* if (frameCount++ % 10 == 0) *)
    let estimate := Z.rem (frameCount bf) 10 =? 0 in
    let bf1 := {| state := state bf;
                  currentSteeringAngle := currentSteeringAngle bf;
                  frameCount := int_cast (frameCount bf + 1) |} in
    let '(bf2, effs1) :=
      if estimate then
        let angle := estimateDOA (p_data e) in
        if (0 <=? angle) && (angle <=? 180) then updateSteering angle bf1
        else (bf1, [])
      else (bf1, []) in
    let effs2 :=
      if p_logging e
      then [Log LOG_INFO ("Processing frame with steering angle: "
                          +:+ to_string (currentSteeringAngle bf2)
                          +:+ " degrees")]
      else [] in
    let outBuffer' := processFrameTimeDomain (p_data e) outBuffer in
    (bf2, outBuffer', Next,
     effs1 ++ effs2 ++ [ChannelWrite outBuffer' FRAME_SIZE]
     ++ (if p_written e <? FRAME_SIZE
         then [Log LOG_WARNING "Output buffer overflow"] else [])).

(** The passes of the loop over the answers observed; after a [break] the
    thread logs that it stops. *)
Fixpoint proc_iters (bf : t) (outBuffer : list int16_t) (es : list proc_env)
  : t * list effect :=
  match es with
  | [] => (bf, [])
  | e :: es' =>
      let '(bf', out', c, effs) := proc_iter bf outBuffer e in
      match c with
      | Next =>
          let '(bf'', effs') := proc_iters bf' out' es' in
          (bf'', effs ++ effs')
      | Break => (bf', effs ++ [Log LOG_INFO "Processing thread stopped"])
      end
  end.

(** [processingLoop] *)
Definition processingLoop (bf : t) (es : list proc_env) : t * list effect :=
  let '(bf', effs) :=
    proc_iters bf (replicate (Z.to_nat FRAME_SIZE) 0) es in
  (bf', [Log LOG_INFO "Processing thread started"] ++ effs).

End BeamFormer.

(** ** logger.cpp *)

Module Logger.

Definition MAX_LOG_ENTRIES : Z := 1000.
Definition LOG_DEBUG : Z := 7.

Record LogEntry : Type := mkentry {
  level : Z;
  message : string;
  timestamp : Z
}.

(** A value-initialised entry, as [logBuffer(MAX_LOG_ENTRIES)] makes them. *)
Definition empty_entry : LogEntry :=
  {| level := 0; message := ""; timestamp := 0 |}.

#[export] Instance LogEntry_inhabited : Inhabited LogEntry :=
  populate empty_entry.

(** The logger, with what it has sent to syslog and printed on stderr. *)
Record t : Type := mk {
  logBuffer : list LogEntry;
  nextLogIndex : Z;
  logMutex : bool;            (* true while a [lock_guard] holds it *)
  logToSyslog : bool;
  loggingEnabled : bool;
  to_syslog : list (Z * string);
  to_stderr : list string
}.

(** As for the error handler: [logMutex] is a [std::mutex], and a thread
    that locks it twice blocks on itself. *)
Inductive result (A : Type) : Type :=
| Ok (a : A) (lg : t)
| Deadlock (lg : t).
Arguments Ok {A} a lg.
Arguments Deadlock {A} lg.

Definition set_logMutex (b : bool) (lg : t) : t :=
  {| logBuffer := logBuffer lg; nextLogIndex := nextLogIndex lg;
     logMutex := b; logToSyslog := logToSyslog lg;
     loggingEnabled := loggingEnabled lg;
     to_syslog := to_syslog lg; to_stderr := to_stderr lg |}.

(** [{ std::lock_guard<std::mutex> lock(logMutex); body }] *)
Definition lock_guard {A : Type} (body : t -> result A) (lg : t) : result A :=
  if logMutex lg then Deadlock lg
  else
    match body (set_logMutex true lg) with
    | Ok a lg' => Ok a (set_logMutex false lg')
    | Deadlock lg' => Deadlock lg'
    end.

(** The constructor. *)
Definition Logger (useSyslog enabled : bool) : t :=
  {| logBuffer := replicate (Z.to_nat MAX_LOG_ENTRIES) empty_entry;
     nextLogIndex := 0; logMutex := false;
     logToSyslog := useSyslog; loggingEnabled := enabled;
     to_syslog := []; to_stderr := [] |}.

Definition isLoggingEnabled (lg : t) : bool := loggingEnabled lg.

Definition levelStr (level : Z) : string :=
  if level =? LOG_ERR then "ERROR"
  else if level =? LOG_WARNING then "WARNING"
  else if level =? LOG_INFO then "INFO"
  else if level =? LOG_DEBUG then "DEBUG"
  else "UNKNOWN".

Definition newline : string := String (Ascii.ascii_of_nat 10) "".

(** [log(level, message)], where [now] is what [time(nullptr)] returns. *)
Definition log (now level : Z) (message : string) : t -> result unit :=
  lock_guard (fun lg =>
    if negb (loggingEnabled lg) && negb (level =? LOG_ERR) then Ok tt lg
    else
      let entry := {| level := level; message := message; timestamp := now |} in
      Ok tt
        {| logBuffer := <[Z.to_nat (nextLogIndex lg) := entry]> (logBuffer lg);
           nextLogIndex := size_t (nextLogIndex lg + 1) mod MAX_LOG_ENTRIES;
           logMutex := logMutex lg; logToSyslog := logToSyslog lg;
           loggingEnabled := loggingEnabled lg;
           to_syslog := to_syslog lg
                        ++ (if logToSyslog lg then [(level, message)] else []);
           to_stderr := to_stderr lg
                        ++ ["[" +:+ levelStr level +:+ "] " +:+ message
                            +:+ newline] |}).

(** [setLoggingEnabled(enabled)] *)
Definition setLoggingEnabled (now : Z) (enabled : bool) : t -> result unit :=
  lock_guard (fun lg =>
    let lg1 :=
      {| logBuffer := logBuffer lg; nextLogIndex := nextLogIndex lg;
         logMutex := logMutex lg; logToSyslog := logToSyslog lg;
         loggingEnabled := enabled;
         to_syslog := to_syslog lg; to_stderr := to_stderr lg |} in
    if loggingEnabled lg1 then log now LOG_INFO "Logging enabled" lg1
    else Ok tt lg1).

(** [getRecentLogs(count)]: the entries from the newest backwards. *)
Definition getRecentLogs (count : Z) : t -> result (list LogEntry) :=
  lock_guard (fun lg =>
    let count := Z.min count MAX_LOG_ENTRIES in
    Ok (for_loop (Z.to_nat count)
          (fun i recent =>
             let index :=
               size_t (size_t (size_t (nextLogIndex lg - i) - 1)
                       + MAX_LOG_ENTRIES) mod MAX_LOG_ENTRIES in
             let entry := logBuffer lg !!! Z.to_nat index in
             if timestamp entry =? 0 then recent
             else recent ++ [entry])
          [])
       lg).

(** [dumpLogs(filename)]: [opened] tells whether [fopen] succeeded,
    [strftime] formats a timestamp; the result is the text written. *)
Definition dumpLogs (now : Z) (opened : bool) (filename : string)
    (strftime : Z -> string) : t -> result (list string) :=
  lock_guard (fun lg =>
    if negb opened then
      match log now LOG_ERR ("Cannot open log file: " +:+ filename) lg with
      | Ok _ lg' => Ok [] lg'
      | Deadlock lg' => Deadlock lg'
      end
    else
      Ok (for_loop (Z.to_nat MAX_LOG_ENTRIES)
            (fun i file =>
               let index := size_t (nextLogIndex lg + i) mod MAX_LOG_ENTRIES in
               let entry := logBuffer lg !!! Z.to_nat index in
               if timestamp entry =? 0 then file
               else file ++ ["[" +:+ strftime (timestamp entry) +:+ "] ["
                             +:+ to_string (level entry) +:+ "] "
                             +:+ message entry +:+ newline])
            [])
         lg).

(** A call of [log]: the time, the level and the message. *)
Definition call : Type := Z * Z * string.

(** The calls run one after the other. *)
Fixpoint log_all (calls : list call) (lg : t) : result unit :=
  match calls with
  | [] => Ok tt lg
  | (now, level, message) :: calls' =>
      match log now level message lg with
      | Ok _ lg' => log_all calls' lg'
      | Deadlock lg' => Deadlock lg'
      end
  end.

(** The entries the logger keeps of the calls: all of them when logging is
    enabled, the errors only when it is not. *)
Definition kept (enabled : bool) (calls : list call) : list LogEntry :=
  omap (fun '(now, level, message) =>
          if negb enabled && negb (level =? LOG_ERR) then None
          else Some {| level := level; message := message; timestamp := now |})
       calls.

(** The ring holds the entries [es], oldest first: counted back from
    [nextLogIndex], slot [j] holds the [j]-th newest entry, and the slots
    beyond the entries kept so far are still empty. *)
Definition ring (lg : t) (es : list LogEntry) : Prop :=
  Z.of_nat (length (logBuffer lg)) = MAX_LOG_ENTRIES /\
  0 <= nextLogIndex lg < MAX_LOG_ENTRIES /\
  logMutex lg = false /\
  forall j, 0 <= j < MAX_LOG_ENTRIES ->
    logBuffer lg !!! Z.to_nat ((nextLogIndex lg - 1 - j) mod MAX_LOG_ENTRIES)
    = (if j <? Z.of_nat (length es) then reverse es !!! Z.to_nat j
       else empty_entry).

End Logger.

(** ** Concrete channels and schedules used as test inputs *)

Module Demo.
Import CircularBuffer.

(** A fresh channel of capacity 8. *)
Definition cb8 : t :=
  {| buffer := replicate 8 0; readPos := 0; writePos := 0;
     bufferSize := 8; bufferMask := 7; closed := false |}.

(** Ten samples written through a channel of capacity 8 while the reader
    takes them in chunks of five. *)
Definition events8 : list event :=
  [CallWrite (seqZ 1 10) 10; StepWriter; StepWriter;
   CallRead (replicate 5 0) 5; StepReader; StepReader;
   StepWriter; StepWriter; StepWriter;
   CallRead (replicate 5 0) 5; StepReader; StepReader].

Definition final8 : system := default (boot cb8) (run events8 (boot cb8)).

(** Scenario 1: capacity 4096, one write of 5000 samples, reads of 1000. *)
Definition cb4096 : t :=
  {| buffer := replicate 4096 0; readPos := 0; writePos := 0;
     bufferSize := 4096; bufferMask := 4095; closed := false |}.

Definition read1000 : list event :=
  [CallRead (replicate 1000 0) 1000; StepReader; StepReader].

Definition scenario1 : list event :=
  [CallWrite (seqZ 1 5000) 5000; StepWriter; StepWriter]
  ++ read1000 ++ [StepWriter; StepWriter; StepWriter]
  ++ read1000 ++ read1000 ++ read1000 ++ read1000.

(** Scenario 2: a closed channel of capacity 256 holding 200 samples. *)
Definition closed200 : t :=
  {| buffer := seqZ 1 256; readPos := 0; writePos := 200;
     bufferSize := 256; bufferMask := 255; closed := true |}.

(** Scenario 2 before the close: a channel of capacity 256, as the
    constructor builds it, into which 200 samples have been written. *)
Definition cb256 : t :=
  match CircularBuffer 256 with inr cb => cb | inl _ => cb8 end.

Definition open200 : t := fst (write 2 cb256 (seqZ 1 200) 200).

(** A handler as the orchestrator builds it, and after [startWatchdog]. *)
Definition handler0 : ErrorHandler.t := ErrorHandler.ErrorHandler [].

Definition started : ErrorHandler.t :=
  match ErrorHandler.startWatchdog handler0 with
  | ErrorHandler.Ok _ h | ErrorHandler.Deadlock h => h
  end.

(** A window of fifty ticks in which no other thread touches the flags. *)
Definition quiet : list ErrorHandler.tick := [].

(** A stereo capture device and a mono playback device with periods of
    four frames, both running. *)
Definition capture_dev : Stage.AlsaDevice :=
  {| Stage.channels := 2; Stage.periodSize := 4; Stage.state := STATE_RUNNING |}.

Definition output_dev : Stage.AlsaDevice :=
  {| Stage.channels := 1; Stage.periodSize := 4; Stage.state := STATE_RUNNING |}.

(** One frame of silence captured, and one frame of sound. *)
Definition silent_frame : Stage.capture_env :=
  {| Stage.readi := 1; Stage.captured := [0; 0; 0; 0; 0; 0; 0; 0];
     Stage.c_prepare := 0; Stage.c_resume := 0; Stage.c_eagain := 0%nat;
     Stage.written := 2;
     Stage.c_handler := handler0 |}.

Definition loud_frame : Stage.capture_env :=
  {| Stage.readi := 1; Stage.captured := [0; -7; 0; 0; 0; 0; 0; 0];
     Stage.c_prepare := 0; Stage.c_resume := 0; Stage.c_eagain := 0%nat;
     Stage.written := 2;
     Stage.c_handler := handler0 |}.

(** A read of three samples out of four, on an open channel (which the
    channel never produces) and on a closed one. *)
Definition short_open : Stage.output_env :=
  {| Stage.chan_read := 3; Stage.chan_data := [5; 6; 7; 99];
     Stage.chan_closed := false; Stage.writei := 4;
     Stage.o_recover := 0; Stage.o_resume := 0; Stage.o_eagain := 0%nat;
     Stage.o_prepare := 0; Stage.writei_retry := 4 |}.

Definition short_closed : Stage.output_env :=
  {| Stage.chan_read := 3; Stage.chan_data := [5; 6; 7; 0];
     Stage.chan_closed := true; Stage.writei := 4;
     Stage.o_recover := 0; Stage.o_resume := 0; Stage.o_eagain := 0%nat;
     Stage.o_prepare := 0; Stage.writei_retry := 4 |}.

(** Three samples written to a channel of capacity 8, the channel closed,
    and a read of four. *)
Definition events_closed : list CircularBuffer.event :=
  [CallWrite [5; 6; 7] 3; StepWriter; StepWriter; CallClose;
   CallRead (replicate 4 0) 4; StepReader; StepReader].

Definition final_closed : CircularBuffer.system :=
  default (boot cb8) (run events_closed (boot cb8)).

(** An [snd_strerror] for the examples. *)
Definition strerror (err : Z) : string := "error " +:+ to_string err.

(** A writer blocked on a full channel of capacity 8: it has written seven
    of ten samples and waits. *)
Definition blocked8 : CircularBuffer.system :=
  default (boot cb8)
    (run [CallWrite (seqZ 1 10) 10; StepWriter; StepWriter] (boot cb8)).

(** A writer that has just entered [write] with ten samples. *)
Definition at_head8 : CircularBuffer.system :=
  default (boot cb8) (run [CallWrite (seqZ 1 10) 10] (boot cb8)).

(** A channel of capacity 1 on which a write of one sample was tried. *)
Definition cb1 : t :=
  {| buffer := [0]; readPos := 0; writePos := 0;
     bufferSize := 1; bufferMask := 0; closed := false |}.

Definition events1 : list event := [CallWrite [9] 1; StepWriter].

Definition final1 : CircularBuffer.system :=
  default (boot cb1) (run events1 (boot cb1)).

(** A read that failed with a suspend that could not be recovered. *)
Definition suspended : Stage.capture_env :=
  {| Stage.readi := -86; Stage.captured := [0; 0; 0; 0; 0; 0; 0; 0];
     Stage.c_prepare := -5; Stage.c_resume := -38; Stage.c_eagain := 2%nat;
     Stage.written := 0;
     Stage.c_handler := handler0 |}.

(** A whole period read, whose write underran once and was recovered. *)
Definition underrun_once : Stage.output_env :=
  {| Stage.chan_read := 4; Stage.chan_data := [5; 6; 7; 8];
     Stage.chan_closed := false; Stage.writei := -32;
     Stage.o_recover := 0; Stage.o_resume := 0; Stage.o_eagain := 0%nat;
     Stage.o_prepare := 0; Stage.writei_retry := 4 |}.

(** Three calls of [log], stamped with the times 100 to 102. *)
Definition log_calls : list Logger.call :=
  [(100, LOG_INFO, "a"); (101, LOG_ERR, "b"); (102, LOG_WARNING, "c")].

(** A whole stereo frame read by the processing loop, and the end of the
    stream. *)
Definition full_frame : BeamFormer.proc_env :=
  {| BeamFormer.p_read := 1024; BeamFormer.p_data := replicate 1024 7;
     BeamFormer.p_closed := false; BeamFormer.p_logging := false;
     BeamFormer.p_written := 512 |}.

Definition end_of_stream : BeamFormer.proc_env :=
  {| BeamFormer.p_read := 0; BeamFormer.p_data := replicate 1024 7;
     BeamFormer.p_closed := true; BeamFormer.p_logging := false;
     BeamFormer.p_written := 0 |}.

(** Two functions to try the table with: the identity cut off at 1 and -1,
    and the Taylor polynomial of the sine of degree 7. *)
Definition cut_sin (x : spec_float) : spec_float :=
  match x with
  | S754_finite s m e =>
      if Zpos (digits2_pos m) + e <=? 0 then x else S754_finite s 1 0
  | S754_infinity _ => S754_nan
  | _ => x
  end.

Definition taylor_sin (x : spec_float) : spec_float :=
  let mul := SFmul 53 1024 in
  let div a n := SFdiv 53 1024 a (BeamFormer.double_of_int n) in
  let x2 := mul x x in
  SFsub 53 1024
    (SFadd 53 1024
       (SFsub 53 1024 x (div (mul x x2) 6))
       (div (mul (mul x x2) x2) 120))
    (div (mul (mul (mul x x2) x2) x2) 5040).

End Demo.

(* ================================================================== *)
(** * Properties *)

(** ** Arithmetic of the ring indices *)

Section RingArith.

Lemma size_t_small z : 0 <= z < 2 ^ 64 -> size_t z = z.
Proof. intros H. unfold size_t. apply Z.mod_small. exact H. Qed.

Lemma pow2_pos k : 0 <= k -> 0 < 2 ^ k.
Proof. intros H. apply Z.pow_pos_nonneg; lia. Qed.

Lemma pow2_le_64 k : 0 <= k < 64 -> 2 ^ k < 2 ^ 64.
Proof. intros H. apply Z.pow_lt_mono_r; lia. Qed.

Lemma land_mask k x : 0 <= k -> Z.land x (2 ^ k - 1) = x mod 2 ^ k.
Proof.
  intros Hk. rewrite <- Z.land_ones by exact Hk.
  rewrite Z.ones_equiv. reflexivity.
Qed.

(** Masking after a wrap modulo [2^64] is reduction modulo [2^k]. *)
Lemma mask_size_t k x :
  0 <= k < 64 -> Z.land (size_t x) (2 ^ k - 1) = x mod 2 ^ k.
Proof.
  intros Hk. rewrite land_mask by lia. unfold size_t.
  apply Z.mod_mod_divide.
  exists (2 ^ (64 - k)). rewrite <- Z.pow_add_r by lia. f_equal. lia.
Qed.

(** Two offsets less than one lap apart land on different slots. *)
Lemma slot_inj n a i j :
  0 < n -> (a + i) mod n = (a + j) mod n -> - n < i - j < n -> i = j.
Proof.
  intros Hn Heq Hd.
  pose proof (Z.div_mod (a + i) n ltac:(lia)) as Hi.
  pose proof (Z.div_mod (a + j) n ltac:(lia)) as Hj.
  rewrite Heq in Hi.
  assert (Hq : i - j = n * ((a + i) / n - (a + j) / n)) by lia.
  assert ((a + i) / n - (a + j) / n = 0) by nia.
  lia.
Qed.

End RingArith.

(** ** Copy loops *)

Section CopyLoops.

Implicit Types (a : list int16_t) (ix : Z -> Z) (v : Z -> int16_t).

Lemma aset_length a i x : length (aset a i x) = length a.
Proof. unfold aset. apply length_insert. Qed.

Lemma aget_aset_eq a i x :
  0 <= i < Z.of_nat (length a) -> aget (aset a i x) i = x.
Proof.
  intros Hi. unfold aget, aset. apply list_lookup_total_insert_eq. lia.
Qed.

Lemma aget_aset_ne a i j x :
  0 <= i -> 0 <= j -> i <> j -> aget (aset a i x) j = aget a j.
Proof.
  intros Hi Hj Hne. unfold aget, aset.
  apply list_lookup_total_insert_ne. lia.
Qed.

Lemma for_loop_length n ix v a :
  length (for_loop n (fun i b => aset b (ix i) (v i)) a) = length a.
Proof.
  induction n as [|n IH]; simpl; [reflexivity|].
  rewrite aset_length. exact IH.
Qed.

(** A slot that no iteration writes keeps its value. *)
Lemma for_loop_miss n ix v a p :
  0 <= p ->
  (forall i, 0 <= i < Z.of_nat n -> 0 <= ix i /\ ix i <> p) ->
  aget (for_loop n (fun i b => aset b (ix i) (v i)) a) p = aget a p.
Proof.
  intros Hp. induction n as [|n IH]; intros Hix; simpl; [reflexivity|].
  destruct (Hix (Z.of_nat n) ltac:(lia)) as [H0 Hne].
  rewrite aget_aset_ne by assumption.
  apply IH. intros i Hi. apply Hix. lia.
Qed.

(** A slot written by iteration [i], and by no later one, holds [v i]. *)
Lemma for_loop_hit n ix v a i :
  0 <= i < Z.of_nat n ->
  (forall j, 0 <= j < Z.of_nat n -> 0 <= ix j < Z.of_nat (length a)) ->
  (forall j, i < j < Z.of_nat n -> ix j <> ix i) ->
  aget (for_loop n (fun i b => aset b (ix i) (v i)) a) (ix i) = v i.
Proof.
  induction n as [|n IH]; intros Hi Hrange Hinj; [lia|]. simpl.
  destruct (Z.eq_dec i (Z.of_nat n)) as [->|Hne].
  - apply aget_aset_eq. rewrite for_loop_length. apply Hrange. lia.
  - rewrite aget_aset_ne.
    + apply IH; [lia| |]; intros j Hj; [apply Hrange|apply Hinj]; lia.
    + apply (Hrange (Z.of_nat n)). lia.
    + apply (Hrange i). lia.
    + apply Hinj. lia.
Qed.

(** Reading [n] elements of an array from offset [o]. *)
Lemma slice_take_drop a o n :
  0 <= o -> 0 <= n -> o + n <= Z.of_nat (length a) ->
  (fun i => aget a (o + i)) <$> seqZ 0 n
  = take (Z.to_nat n) (drop (Z.to_nat o) a).
Proof.
  intros Ho Hn Hlen. apply list_eq. intros i.
  rewrite list_lookup_fmap.
  destruct (decide (Z.of_nat i < n)) as [Hlt|Hge].
  - rewrite lookup_seqZ_lt by exact Hlt. simpl.
    rewrite lookup_take_lt by lia. rewrite lookup_drop.
    unfold aget. rewrite (list_lookup_lookup_total_lt a) by lia.
    f_equal. f_equal. lia.
  - rewrite lookup_seqZ_ge by lia. simpl.
    rewrite lookup_take_ge by lia. reflexivity.
Qed.

(** Filling an array from offset [o] on with consecutive values. *)
Lemma for_loop_fill n o v a :
  0 <= o -> o + Z.of_nat n <= Z.of_nat (length a) ->
  take (Z.to_nat (o + Z.of_nat n))
       (for_loop n (fun i d => aset d (o + i) (v i)) a)
  = take (Z.to_nat o) a ++ (v <$> seqZ 0 (Z.of_nat n)).
Proof.
  intros Ho. induction n as [|n IH]; intros Hlen.
  - simpl. rewrite Z.add_0_r. rewrite app_nil_r. reflexivity.
  - cbn [for_loop]. rewrite seqZ_S, fmap_app. simpl.
    rewrite app_assoc. rewrite <- IH by lia.
    replace (Z.to_nat (o + Z.of_nat (S n)))
      with (S (Z.to_nat (o + Z.of_nat n))) by lia.
    unfold aset at 1.
    erewrite take_S_r.
    2:{ apply list_lookup_insert_eq. rewrite for_loop_length. lia. }
    rewrite take_insert_ge by lia. reflexivity.
Qed.

Lemma for_loop_fill_length n o v a :
  length (for_loop n (fun i d => aset d (o + i) (v i)) a) = length a.
Proof. apply (for_loop_length n (fun i => o + i) v a). Qed.

End CopyLoops.

(** ** The channel *)

Section ChannelFacts.
Import CircularBuffer ChannelInv.

Lemma availableRead_wf k cb :
  wf k cb ->
  availableRead cb = (writePos cb - readPos cb) mod 2 ^ k /\
  0 <= availableRead cb <= 2 ^ k - 1.
Proof.
  intros [Hk _ Hm _ _ _]. unfold availableRead. rewrite Hm.
  rewrite mask_size_t by exact Hk. split; [reflexivity|].
  pose proof (Z.mod_pos_bound (writePos cb - readPos cb) (2 ^ k)
                (pow2_pos k ltac:(lia))).
  lia.
Qed.

Lemma availableWrite_wf k cb :
  wf k cb -> availableWrite cb = 2 ^ k - 1 - availableRead cb.
Proof.
  intros Hwf. destruct (availableRead_wf k cb Hwf) as [_ Hr].
  destruct Hwf as [Hk Hs _ _ _ _]. unfold availableWrite. rewrite Hs.
  apply size_t_small. pose proof (pow2_le_64 k Hk). lia.
Qed.

Lemma max_size_eq : max_size = 2 ^ 62 - 1.
Proof. reflexivity. Qed.

Lemma constructor_pow2 k :
  0 <= k < 62 ->
  exists cb, CircularBuffer (2 ^ k) = inr cb /\ wf k cb /\
             readPos cb = 0 /\ writePos cb = 0 /\ closed cb = false.
Proof.
  intros Hk. pose proof (pow2_pos k ltac:(lia)) as Hpos.
  pose proof (pow2_le_64 k ltac:(lia)) as Hlt.
  assert (Hmax : 2 ^ k <= max_size).
  { rewrite max_size_eq.
    pose proof (Z.pow_lt_mono_r 2 k 62 ltac:(lia) ltac:(lia) ltac:(lia)).
    lia. }
  unfold CircularBuffer.
  rewrite (size_t_small (2 ^ k - 1)) by lia.
  rewrite land_mask by lia. rewrite Z.mod_same by lia. simpl.
  destruct (Z.ltb_spec max_size (2 ^ k)); [lia|].
  eexists. split; [reflexivity|]. split; [|auto].
  constructor; simpl; try lia.
  rewrite length_replicate. lia.
Qed.

Lemma constructor_throws k :
  62 <= k < 64 -> CircularBuffer (2 ^ k) = inl length_error.
Proof.
  intros Hk. assert (Hc : k = 62 \/ k = 63) by lia.
  destruct Hc as [-> | ->]; reflexivity.
Qed.

Lemma close_wf k cb : wf k cb -> wf k (close cb).
Proof. intros [? ? ? ? ? ?]. constructor; assumption. Qed.

Lemma contents_length k cb :
  wf k cb -> Z.of_nat (length (contents cb)) = availableRead cb.
Proof.
  intros Hwf. destruct (availableRead_wf k cb Hwf) as [_ Hr].
  unfold contents. rewrite length_fmap, length_seqZ. lia.
Qed.

Lemma for_loop_ext {S : Type} n (f g : Z -> S -> S) (s : S) :
  (forall i x, 0 <= i < Z.of_nat n -> f i x = g i x) ->
  for_loop n f s = for_loop n g s.
Proof.
  induction n as [|n IH]; intros H; simpl; [reflexivity|].
  rewrite IH by (intros; apply H; lia). apply H. lia.
Qed.

(** The slot [i] places after the write cursor is the slot [aR + i] places
    after the read cursor. *)
Lemma slot_write n r w i :
  0 < n -> (r + ((w - r) mod n + i)) mod n = (w + i) mod n.
Proof.
  intros Hn. replace (r + ((w - r) mod n + i)) with ((w - r) mod n + (r + i)) by lia.
  rewrite Zplus_mod_idemp_l. f_equal. lia.
Qed.

(** What one pass of the [write] loop does. *)
Lemma write_iter_spec k cb data size written cb' f :
  wf k cb ->
  0 <= written <= size -> size < 2 ^ 64 -> size <= Z.of_nat (length data) ->
  write_iter cb data size written = (cb', f) ->
  wf k cb' /\ closed cb' = closed cb /\
  match f with
  | Return n => cb' = cb /\ n = written /\ (n = size \/ closed cb = true)
  | Wait => cb' = cb /\ availableWrite cb = 0 /\ written < size
  | Continue n =>
      n = written + Z.min (availableWrite cb) (size - written) /\
      written < n <= size /\
      availableRead cb' = availableRead cb + (n - written) /\
      contents cb' =
        contents cb ++ take (Z.to_nat (n - written)) (drop (Z.to_nat written) data)
  end.
Proof.
  intros Hwf Hw Hsz Hlen. unfold write_iter.
  destruct (availableRead_wf k cb Hwf) as [HaR HaRr].
  pose proof (availableWrite_wf k cb Hwf) as HaW.
  pose proof Hwf as [Hk Hs Hm Hl Hr Hwp].
  pose proof (pow2_pos k ltac:(lia)) as Hpos.
  pose proof (pow2_le_64 k Hk) as Hlt.
  destruct (written <? size) eqn:Hlt1; simpl.
  2:{ intros [= <- <-]. apply Z.ltb_ge in Hlt1.
      split; [assumption|]. split; [reflexivity|].
      split; [reflexivity|]. split; [reflexivity|]. left; lia. }
  apply Z.ltb_lt in Hlt1.
  destruct (closed cb) eqn:Hc; simpl.
  { intros [= <- <-]. split; [assumption|]. split; [exact Hc|].
    split; [reflexivity|]. split; [reflexivity|]. right; reflexivity. }
  destruct (availableWrite cb =? 0) eqn:Hz.
  { intros [= <- <-]. apply Z.eqb_eq in Hz. split; [assumption|].
    split; [exact Hc|]. split; [reflexivity|]. split; assumption. }
  apply Z.eqb_neq in Hz.
  rewrite (size_t_small (size - written)) by lia.
  set (n := Z.min (availableWrite cb) (size - written)).
  assert (Hn : 1 <= n <= size - written /\ n <= 2 ^ k - 1 - availableRead cb)
    by (unfold n; lia).
  rewrite (size_t_small (written + n)) by lia.
  intros [= <- <-].
  assert (HaR' : (Z.land (size_t (writePos cb + n)) (bufferMask cb) - readPos cb) mod 2 ^ k
                 = availableRead cb + n).
  { rewrite Hm, mask_size_t by exact Hk.
    rewrite Zminus_mod_idemp_l.
    replace (writePos cb + n - readPos cb) with (writePos cb - readPos cb + n) by lia.
    rewrite <- Zplus_mod_idemp_l, <- HaR. apply Z.mod_small. lia. }
  split; [|split; [reflexivity|split; [reflexivity|split; [lia|]]]].
  { constructor; simpl; try assumption.
    - rewrite for_loop_length. exact Hl.
    - rewrite Hm, mask_size_t by exact Hk. apply Z.mod_pos_bound. lia. }
  assert (HaRn : availableRead
     {| buffer := for_loop (Z.to_nat n)
           (fun i buf => aset buf (Z.land (size_t (writePos cb + i)) (bufferMask cb))
                              (aget data (size_t (written + i)))) (buffer cb);
        readPos := readPos cb;
        writePos := Z.land (size_t (writePos cb + n)) (bufferMask cb);
        bufferSize := bufferSize cb; bufferMask := bufferMask cb;
        closed := false |} = availableRead cb + n).
  { unfold availableRead at 1. simpl. rewrite Hm at 2.
    rewrite mask_size_t by exact Hk. exact HaR'. }
  split; [rewrite HaRn; lia|].
  unfold contents. rewrite HaRn. simpl.
  rewrite seqZ_app by lia. rewrite fmap_app. f_equal.
  - apply Forall_fmap_ext. apply Forall_seqZ. intros j Hj.
    apply for_loop_miss.
    + rewrite Hm, mask_size_t by exact Hk. apply Z.mod_pos_bound. lia.
    + intros i Hi. rewrite Hm, !mask_size_t by exact Hk. split.
      * apply Z.mod_pos_bound. lia.
      * intros Heq. rewrite <- (slot_write (2 ^ k) (readPos cb)) in Heq by lia.
        apply slot_inj in Heq; lia.
  - replace (written + n - written) with n by lia.
    rewrite <- slice_take_drop by lia.
    rewrite Z.add_0_l. rewrite <- (Z.add_0_r (availableRead cb)) at 1.
    rewrite <- fmap_add_seqZ, <- list_fmap_compose.
    apply Forall_fmap_ext. apply Forall_seqZ. intros i Hi. simpl.
    replace (Z.land (size_t (readPos cb + (availableRead cb + i))) (bufferMask cb))
      with (Z.land (size_t (writePos cb + i)) (bufferMask cb)).
    2:{ rewrite Hm, !mask_size_t by exact Hk. rewrite HaR.
        symmetry. apply slot_write. lia. }
    rewrite (for_loop_hit (Z.to_nat n)
               (fun i => Z.land (size_t (writePos cb + i)) (bufferMask cb))
               (fun i => aget data (size_t (written + i)))).
    + rewrite size_t_small by lia. reflexivity.
    + lia.
    + intros j Hj. rewrite Hm, mask_size_t by exact Hk. rewrite Hl.
      apply Z.mod_pos_bound. lia.
    + intros j Hj. rewrite Hm, !mask_size_t by exact Hk.
      intros Heq. apply slot_inj in Heq; lia.
Qed.

(** What one pass of the [read] loop does. *)
Lemma read_iter_spec k cb data size read cb' data' f :
  wf k cb ->
  0 <= read <= size -> size < 2 ^ 64 -> size <= Z.of_nat (length data) ->
  read_iter cb data size read = (cb', data', f) ->
  wf k cb' /\ closed cb' = closed cb /\ length data' = length data /\
  match f with
  | Return n =>
      cb' = cb /\ data' = data /\ n = read /\
      (n = size \/ (closed cb = true /\ availableRead cb = 0))
  | Wait =>
      cb' = cb /\ data' = data /\ availableRead cb = 0 /\
      closed cb = false /\ read < size
  | Continue n =>
      n = read + Z.min (availableRead cb) (size - read) /\
      read < n <= size /\
      availableRead cb' = availableRead cb - (n - read) /\
      take (Z.to_nat n) data' =
        take (Z.to_nat read) data ++ take (Z.to_nat (n - read)) (contents cb) /\
      contents cb' = drop (Z.to_nat (n - read)) (contents cb)
  end.
Proof.
  intros Hwf Hw Hsz Hlen. unfold read_iter.
  destruct (availableRead_wf k cb Hwf) as [HaR HaRr].
  pose proof Hwf as [Hk Hs Hm Hl Hr Hwp].
  pose proof (pow2_pos k ltac:(lia)) as Hpos.
  pose proof (pow2_le_64 k Hk) as Hlt.
  destruct (read <? size) eqn:Hlt1.
  2:{ intros [= <- <- <-]. apply Z.ltb_ge in Hlt1.
      repeat (split; [first [assumption|reflexivity]|]). left; lia. }
  apply Z.ltb_lt in Hlt1.
  destruct (availableRead cb =? 0) eqn:Hz.
  { apply Z.eqb_eq in Hz. destruct (closed cb) eqn:Hc; intros [= <- <- <-].
    - repeat (split; [first [assumption|reflexivity]|]). right; split; auto.
    - repeat (split; [first [assumption|reflexivity]|]). assumption. }
  apply Z.eqb_neq in Hz.
  rewrite (size_t_small (size - read)) by lia.
  set (n := Z.min (availableRead cb) (size - read)).
  assert (Hn : 1 <= n <= size - read /\ n <= availableRead cb)
    by (unfold n; lia).
  rewrite (size_t_small (read + n)) by lia.
  intros [= <- <- <-].
  set (src := fun i => aget (buffer cb)
                (Z.land (size_t (readPos cb + i)) (bufferMask cb))).
  rewrite (for_loop_ext (Z.to_nat n) _ (fun i d => aset d (read + i) (src i)))
    by (intros i x Hi; rewrite size_t_small by lia; reflexivity).
  assert (HaRn : availableRead
     {| buffer := buffer cb;
        readPos := Z.land (size_t (readPos cb + n)) (bufferMask cb);
        writePos := writePos cb;
        bufferSize := bufferSize cb; bufferMask := bufferMask cb;
        closed := closed cb |} = availableRead cb - n).
  { unfold availableRead at 1. simpl. rewrite Hm.
    rewrite !mask_size_t by exact Hk.
    rewrite Zminus_mod_idemp_r.
    replace (writePos cb - (readPos cb + n))
      with (writePos cb - readPos cb - n) by lia.
    rewrite <- Zminus_mod_idemp_l, <- HaR. apply Z.mod_small. lia. }
  split.
  { constructor; simpl; try assumption.
    rewrite Hm, mask_size_t by exact Hk. apply Z.mod_pos_bound. lia. }
  split; [reflexivity|]. split; [apply for_loop_fill_length|].
  split; [reflexivity|].
  split; [lia|]. split; [rewrite HaRn; lia|].
  replace (read + n - read) with n by lia.
  assert (Hc : contents cb = (src <$> seqZ 0 n)
                 ++ (src <$> seqZ n (availableRead cb - n))).
  { unfold contents. fold src.
    replace (availableRead cb) with (n + (availableRead cb - n)) at 1 by lia.
    rewrite seqZ_app by lia. rewrite fmap_app. reflexivity. }
  assert (Hln : length (src <$> seqZ 0 n) = Z.to_nat n)
    by (rewrite length_fmap, length_seqZ; reflexivity).
  split.
  - rewrite Hc. rewrite take_app_length' by (symmetry; exact Hln).
    pose proof (for_loop_fill (Z.to_nat n) read src data ltac:(lia) ltac:(lia))
      as Hfill.
    rewrite Z2Nat.id in Hfill by lia. exact Hfill.
  - rewrite Hc. rewrite drop_app_length' by (symmetry; exact Hln).
    unfold contents. rewrite HaRn. simpl.
    replace (seqZ n (availableRead cb - n))
      with (Z.add n <$> seqZ 0 (availableRead cb - n))
      by (rewrite fmap_add_seqZ; f_equal; lia).
    rewrite <- list_fmap_compose.
    apply Forall_fmap_ext. apply Forall_seqZ. intros j Hj. simpl.
    unfold src. f_equal. rewrite Hm, !mask_size_t by exact Hk.
    rewrite Zplus_mod_idemp_l. f_equal. lia.
Qed.

Lemma call_ok_mono cb cb' l :
  (closed cb = true -> closed cb' = true) ->
  Forall (call_ok cb) l -> Forall (call_ok cb') l.
Proof.
  intros Hc Hl. eapply Forall_impl; [exact Hl|].
  intros c (H1 & H2 & [H3|H3]).
  - split; [exact H1|]. split; [exact H2|]. left; exact H3.
  - split; [exact H1|]. split; [exact H2|]. right; auto.
Qed.

Lemma concat_transferred_snoc l c :
  concat (transferred <$> l ++ [c]) = concat (transferred <$> l) ++ transferred c.
Proof. rewrite fmap_app, concat_app. simpl. rewrite app_nil_r. reflexivity. Qed.

(** The invariant across any transition of the writer thread. *)
Lemma writer_flow_inv k s cb d sz f w :
  Inv k s ->
  in_flight (writer s) = take (Z.to_nat w) d ->
  0 <= w <= sz -> sz < 2 ^ 64 -> sz <= Z.of_nat (length d) ->
  wf k cb -> closed cb = closed (chan s) ->
  match f with
  | Return n => cb = chan s /\ n = w /\ (n = sz \/ closed (chan s) = true)
  | Wait => cb = chan s
  | Continue n =>
      w <= n <= sz /\
      contents cb = contents (chan s)
                    ++ take (Z.to_nat (n - w)) (drop (Z.to_nat w) d)
  end ->
  Inv k (writer_flow s cb d sz f w).
Proof.
  intros [Hwf Hwt Hrd Hws Hrs Hfifo] Hfl Hw Hsz Hlen Hwf' Hcl Hf.
  unfold written_samples, read_samples in Hfifo. rewrite Hfl in Hfifo.
  destruct f as [n| |n]; simpl in *.
  - destruct Hf as (-> & -> & Hret).
    constructor; simpl; try assumption; try exact I.
    + apply Forall_app_2; [assumption|]. apply Forall_singleton.
      split; [simpl; lia|]. split; simpl; assumption.
    + unfold written_samples, read_samples. simpl.
      rewrite concat_transferred_snoc, app_nil_r. exact Hfifo.
  - subst cb. constructor; simpl; try assumption; try exact I.
    repeat split; lia.
  - destruct Hf as (Hn & Hc).
    assert (Hmono : closed (chan s) = true -> closed cb = true) by congruence.
    constructor; simpl; try assumption; try exact I.
    + repeat split; lia.
    + eapply call_ok_mono; eassumption.
    + eapply call_ok_mono; eassumption.
    + unfold written_samples, read_samples. simpl. rewrite Hc.
      rewrite app_assoc, <- Hfifo, <- app_assoc. f_equal.
      replace (Z.to_nat n) with (Z.to_nat w + Z.to_nat (n - w))%nat by lia.
      symmetry. apply take_take_drop.
Qed.

(** The invariant across any transition of the reader thread. *)
Lemma reader_flow_inv k s cb d d' sz f n :
  Inv k s ->
  in_flight (reader s) = take (Z.to_nat n) d ->
  0 <= n <= sz -> sz < 2 ^ 64 -> sz <= Z.of_nat (length d) ->
  wf k cb -> closed cb = closed (chan s) -> length d' = length d ->
  match f with
  | Return n' =>
      cb = chan s /\ d' = d /\ n' = n /\ (n' = sz \/ closed (chan s) = true)
  | Wait => cb = chan s /\ d' = d
  | Continue n' =>
      n <= n' <= sz /\
      take (Z.to_nat n') d' =
        take (Z.to_nat n) d ++ take (Z.to_nat (n' - n)) (contents (chan s)) /\
      contents cb = drop (Z.to_nat (n' - n)) (contents (chan s))
  end ->
  Inv k (reader_flow s cb d' sz f n).
Proof.
  intros [Hwf Hwt Hrd Hws Hrs Hfifo] Hfl Hn Hsz Hlen Hwf' Hcl Hlen' Hf.
  unfold written_samples, read_samples in Hfifo. rewrite Hfl in Hfifo.
  destruct f as [n'| |n']; simpl in *.
  - destruct Hf as (-> & -> & -> & Hret).
    constructor; simpl; try assumption; try exact I.
    + apply Forall_app_2; [assumption|]. apply Forall_singleton.
      split; [simpl; lia|]. split; simpl; assumption.
    + unfold written_samples, read_samples. simpl.
      rewrite concat_transferred_snoc, app_nil_r. exact Hfifo.
  - destruct Hf as (-> & ->). constructor; simpl; try assumption; try exact I.
    repeat split; lia.
  - destruct Hf as (Hn' & Ht & Hc).
    assert (Hmono : closed (chan s) = true -> closed cb = true) by congruence.
    constructor; simpl; try assumption; try exact I.
    + repeat split; lia.
    + eapply call_ok_mono; eassumption.
    + eapply call_ok_mono; eassumption.
    + unfold written_samples, read_samples. simpl. rewrite Hc, Ht, Hfifo.
      rewrite <- !app_assoc. f_equal. f_equal.
      symmetry. apply take_drop.
Qed.

Lemma valid_call_spec data size :
  valid_call data size = true ->
  0 <= size /\ size < 2 ^ 64 /\ size <= Z.of_nat (length data).
Proof.
  unfold valid_call. rewrite !andb_true_iff.
  intros [[H1 H2] H3].
  apply Z.leb_le in H1. apply Z.ltb_lt in H2. apply Z.leb_le in H3. auto.
Qed.

Lemma boot_inv k cb :
  wf k cb -> readPos cb = writePos cb -> Inv k (boot cb).
Proof.
  intros Hwf Heq.
  assert (Hz : availableRead cb = 0).
  { destruct (availableRead_wf k cb Hwf) as [-> _].
    rewrite Heq, Z.sub_diag. apply Z.mod_0_l.
    pose proof (pow2_pos k). destruct Hwf. lia. }
  constructor; simpl; try assumption; try exact I; try constructor.
  unfold written_samples, read_samples, contents. simpl.
  rewrite Hz. reflexivity.
Qed.

(** Every enabled event keeps the invariant. *)
Lemma step_inv k e s s' : Inv k s -> step e s = Some s' -> Inv k s'.
Proof.
  intros HI. pose proof HI as [Hwf Hwt Hrd Hws Hrs Hfifo].
  destruct e as [data size|data size| | |]; simpl.
  - (* a call of write *)
    destruct (writer s) eqn:Hth; try discriminate.
    destruct (valid_call data size) eqn:Hv; simpl; [|discriminate].
    apply valid_call_spec in Hv. destruct Hv as (H0 & H1 & H2).
    destruct (closed (chan s)) eqn:Hc.
    + intros [= <-]. constructor; simpl; try assumption.
      * apply Forall_app_2; [assumption|]. apply Forall_singleton.
        split; [simpl; lia|]. split; simpl; [assumption|right; exact Hc].
      * unfold written_samples, read_samples in *. simpl.
        rewrite Hth in Hfifo. simpl in Hfifo.
        rewrite concat_transferred_snoc. unfold transferred at 2. simpl.
        rewrite !app_nil_r in *. exact Hfifo.
    + destruct (free (mutex s)); [|discriminate]. intros [= <-].
      apply (writer_flow_inv k s (chan s) data size (Continue 0) 0);
        try assumption; try lia.
      * rewrite Hth. reflexivity.
      * reflexivity.
      * split; [lia|]. simpl. rewrite app_nil_r. reflexivity.
  - (* a call of read *)
    destruct (reader s) eqn:Hth; try discriminate.
    destruct (valid_call data size) eqn:Hv; simpl; [|discriminate].
    apply valid_call_spec in Hv. destruct Hv as (H0 & H1 & H2).
    destruct (free (mutex s)); [|discriminate]. intros [= <-].
    apply (reader_flow_inv k s (chan s) data data size (Continue 0) 0);
      try assumption; try lia; try reflexivity.
    + rewrite Hth. reflexivity.
    + split; [lia|]. simpl. split; reflexivity.
  - (* the writer thread runs *)
    destruct (writer s) as [|d sz w|d sz w] eqn:Hth; try discriminate;
      simpl in Hwt; destruct Hwt as (Hw & Hsz & Hlen).
    + destruct (write_iter (chan s) d sz w) as [cb f] eqn:Hit.
      intros [= <-].
      destruct (write_iter_spec k _ _ _ _ _ _ Hwf Hw Hsz Hlen Hit)
        as (Hwf' & Hcl & Hf).
      apply (writer_flow_inv k s cb d sz f w); try assumption.
      * rewrite Hth. reflexivity.
      * destruct f as [n| |n].
        -- destruct Hf as (-> & -> & Hr). auto.
        -- destruct Hf as (-> & _). reflexivity.
        -- destruct Hf as (_ & Hn & _ & Hc). split; [lia|exact Hc].
    + destruct (free (mutex s)); [|discriminate]. intros [= <-].
      apply (writer_flow_inv k s (chan s) d sz _ w);
        try assumption; try reflexivity.
      * rewrite Hth. reflexivity.
      * unfold write_wake. destruct (closed (chan s)) eqn:Hc; simpl.
        -- auto.
        -- split; [lia|]. rewrite Z.sub_diag. simpl.
           rewrite app_nil_r. reflexivity.
  - (* the reader thread runs *)
    destruct (reader s) as [|d sz n|d sz n] eqn:Hth; try discriminate;
      simpl in Hrd; destruct Hrd as (Hn & Hsz & Hlen).
    + destruct (read_iter (chan s) d sz n) as [[cb d'] f] eqn:Hit.
      intros [= <-].
      destruct (read_iter_spec k _ _ _ _ _ _ _ Hwf Hn Hsz Hlen Hit)
        as (Hwf' & Hcl & Hlen' & Hf).
      apply (reader_flow_inv k s cb d d' sz f n); try assumption.
      * rewrite Hth. reflexivity.
      * destruct f as [n'| |n'].
        -- destruct Hf as (-> & -> & -> & Hr). repeat split; try reflexivity.
           destruct Hr as [Hr|[Hr _]]; auto.
        -- destruct Hf as (-> & -> & _). split; reflexivity.
        -- destruct Hf as (_ & Hn' & _ & Ht & Hc).
           split; [lia|]. split; assumption.
    + destruct (free (mutex s)); [|discriminate]. intros [= <-].
      apply (reader_flow_inv k s (chan s) d d sz _ n);
        try assumption; try reflexivity.
      * rewrite Hth. reflexivity.
      * unfold read_wake. destruct (closed (chan s)) eqn:Hc; simpl.
        -- auto.
        -- split; [lia|]. rewrite Z.sub_diag. simpl.
           rewrite app_nil_r. split; reflexivity.
  - (* close *)
    destruct (free (mutex s)); [|discriminate]. intros [= <-].
    constructor; simpl; try assumption.
    + apply close_wf. exact Hwf.
    + eapply call_ok_mono; [|eassumption]. reflexivity.
    + eapply call_ok_mono; [|eassumption]. reflexivity.
Qed.

Lemma run_inv k evs s s' : Inv k s -> run evs s = Some s' -> Inv k s'.
Proof.
  revert s. induction evs as [|e evs IH]; intros s HI; simpl.
  - intros [= <-]. exact HI.
  - destruct (step e s) as [s1|] eqn:Hs; [|discriminate].
    apply IH. eapply step_inv; eassumption.
Qed.

(** A [write] run on its own on an open channel transfers what fits: it
    returns when everything fitted and blocks in [wait_for] otherwise. *)
Lemma write_alone k cb data size fuel cb' o :
  wf k cb -> closed cb = false ->
  0 <= size < 2 ^ 64 -> size <= Z.of_nat (length data) -> (2 <= fuel)%nat ->
  write fuel cb data size = (cb', o) ->
  wf k cb' /\
  o = (if size <=? availableWrite cb then Returned size
       else Blocked (availableWrite cb)) /\
  contents cb' =
    contents cb ++ take (Z.to_nat (Z.min size (availableWrite cb))) data.
Proof.
  intros Hwf Hc Hsz Hlen Hfuel. unfold write. rewrite Hc.
  destruct fuel as [|[|fuel]]; try lia. cbn [write_loop].
  destruct (availableRead_wf k cb Hwf) as [_ HaRr].
  pose proof (availableWrite_wf k cb Hwf) as HaW.
  destruct (write_iter cb data size 0) as [cb1 f1] eqn:H1.
  destruct (write_iter_spec k cb data size 0 cb1 f1 Hwf
              ltac:(lia) ltac:(lia) Hlen H1) as (Hwf1 & Hc1 & Hf1).
  destruct f1 as [n| |n1].
  - destruct Hf1 as (-> & -> & [Hz|Hz]); [|congruence].
    intros [= <- <-]. split; [assumption|]. subst size.
    destruct (Z.leb_spec 0 (availableWrite cb)); [|lia].
    split; [reflexivity|]. rewrite Z.min_l by lia. simpl.
    rewrite app_nil_r. reflexivity.
  - destruct Hf1 as (-> & Hz & Hlt). intros [= <- <-].
    split; [assumption|]. rewrite Hz.
    destruct (Z.leb_spec size 0); [lia|]. split; [reflexivity|].
    rewrite Z.min_r by lia. simpl. rewrite app_nil_r. reflexivity.
  - destruct Hf1 as (Hn1 & Hr1 & HaR1 & Hct1).
    rewrite Z.add_0_l in Hn1. rewrite Z.sub_0_r in HaR1, Hct1.
    simpl in Hct1.
    pose proof (availableWrite_wf k cb1 Hwf1) as HaW1.
    destruct (write_iter cb1 data size n1) as [cb2 f2] eqn:H2.
    destruct (write_iter_spec k cb1 data size n1 cb2 f2 Hwf1
                ltac:(lia) ltac:(lia) Hlen H2) as (Hwf2 & Hc2 & Hf2).
    destruct f2 as [n| |n2].
    + destruct Hf2 as (-> & -> & [Hz|Hz]); [|congruence].
      intros [= <- <-]. split; [assumption|].
      destruct (Z.leb_spec size (availableWrite cb)); [|lia].
      split; [congruence|]. rewrite Hct1. do 3 f_equal. lia.
    + destruct Hf2 as (-> & Hz & Hlt). intros [= <- <-].
      split; [assumption|].
      destruct (Z.leb_spec size (availableWrite cb)); [lia|].
      split; [f_equal; lia|]. rewrite Hct1. do 3 f_equal. lia.
    + destruct Hf2 as (Hn2 & Hr2 & _). lia.
Qed.

(** A [read] run on its own on a closed channel never blocks: it hands out
    what is buffered, up to the count asked for, and returns. *)
Lemma read_closed k cb data size fuel cb' data' o :
  wf k cb -> closed cb = true ->
  0 <= size < 2 ^ 64 -> size <= Z.of_nat (length data) -> (2 <= fuel)%nat ->
  read fuel cb data size = (cb', data', o) ->
  wf k cb' /\ closed cb' = true /\
  o = Returned (Z.min (availableRead cb) size) /\
  availableRead cb' = availableRead cb - Z.min (availableRead cb) size /\
  take (Z.to_nat (Z.min (availableRead cb) size)) data' =
    take (Z.to_nat (Z.min (availableRead cb) size)) (contents cb) /\
  contents cb' = drop (Z.to_nat (Z.min (availableRead cb) size)) (contents cb).
Proof.
  intros Hwf Hc Hsz Hlen Hfuel. unfold read.
  destruct fuel as [|[|fuel]]; try lia. cbn [read_loop].
  destruct (availableRead_wf k cb Hwf) as [_ HaRr].
  destruct (read_iter cb data size 0) as [[cb1 d1] f1] eqn:H1.
  destruct (read_iter_spec k cb data size 0 cb1 d1 f1 Hwf
              ltac:(lia) ltac:(lia) Hlen H1) as (Hwf1 & Hc1 & Hl1 & Hf1).
  destruct f1 as [n| |n1].
  - destruct Hf1 as (-> & -> & -> & Hz). intros [= <- <- <-].
    assert (Hmin : Z.min (availableRead cb) size = 0) by lia.
    rewrite Hmin. simpl. rewrite Z.sub_0_r. auto 10.
  - destruct Hf1 as (_ & _ & _ & Hopen & _). congruence.
  - destruct Hf1 as (Hn1 & Hr1 & HaR1 & Ht1 & Hct1).
    rewrite Z.add_0_l in Hn1. rewrite Z.sub_0_r in Hn1, HaR1, Ht1, Hct1.
    simpl in Ht1.
    destruct (read_iter cb1 d1 size n1) as [[cb2 d2] f2] eqn:H2.
    destruct (read_iter_spec k cb1 d1 size n1 cb2 d2 f2 Hwf1
                ltac:(lia) ltac:(lia) ltac:(lia) H2)
      as (Hwf2 & Hc2 & Hl2 & Hf2).
    destruct f2 as [n| |n2].
    + destruct Hf2 as (-> & -> & -> & _). intros [= <- <- <-].
      rewrite <- Hn1. split; [assumption|]. split; [congruence|].
      split; [reflexivity|]. auto.
    + destruct Hf2 as (_ & _ & _ & Hopen & _). congruence.
    + destruct Hf2 as (Hn2 & Hr2 & _). lia.
Qed.

Lemma step_closed e s s' :
  step e s = Some s' -> closed (chan s) = true -> closed (chan s') = true.
Proof.
  intros Hs Hc. revert Hs.
  destruct e as [data size|data size| | |]; simpl.
  - destruct (writer s); try discriminate.
    destruct (valid_call data size); [|discriminate]. simpl.
    rewrite Hc. intros [= <-]. exact Hc.
  - destruct (reader s); try discriminate.
    destruct (valid_call data size); [|discriminate]. simpl.
    destruct (free (mutex s)); [|discriminate]. intros [= <-]. exact Hc.
  - destruct (writer s) as [|d sz w|d sz w]; try discriminate.
    + unfold write_iter. rewrite Hc, andb_false_r.
      intros [= <-]. exact Hc.
    + destruct (free (mutex s)); [|discriminate]. intros [= <-].
      unfold write_wake. rewrite Hc. exact Hc.
  - destruct (reader s) as [|d sz n|d sz n]; try discriminate.
    + unfold read_iter. rewrite Hc. destruct (n <? sz).
      * destruct (availableRead (chan s) =? 0); intros [= <-];
          first [exact Hc|reflexivity].
      * intros [= <-]. exact Hc.
    + destruct (free (mutex s)); [|discriminate]. intros [= <-].
      unfold read_wake. rewrite Hc. exact Hc.
  - destruct (free (mutex s)); [|discriminate]. intros [= <-]. reflexivity.
Qed.

Lemma run_closed evs s s' :
  run evs s = Some s' -> closed (chan s) = true -> closed (chan s') = true.
Proof.
  revert s. induction evs as [|e evs IH]; intros s; simpl.
  - intros [= <-]. auto.
  - destruct (step e s) as [s1|] eqn:Hs; [|discriminate].
    intros Hr Hc. apply (IH s1 Hr). eapply step_closed; eassumption.
Qed.

Lemma read_loop_length k fuel cb data size n cb' data' o :
  wf k cb ->
  0 <= n <= size -> size < 2 ^ 64 -> size <= Z.of_nat (length data) ->
  read_loop fuel cb data size n = (cb', data', o) ->
  length data' = length data.
Proof.
  revert cb data n.
  induction fuel as [|fuel IH]; intros cb data n Hwf Hn Hsz Hlen; simpl.
  - intros [= <- <- <-]. reflexivity.
  - destruct (read_iter cb data size n) as [[cb1 d1] f1] eqn:H1.
    destruct (read_iter_spec k cb data size n cb1 d1 f1 Hwf Hn Hsz Hlen H1)
      as (Hwf1 & _ & Hl1 & Hf1).
    destruct f1 as [m| |m].
    + intros [= <- <- <-]. exact Hl1.
    + intros [= <- <- <-]. exact Hl1.
    + intros Hr. destruct Hf1 as (_ & Hm & _).
      rewrite <- Hl1. apply (IH cb1 d1 m); try assumption; lia.
Qed.

Lemma read_length k fuel cb data size cb' data' o :
  wf k cb ->
  0 <= size < 2 ^ 64 -> size <= Z.of_nat (length data) ->
  read fuel cb data size = (cb', data', o) ->
  length data' = length data.
Proof.
  intros Hwf Hsz Hlen. unfold read.
  apply (read_loop_length k); try assumption; lia.
Qed.

(** *** The constructor *)

Lemma land_pred_pow2 n :
  0 < n -> Z.land n (n - 1) = 0 -> n = 2 ^ Z.log2 n.
Proof.
  intros Hn Hl. destruct (Z.log2_spec n Hn) as [Hlo Hhi].
  destruct (Z.eq_dec n (2 ^ Z.log2 n)) as [|Hne]; [assumption|exfalso].
  pose proof (Z.log2_nonneg n) as Hk.
  assert (Hl2 : Z.log2 (n - 1) = Z.log2 n)
    by (apply Z.log2_unique; lia).
  pose proof (Z.bit_log2 n Hn) as Hb1.
  pose proof (Z.bit_log2 (n - 1) ltac:(pose proof (pow2_pos _ Hk); lia)) as Hb2.
  rewrite Hl2 in Hb2.
  pose proof (Z.land_spec n (n - 1) (Z.log2 n)) as Hs.
  rewrite Hl, Hb1, Hb2, Z.bits_0 in Hs. discriminate.
Qed.

(** Every non-zero size that passes the test of the constructor is a power
    of two. *)
Lemma constructor_rejects n :
  0 < n < 2 ^ 64 -> ~ power_of_two n ->
  CircularBuffer n = inl (invalid_argument "Buffer size must be a power of 2").
Proof.
  intros Hn Hnp. unfold CircularBuffer.
  rewrite (size_t_small (n - 1)) by lia.
  destruct (Z.land n (n - 1) =? 0) eqn:Hz; [|reflexivity].
  apply Z.eqb_eq in Hz. exfalso. apply Hnp.
  exists (Z.log2 n). split; [apply Z.log2_nonneg|].
  apply land_pred_pow2; [lia|assumption].
Qed.

Lemma constructor_inv k cb :
  0 <= k < 64 -> CircularBuffer (2 ^ k) = inr cb -> Inv k (boot cb).
Proof.
  intros Hk Hcb. destruct (Z.lt_ge_cases k 62) as [Hlt|Hge];
    [|rewrite constructor_throws in Hcb by lia; discriminate].
  destruct (constructor_pow2 k ltac:(lia)) as (cb0 & H0 & Hwf & Hr & Hw & _).
  rewrite H0 in Hcb. injection Hcb as <-.
  apply boot_inv; [assumption|congruence].
Qed.


(** *** FIFO round trip *)

Lemma step_mutex_ok e s s' : mutex_ok s -> step e s = Some s' -> mutex_ok s'.
Proof.
  unfold mutex_ok. destruct s as [ch mu wr rd ws rs]. simpl.
  intros [Hm Hx].
  destruct e as [data size|data size| | |]; simpl.
  - destruct wr; try discriminate.
    destruct (valid_call data size); simpl; [|discriminate].
    simpl in Hm. destruct (at_head rd) eqn:Hrh.
    + subst mu. destruct (closed ch); [|discriminate].
      intros [= <-]. simpl. rewrite Hrh. auto.
    + subst mu. destruct (closed ch); intros [= <-]; simpl; rewrite ?Hrh; auto.
  - destruct rd; try discriminate.
    destruct (valid_call data size); simpl; [|discriminate].
    destruct (at_head wr) eqn:Hwh; subst mu; simpl; [discriminate|].
    intros [= <-]. simpl. rewrite Hwh. auto.
  - destruct wr as [|data size w|data size w]; [discriminate| |].
    + simpl in Hx. destruct (write_iter ch data size w) as [cb f].
      intros [= <-]. destruct f; simpl; rewrite ?Hx; auto.
    + simpl in Hm, Hx. destruct (at_head rd) eqn:Hrh; subst mu; simpl;
        [discriminate|].
      intros [= <-]. unfold write_wake.
      destruct (closed ch); simpl; rewrite ?Hrh; auto.
  - destruct rd as [|data size n|data size n]; [discriminate| |].
    + rewrite andb_true_r in Hx.
      destruct (read_iter ch data size n) as [[cb d'] f].
      intros [= <-]. destruct f; simpl; rewrite ?Hx; auto.
    + destruct (at_head wr) eqn:Hwh; simpl in Hm; subst mu; simpl;
        [discriminate|].
      intros [= <-]. unfold read_wake.
      destruct (closed ch); simpl; rewrite ?Hwh; auto.
  - destruct (at_head wr) eqn:Hwh; [subst mu; simpl; discriminate|].
    destruct (at_head rd) eqn:Hrh; subst mu; simpl; [discriminate|].
    intros [= <-]. simpl. rewrite Hwh, Hrh. auto.
Qed.

Lemma run_mutex_ok evs s s' : mutex_ok s -> run evs s = Some s' -> mutex_ok s'.
Proof.
  revert s. induction evs as [|e evs IH]; intros s Hs; simpl.
  - intros [= <-]. exact Hs.
  - destruct (step e s) as [s1|] eqn:He; [|discriminate].
    apply IH. exact (step_mutex_ok e s s1 Hs He).
Qed.

Lemma boot_mutex_ok cb : mutex_ok (boot cb).
Proof. split; reflexivity. Qed.

Lemma run_app evs1 evs2 s s1 :
  run evs1 s = Some s1 -> run (evs1 ++ evs2) s = run evs2 s1.
Proof.
  revert s. induction evs1 as [|e evs1 IH]; intros s; simpl.
  - intros [= <-]. reflexivity.
  - destruct (step e s); [apply IH|discriminate].
Qed.

(** From a state in which no call is in progress, on the open channel: a
    [write] that fits and a [read] of everything buffered each return
    after two passes of their loops, with the whole count. *)
Lemma quiescent_round k s data n buf :
  Inv k s -> mutex_ok s ->
  closed (chan s) = false -> writer s = Idle -> reader s = Idle ->
  0 < n <= availableWrite (chan s) -> n <= Z.of_nat (length data) ->
  availableRead (chan s) + n <= Z.of_nat (length buf) ->
  exists s' buf',
    run [CallWrite data n; StepWriter; StepWriter;
         CallRead buf (availableRead (chan s) + n); StepReader; StepReader] s
    = Some s' /\
    writes s' = writes s ++ [mkcall data n n] /\
    reads s'
    = reads s ++ [mkcall buf' (availableRead (chan s) + n)
                         (availableRead (chan s) + n)] /\
    take (Z.to_nat (availableRead (chan s) + n)) buf'
    = contents (chan s) ++ take (Z.to_nat n) data /\
    closed (chan s') = false /\ writer s' = Idle /\ reader s' = Idle /\
    availableRead (chan s') = 0.
Proof.
  intros [Hwf _ _ _ _ _] [Hmu _] Hc Hw Hr Hn Hld Hlb.
  destruct s as [ch mu wr rd ws rs]. simpl in *. subst wr rd. simpl in Hmu.
  subst mu.
  destruct (availableRead_wf k ch Hwf) as [_ HaRr].
  pose proof (availableWrite_wf k ch Hwf) as HaW.
  pose proof Hwf as [Hk _ _ _ _ _].
  pose proof (pow2_le_64 k Hk) as Hlt.
  set (m := availableRead ch + n) in *.
  assert (Hv1 : valid_call data n = true).
  { unfold valid_call. apply andb_true_iff. split; [apply andb_true_iff; split|];
      [apply Z.leb_le|apply Z.ltb_lt|apply Z.leb_le]; lia. }
  assert (Hv2 : valid_call buf m = true).
  { unfold valid_call. apply andb_true_iff. split; [apply andb_true_iff; split|];
      [apply Z.leb_le|apply Z.ltb_lt|apply Z.leb_le]; lia. }
  (* the two passes of the writer *)
  destruct (write_iter ch data n 0) as [cb1 f1] eqn:H1.
  destruct (write_iter_spec k ch data n 0 cb1 f1 Hwf ltac:(lia) ltac:(lia)
              Hld H1) as (Hwf1 & Hc1 & Hf1).
  destruct f1 as [r| |n1];
    [destruct Hf1 as (_ & -> & [?|?]); [lia|congruence]
    |destruct Hf1 as (_ & ? & _); lia|].
  destruct Hf1 as (Hn1 & _ & HaR1 & Hct1).
  assert (Hn1e : n1 = n) by lia. clear Hn1. subst n1.
  rewrite Z.sub_0_r in HaR1, Hct1. simpl in Hct1.
  destruct (write_iter cb1 data n n) as [cb1' f2] eqn:H2.
  destruct (write_iter_spec k cb1 data n n cb1' f2 Hwf1 ltac:(lia) ltac:(lia)
              Hld H2) as (_ & _ & Hf2).
  destruct f2 as [r| |n2];
    [|destruct Hf2 as (_ & _ & ?); lia|destruct Hf2 as (_ & ? & _); lia].
  destruct Hf2 as (-> & -> & _).
  (* the two passes of the reader *)
  destruct (read_iter cb1 buf m 0) as [[cb2 d2] f3] eqn:H3.
  destruct (read_iter_spec k cb1 buf m 0 cb2 d2 f3 Hwf1 ltac:(lia) ltac:(lia)
              Hlb H3) as (Hwf2 & Hc2 & Hl2 & Hf3).
  destruct f3 as [r| |n3];
    [destruct Hf3 as (_ & _ & -> & [?|[? _]]); [lia|congruence]
    |destruct Hf3 as (_ & _ & ? & _); lia|].
  destruct Hf3 as (Hn3 & _ & HaR3 & Ht3 & Hct3).
  assert (Hn3e : n3 = m) by lia. clear Hn3. subst n3.
  rewrite Z.sub_0_r in HaR3, Ht3, Hct3. simpl in Ht3.
  destruct (read_iter cb2 d2 m m) as [[cb2' d3] f4] eqn:H4.
  destruct (read_iter_spec k cb2 d2 m m cb2' d3 f4 Hwf2 ltac:(lia) ltac:(lia)
              ltac:(lia) H4) as (_ & _ & _ & Hf4).
  destruct f4 as [r| |n4];
    [|destruct Hf4 as (_ & _ & _ & _ & ?); lia|destruct Hf4 as (_ & ? & _); lia].
  destruct Hf4 as (-> & -> & -> & _).
  exists {| chan := cb2; mutex := None; writer := Idle; reader := Idle;
            writes := ws ++ [mkcall data n n];
            reads := rs ++ [mkcall d2 m m] |}, d2.
  split.
  { cbn [run step writer reader chan mutex writes reads].
    rewrite Hv1. cbn [negb]. rewrite Hc. cbn [free writer_flow].
    cbn [run step writer reader chan mutex writes reads].
    rewrite H1. cbn [writer_flow].
    cbn [run step writer reader chan mutex writes reads].
    rewrite H2. cbn [writer_flow].
    cbn [run step writer reader chan mutex writes reads].
    rewrite Hv2. cbn [negb free reader_flow].
    cbn [run step writer reader chan mutex writes reads].
    rewrite H3. cbn [reader_flow].
    cbn [run step writer reader chan mutex writes reads].
    rewrite H4. cbn [reader_flow]. reflexivity. }
  cbn [writes reads chan writer reader].
  split; [reflexivity|]. split; [reflexivity|].
  split.
  { rewrite Ht3, Hct1.
    rewrite take_ge; [reflexivity|].
    rewrite length_app, length_take.
    pose proof (contents_length k ch Hwf). unfold m. lia. }
  split; [congruence|]. split; [reflexivity|]. split; [reflexivity|].
  unfold m in *. lia.
Qed.
(** The samples accepted are the samples handed out followed by the
    samples buffered, in every state reached. *)
Lemma fifo_invariant k cb evs s :
  0 <= k < 64 ->
  CircularBuffer (2 ^ k) = inr cb ->
  run evs (boot cb) = Some s ->
  written_samples s = read_samples s ++ contents (chan s) /\
  (closed (chan s) = false -> writer s = Idle -> reader s = Idle ->
   availableRead (chan s) = 0 ->
   returned_by_read s = passed_to_write s).
Proof.
  intros Hk Hcb Hrun.
  pose proof (run_inv k evs _ _ (constructor_inv k cb Hk Hcb) Hrun)
    as [Hwf Hwt Hrd Hws Hrs Hfifo].
  split; [exact Hfifo|].
  intros Hopen Hw Hr Hz.
  unfold written_samples, read_samples, contents in Hfifo.
  rewrite Hw, Hr, Hz in Hfifo. simpl in Hfifo. rewrite !app_nil_r in Hfifo.
  unfold returned_by_read, passed_to_write. rewrite <- Hfifo.
  f_equal. apply Forall_fmap_ext.
  eapply Forall_impl; [exact Hws|].
  intros c (_ & _ & [Hret|Hcl]); [|congruence].
  unfold transferred. rewrite Hret. reflexivity.
Qed.


(** C1.  On a channel of capacity [2^k], whatever the interleaving of the
    calls of [write] and [read] and of the passes of their loops, the
    samples accepted by [write] are the samples handed out by [read]
    followed by the samples still buffered, in the same order.  (The
    buffered samples never exceed the capacity: [write] waits when the
    channel is full.)  Hence, once every call has returned on an open
    channel and the buffer is drained, the concatenation of what [read]
    returned is the concatenation of what was passed to [write].  And the
    calls do return: from every such state with no call in progress, a
    [write] that fits the free space returns its whole count after two
    passes of its loop, a [read] of everything buffered then returns the
    buffered samples followed by the samples just written, and the state
    reached is drained again, with all that was passed to [write]
    returned by [read]. *)
Theorem fifo_round_trip k cb evs s :
  0 <= k < 64 ->
  CircularBuffer (2 ^ k) = inr cb ->
  run evs (boot cb) = Some s ->
  written_samples s = read_samples s ++ contents (chan s) /\
  (closed (chan s) = false -> writer s = Idle -> reader s = Idle ->
   availableRead (chan s) = 0 ->
   returned_by_read s = passed_to_write s) /\
  (closed (chan s) = false -> writer s = Idle -> reader s = Idle ->
   forall data n buf,
     0 < n <= availableWrite (chan s) -> n <= Z.of_nat (length data) ->
     availableRead (chan s) + n <= Z.of_nat (length buf) ->
     exists s' buf',
       run [CallWrite data n; StepWriter; StepWriter;
            CallRead buf (availableRead (chan s) + n);
            StepReader; StepReader] s
       = Some s' /\
       writes s' = writes s ++ [mkcall data n n] /\
       reads s'
       = reads s ++ [mkcall buf' (availableRead (chan s) + n)
                            (availableRead (chan s) + n)] /\
       take (Z.to_nat (availableRead (chan s) + n)) buf'
       = contents (chan s) ++ take (Z.to_nat n) data /\
       closed (chan s') = false /\ writer s' = Idle /\ reader s' = Idle /\
       availableRead (chan s') = 0 /\
       returned_by_read s' = passed_to_write s').
Proof.
  intros Hk Hcb Hrun.
  destruct (fifo_invariant k cb evs s Hk Hcb Hrun) as [Hfifo Hdrained].
  split; [exact Hfifo|]. split; [exact Hdrained|].
  intros Hopen Hw Hr data n buf Hn Hld Hlb.
  pose proof (run_inv k evs _ _ (constructor_inv k cb Hk Hcb) Hrun) as Hinv.
  pose proof (run_mutex_ok evs _ _ (boot_mutex_ok cb) Hrun) as Hmu.
  destruct (quiescent_round k s data n buf Hinv Hmu Hopen Hw Hr Hn Hld Hlb)
    as (s' & buf' & Hrun' & Hws & Hrs & Ht & Hc' & Hw' & Hr' & Hz').
  exists s', buf'. repeat (split; [assumption|]).
  assert (Hall : run (evs ++ [CallWrite data n; StepWriter; StepWriter;
                              CallRead buf (availableRead (chan s) + n);
                              StepReader; StepReader]) (boot cb) = Some s')
    by (rewrite (run_app evs _ _ s Hrun); exact Hrun').
  destruct (fifo_invariant k cb _ s' Hk Hcb Hall) as [_ Hd'].
  apply Hd'; assumption.
Qed.

Lemma fifo_round_trip_witness :
  written_samples Demo.final8
  = read_samples Demo.final8 ++ contents (chan Demo.final8) /\
  returned_by_read Demo.final8 = passed_to_write Demo.final8 /\
  exists s' buf',
    run [CallWrite [1; 2; 3] 3; StepWriter; StepWriter;
         CallRead (replicate 3 0) (availableRead (chan Demo.final8) + 3);
         StepReader; StepReader] Demo.final8
    = Some s' /\
    writes s' = writes Demo.final8 ++ [mkcall [1; 2; 3] 3 3] /\
    reads s'
    = reads Demo.final8
      ++ [mkcall buf' (availableRead (chan Demo.final8) + 3)
                 (availableRead (chan Demo.final8) + 3)] /\
    take (Z.to_nat (availableRead (chan Demo.final8) + 3)) buf'
    = contents (chan Demo.final8) ++ take (Z.to_nat 3) [1; 2; 3] /\
    closed (chan s') = false /\ writer s' = Idle /\ reader s' = Idle /\
    availableRead (chan s') = 0 /\
    returned_by_read s' = passed_to_write s'.
Proof.
  destruct (fifo_round_trip 3 Demo.cb8 Demo.events8 Demo.final8
              ltac:(lia) eq_refl eq_refl) as (H1 & H2 & H3).
  split; [exact H1|]. split; [apply H2; reflexivity|].
  apply (H3 eq_refl eq_refl eq_refl [1; 2; 3] 3 (replicate 3 0));
    vm_compute; repeat split; congruence.
Defined.

(** The run behind the witness ends drained, with all ten samples read. *)
Example final8_drained :
  closed (chan Demo.final8) = false /\ writer Demo.final8 = Idle /\
  reader Demo.final8 = Idle /\ availableRead (chan Demo.final8) = 0 /\
  returned_by_read Demo.final8 = seqZ 1 10.
Proof. repeat split; reflexivity. Qed.

(** Scenario 1 of the specification, run on the model. *)
Example scenario1_round_trip :
  (fun s => (c_ret <$> writes s, c_ret <$> reads s,
             bool_decide (returned_by_read s = seqZ 1 5000)))
    <$> run Demo.scenario1 (boot Demo.cb4096)
  = Some ([5000], [1000; 1000; 1000; 1000; 1000], true).
Proof. vm_compute. reflexivity. Qed.

(** *** The reserved slot *)

(** C2.  In every state a channel of capacity [N = 2^k] reaches, the
    writable space is [N - 1] minus the readable count, at most [N - 1]
    samples are buffered, and a [write] on the open channel takes exactly
    what the writable space allows: it returns when the request fits and
    blocks otherwise, leaving no more than [N - 1] samples unread. *)
Theorem reserved_slot k cb evs s :
  0 <= k < 64 ->
  CircularBuffer (2 ^ k) = inr cb ->
  run evs (boot cb) = Some s ->
  availableWrite (chan s) = 2 ^ k - 1 - availableRead (chan s) /\
  0 <= availableRead (chan s) <= 2 ^ k - 1 /\
  Z.of_nat (length (contents (chan s))) = availableRead (chan s) /\
  (forall fuel data size cb' o,
     closed (chan s) = false ->
     0 <= size < 2 ^ 64 -> size <= Z.of_nat (length data) ->
     (2 <= fuel)%nat ->
     write fuel (chan s) data size = (cb', o) ->
     o = (if size <=? availableWrite (chan s) then Returned size
          else Blocked (availableWrite (chan s))) /\
     availableRead cb' <= 2 ^ k - 1).
Proof.
  intros Hk Hcb Hrun.
  pose proof (run_inv k evs _ _ (constructor_inv k cb Hk Hcb) Hrun)
    as [Hwf _ _ _ _ _].
  split; [apply availableWrite_wf; exact Hwf|].
  split; [apply (availableRead_wf k); exact Hwf|].
  split; [apply (contents_length k); exact Hwf|].
  intros fuel data size cb' o Hopen Hsz Hlen Hfuel Hw.
  destruct (write_alone k _ _ _ _ _ _ Hwf Hopen Hsz Hlen Hfuel Hw)
    as (Hwf' & Ho & _).
  split; [exact Ho|]. apply (availableRead_wf k cb' Hwf').
Qed.

Lemma reserved_slot_witness :
  availableWrite (chan Demo.final8) = 2 ^ 3 - 1 - availableRead (chan Demo.final8) /\
  0 <= availableRead (chan Demo.final8) <= 2 ^ 3 - 1 /\
  Z.of_nat (length (contents (chan Demo.final8)))
  = availableRead (chan Demo.final8) /\
  (forall fuel data size cb' o,
     closed (chan Demo.final8) = false ->
     0 <= size < 2 ^ 64 -> size <= Z.of_nat (length data) ->
     (2 <= fuel)%nat ->
     write fuel (chan Demo.final8) data size = (cb', o) ->
     o = (if size <=? availableWrite (chan Demo.final8) then Returned size
          else Blocked (availableWrite (chan Demo.final8))) /\
     availableRead cb' <= 2 ^ 3 - 1).
Proof.
  apply (reserved_slot 3 Demo.cb8 Demo.events8 Demo.final8);
    [lia | reflexivity | reflexivity].
Defined.

(** A fresh channel of capacity 8 takes seven of ten samples and blocks. *)
Example cb8_blocks_after_seven :
  snd (write 2 Demo.cb8 (seqZ 1 10) 10) = Blocked 7.
Proof. reflexivity. Qed.

(** *** Closing *)

Lemma close_idempotent cb : close (close cb) = close cb.
Proof. reflexivity. Qed.

(** A closed channel: [write] returns 0 and [read] drains without
    blocking. *)
Lemma closed_channel k cb :
  ChannelInv.wf k cb -> closed cb = true ->
  (forall fuel data size,
     exists n, write fuel cb data size = (cb, Returned n) /\
               n = 0 /\ (0 < size -> n < size)) /\
  (forall fuel data size,
     0 <= size < 2 ^ 64 -> size <= Z.of_nat (length data) ->
     (2 <= fuel)%nat ->
     exists cb' data',
       read fuel cb data size
       = (cb', data', Returned (Z.min (availableRead cb) size)) /\
       take (Z.to_nat (Z.min (availableRead cb) size)) data'
       = take (Z.to_nat (Z.min (availableRead cb) size)) (contents cb) /\
       contents cb'
       = drop (Z.to_nat (Z.min (availableRead cb) size)) (contents cb) /\
       closed cb' = true /\
       (availableRead cb <= size ->
        forall fuel2 data2 size2,
          0 <= size2 < 2 ^ 64 -> size2 <= Z.of_nat (length data2) ->
          (2 <= fuel2)%nat ->
          snd (read fuel2 cb' data2 size2) = Returned 0)) /\
  (availableRead cb = 200 ->
   forall fuel data,
     1000 <= Z.of_nat (length data) -> (2 <= fuel)%nat ->
     exists cb' data',
       read fuel cb data 1000 = (cb', data', Returned 200) /\
       snd (read fuel cb' data' 1000) = Returned 0) /\
  close cb = cb /\
  (forall evs s s',
     run evs s = Some s' -> closed (chan s) = true ->
     closed (chan s') = true).
Proof.
  intros Hwf Hc.
  assert (Hread : forall fuel data size,
    0 <= size < 2 ^ 64 -> size <= Z.of_nat (length data) -> (2 <= fuel)%nat ->
    exists cb' data',
      read fuel cb data size
      = (cb', data', Returned (Z.min (availableRead cb) size)) /\
      ChannelInv.wf k cb' /\ closed cb' = true /\
      availableRead cb' = availableRead cb - Z.min (availableRead cb) size /\
      length data' = length data /\
      take (Z.to_nat (Z.min (availableRead cb) size)) data'
      = take (Z.to_nat (Z.min (availableRead cb) size)) (contents cb) /\
      contents cb'
      = drop (Z.to_nat (Z.min (availableRead cb) size)) (contents cb)).
  { intros fuel data size Hsz Hlen Hfuel.
    destruct (read fuel cb data size) as [[cb' data'] o] eqn:Hr.
    destruct (read_closed k _ _ _ _ _ _ _ Hwf Hc Hsz Hlen Hfuel Hr)
      as (Hwf' & Hc' & -> & HaR & Ht & Hct).
    exists cb', data'. repeat (split; [first [reflexivity|assumption]|]).
    split; [|split; assumption].
    apply (read_length k fuel cb data size cb' data' _ Hwf Hsz Hlen Hr). }
  split; [|split; [|split; [|split]]].
  - intros fuel data size. exists 0. unfold write. rewrite Hc. auto.
  - intros fuel data size Hsz Hlen Hfuel.
    destruct (Hread fuel data size Hsz Hlen Hfuel)
      as (cb' & data' & Hr & Hwf' & Hc' & HaR & _ & Ht & Hct).
    exists cb', data'. repeat (split; [assumption|]).
    intros Hdrain fuel2 data2 size2 Hsz2 Hlen2 Hfuel2.
    destruct (read fuel2 cb' data2 size2) as [[cb2 d2] o2] eqn:Hr2.
    destruct (read_closed k _ _ _ _ _ _ _ Hwf' Hc' Hsz2 Hlen2 Hfuel2 Hr2)
      as (_ & _ & -> & _).
    simpl. f_equal. lia.
  - intros H200 fuel data Hlen Hfuel.
    destruct (Hread fuel data 1000 ltac:(lia) ltac:(lia) Hfuel)
      as (cb' & data' & Hr & Hwf' & Hc' & HaR & Hl' & _).
    rewrite H200 in Hr, HaR. change (Z.min 200 1000) with 200 in Hr, HaR.
    exists cb', data'. split; [exact Hr|].
    destruct (read fuel cb' data' 1000) as [[cb2 d2] o2] eqn:Hr2.
    destruct (read_closed k cb' data' 1000 fuel cb2 d2 o2 Hwf' Hc'
                ltac:(lia) ltac:(lia) Hfuel Hr2) as (_ & _ & -> & _).
    simpl. f_equal. lia.
  - destruct cb. simpl in Hc. subst. reflexivity.
  - intros evs s s'. apply run_closed.
Qed.


(** C3.  [close] sets the closed flag and keeps the buffered samples.  On
    the channel it leaves every [write] returns 0, which is less than any
    positive count requested, and every [read] returns without blocking
    the buffered samples, oldest first, up to the count asked for; on a
    drained channel that is 0.  Closing a channel that holds 200 samples
    makes a [read] of 1000 return 200 and the next one return 0.  [close]
    is idempotent, a call of [close] by a thread leaves the flag set, and
    no event of the channel resets it. *)
Theorem after_close k cb :
  ChannelInv.wf k cb ->
  closed (close cb) = true /\ isClosed (close cb) = true /\
  contents (close cb) = contents cb /\
  (forall fuel data size,
     exists n, write fuel (close cb) data size = (close cb, Returned n) /\
               n = 0 /\ (0 < size -> n < size)) /\
  (forall fuel data size,
     0 <= size < 2 ^ 64 -> size <= Z.of_nat (length data) ->
     (2 <= fuel)%nat ->
     exists cb' data',
       read fuel (close cb) data size
       = (cb', data', Returned (Z.min (availableRead cb) size)) /\
       take (Z.to_nat (Z.min (availableRead cb) size)) data'
       = take (Z.to_nat (Z.min (availableRead cb) size)) (contents cb) /\
       contents cb'
       = drop (Z.to_nat (Z.min (availableRead cb) size)) (contents cb) /\
       closed cb' = true /\
       (availableRead cb <= size ->
        forall fuel2 data2 size2,
          0 <= size2 < 2 ^ 64 -> size2 <= Z.of_nat (length data2) ->
          (2 <= fuel2)%nat ->
          snd (read fuel2 cb' data2 size2) = Returned 0)) /\
  (availableRead cb = 200 ->
   forall fuel data,
     1000 <= Z.of_nat (length data) -> (2 <= fuel)%nat ->
     exists cb' data',
       read fuel (close cb) data 1000 = (cb', data', Returned 200) /\
       snd (read fuel cb' data' 1000) = Returned 0) /\
  close (close cb) = close cb /\
  (closed cb = true -> close cb = cb) /\
  (forall s s',
     step CallClose s = Some s' ->
     chan s' = close (chan s) /\ closed (chan s') = true) /\
  (forall evs s s',
     run evs s = Some s' -> closed (chan s) = true ->
     closed (chan s') = true).
Proof.
  intros Hwf.
  destruct (closed_channel k (close cb) (close_wf k cb Hwf) eq_refl)
    as (Hw & Hr & H200 & Hidem & Hrun).
  split; [reflexivity|]. split; [reflexivity|]. split; [reflexivity|].
  split; [exact Hw|]. split; [exact Hr|]. split; [exact H200|].
  split; [exact Hidem|].
  split; [intros Hc; destruct cb; simpl in Hc; subst; reflexivity|].
  split; [|exact Hrun].
  intros s s'. simpl. destruct (free (mutex s)); [|discriminate].
  intros [= <-]. split; reflexivity.
Qed.

Lemma after_close_witness :
  closed (close Demo.open200) = true /\
  (forall fuel data size,
     exists n, write fuel (close Demo.open200) data size
               = (close Demo.open200, Returned n) /\
               n = 0 /\ (0 < size -> n < size)) /\
  (forall fuel data,
     1000 <= Z.of_nat (length data) -> (2 <= fuel)%nat ->
     exists cb' data',
       read fuel (close Demo.open200) data 1000
       = (cb', data', Returned 200) /\
       snd (read fuel cb' data' 1000) = Returned 0).
Proof.
  assert (Hwf : ChannelInv.wf 8 Demo.open200)
    by (constructor; vm_compute; split; congruence).
  destruct (after_close 8 Demo.open200 Hwf)
    as (Hc & _ & _ & Hw & _ & H200 & _).
  split; [exact Hc|]. split; [exact Hw|]. apply H200. reflexivity.
Defined.

(** The channel of the witness was open, and holds the samples 1 to 200. *)
Example open200_contents :
  closed Demo.open200 = false /\ contents Demo.open200 = seqZ 1 200.
Proof. split; reflexivity. Qed.

(** Scenario 2 of the specification, run on the model. *)
Example scenario2_closed_200 :
  let '(cb1, d1, o1) := read 2 Demo.closed200 (replicate 1000 0) 1000 in
  let '(cb2, d2, o2) := read 2 cb1 d1 1000 in
  (o1, take 200 d1, o2) = (Returned 200, seqZ 1 200, Returned 0).
Proof. vm_compute. reflexivity. Qed.

(** *** The test of the constructor *)

(** C8, where the code departs from it.  The constructor accepts the size
    0, which is not a power of two: [0 & (0 - 1)] is 0.  The channel it
    builds has no storage and a mask of all ones. *)
Theorem constructor_accepts_zero :
  ~ power_of_two 0 /\
  CircularBuffer 0
  = inr {| buffer := []; readPos := 0; writePos := 0; bufferSize := 0;
           bufferMask := 2 ^ 64 - 1; closed := false |}.
Proof.
  split; [|reflexivity].
  intros (k & Hk & H0). pose proof (pow2_pos k Hk). lia.
Qed.

(** On every other size that a vector can have the constructor does what
    C8 says. *)
Lemma constructor_nonzero n :
  0 < n <= max_size ->
  (power_of_two n ->
   exists cb, CircularBuffer n = inr cb /\
              readPos cb = 0 /\ writePos cb = 0 /\ closed cb = false) /\
  (~ power_of_two n -> exists e, CircularBuffer n = inl e).
Proof.
  intros Hn. rewrite max_size_eq in Hn. split.
  - intros (k & Hk & ->).
    assert (k < 62).
    { destruct (Z.lt_ge_cases k 62) as [|Hge]; [assumption|].
      pose proof (Z.pow_le_mono_r 2 62 k ltac:(lia) Hge). lia. }
    destruct (constructor_pow2 k ltac:(lia)) as (cb & H1 & _ & H2).
    exists cb. auto.
  - intros Hnp. eexists. apply constructor_rejects; [lia|assumption].
Qed.

End ChannelFacts.

(** ** The error handler and its watchdog *)

Section ErrorHandlerFacts.
Import ErrorHandler.

(** [recoverFromError], entered with the mutex free, recovers exactly the
    two ALSA errors and leaves the state at recovery or at error. *)
Lemma recoverFromError_dispatch h :
  errorMutex h = false ->
  exists h',
    recoverFromError h
    = Ok (match lastError h with
          | ERROR_ALSA_XRUN | ERROR_ALSA_SUSPEND => true
          | _ => false
          end) h' /\
    globalState h'
    = match lastError h with
      | ERROR_ALSA_XRUN | ERROR_ALSA_SUSPEND => STATE_RECOVERY
      | _ => STATE_ERROR
      end /\
    errorMutex h' = false.
Proof.
  intros Hm. unfold recoverFromError, lock_guard, lock.
  unfold mbind, M_bind, bind. rewrite Hm. simpl.
  destruct (lastError h); simpl; eexists; split; try reflexivity; auto.
Qed.

(** [reportError] takes the mutex, records and logs the error, moves to
    the error state, and then blocks: [recoverFromError] locks the mutex
    that [reportError] still holds. *)
Lemma reportError_deadlock err details h :
  errorMutex h = false ->
  exists line,
    reportError err details h
    = Deadlock {| globalState := STATE_ERROR; lastError := err;
                  errorMutex := true;
                  logger := logger h ++ [(LOG_ERR, line);
                                         (LOG_INFO, "Global state changed to: 2")];
                  watchdogRunning := watchdogRunning h;
                  watchdogPing := watchdogPing h |} /\
    (err = ERROR_SYSTEM -> line = "System error: " +:+ details).
Proof.
  intros Hm. unfold reportError, lock_guard, lock.
  unfold mbind, M_bind, bind. rewrite Hm. simpl.
  destruct err; simpl; rewrite <- app_assoc; simpl;
    eexists; (split; [reflexivity|]); intros; first [discriminate|reflexivity].
Qed.

(** C4, where the code departs from it.  Whatever the error kind and the
    details, a report on a fresh handler sets [lastError], logs, moves to
    [STATE_ERROR] and then blocks on [errorMutex] inside
    [recoverFromError]: also for the two ALSA errors the state is never set
    to [STATE_RUNNING], and the call does not return. *)
Theorem reportError_blocks err details :
  exists h,
    reportError err details Demo.handler0 = Deadlock h /\
    globalState h = STATE_ERROR /\ lastError h = err /\
    errorMutex h = true /\
    Forall (fun e => e <> (LOG_INFO, "Recovered from error")) (logger h).
Proof.
  destruct (reportError_deadlock err details Demo.handler0 eq_refl)
    as (line & Hrep & _).
  eexists. split; [exact Hrep|]. simpl.
  repeat (split; [reflexivity|]).
  constructor; [discriminate|]. constructor; [discriminate|constructor].
Qed.

(** The report of an underrun by the capture loop, run on the model. *)
Example reportError_xrun :
  reportError ERROR_ALSA_XRUN "Read error" Demo.handler0
  = Deadlock {| globalState := STATE_ERROR; lastError := ERROR_ALSA_XRUN;
                errorMutex := true;
                logger := [(LOG_ERR, "ALSA xrun error: Read error");
                           (LOG_INFO, "Global state changed to: 2")];
                watchdogRunning := false; watchdogPing := false |}.
Proof. reflexivity. Qed.

(** *** The watchdog *)

Lemma env_step_spec e h :
  same_errors h (env_step e h) /\
  (watchdogPing h = true -> watchdogPing (env_step e h) = true) /\
  (e <> Ping -> watchdogPing (env_step e h) = watchdogPing h) /\
  (e <> Stop -> watchdogRunning (env_step e h) = watchdogRunning h).
Proof.
  unfold same_errors. destruct e; simpl; repeat split; auto; congruence.
Qed.

Lemma sleep_for_spec tk h :
  same_errors h (sleep_for tk h) /\
  (watchdogPing h = true -> watchdogPing (sleep_for tk h) = true) /\
  (Forall (fun e => e <> Ping) tk ->
   watchdogPing (sleep_for tk h) = watchdogPing h) /\
  (Forall (fun e => e <> Stop) tk ->
   watchdogRunning (sleep_for tk h) = watchdogRunning h).
Proof.
  unfold sleep_for. revert h. induction tk as [|e tk IH]; intros h; simpl.
  - unfold same_errors. repeat split; auto.
  - destruct (env_step_spec e h) as ((E1 & E2 & E3 & E4) & Hp & Hnp & Hns).
    destruct (IH (env_step e h)) as ((I1 & I2 & I3 & I4) & Ip & Inp & Ins).
    unfold same_errors. repeat split; try congruence.
    + auto.
    + intros HF. apply Forall_cons in HF as [? ?]. rewrite Inp, Hnp; auto.
    + intros HF. apply Forall_cons in HF as [? ?]. rewrite Ins, Hns; auto.
Qed.

Lemma wait_window_spec n w h :
  same_errors h (wait_window n w h) /\
  (watchdogPing h = true -> watchdogPing (wait_window n w h) = true) /\
  (no_ping w -> watchdogPing (wait_window n w h) = watchdogPing h) /\
  (no_stop w -> watchdogRunning (wait_window n w h) = watchdogRunning h).
Proof.
  revert w h. induction n as [|n IH]; intros w h; simpl.
  - unfold same_errors. repeat split; auto.
  - destruct (watchdogRunning h) eqn:Hr.
    2:{ unfold same_errors. repeat split; auto. }
    destruct w as [|tk w].
    + destruct (IH [] h) as (I1 & Ip & Inp & Ins).
      repeat split; auto; try apply I1. intros _. rewrite <- Hr. apply Ins.
      constructor.
    + destruct (sleep_for_spec tk h) as ((E1 & E2 & E3 & E4) & Hp & Hnp & Hns).
      destruct (IH w (sleep_for tk h)) as ((I1 & I2 & I3 & I4) & Ip & Inp & Ins).
      unfold same_errors, no_ping, no_stop. repeat split; try congruence.
      * auto.
      * intros HF. apply Forall_cons in HF as [? ?].
        rewrite Inp, Hnp; auto.
      * intros HF. apply Forall_cons in HF as [? ?].
        rewrite Ins, Hns; auto.
Qed.

#[local] Arguments wait_window : simpl never.

(** C10.  [startWatchdog] on a stopped watchdog sets the ping flag, so the
    first window ends without a report whatever the other threads did in
    it: no error line, [lastError] and the global state untouched.  When
    nobody pings in the second window the timeout is reported at its end:
    the two error lines are logged, [lastError] is [ERROR_SYSTEM] and the
    global state is [STATE_ERROR]. *)
Theorem first_window_never_reports h :
  watchdogRunning h = false ->
  exists h1,
    startWatchdog h = Ok true h1 /\
    watchdogPing h1 = true /\ watchdogRunning h1 = true /\
    (forall w1,
       exists h2,
         (watchdogLoop [w1] h1 = Monitoring h2 \/
          watchdogLoop [w1] h1 = Exited h2) /\
         errors h2 = errors h /\ lastError h2 = lastError h /\
         globalState h2 = globalState h) /\
    (forall w1 w2,
       errorMutex h = false -> no_stop w1 -> no_stop w2 -> no_ping w2 ->
       errors (handler (watchdogLoop [w1; w2] h1))
       = errors h ++ [(LOG_ERR, "Watchdog timeout - system stalled");
                      (LOG_ERR, "System error: Watchdog timeout")] /\
       lastError (handler (watchdogLoop [w1; w2] h1)) = ERROR_SYSTEM /\
       globalState (handler (watchdogLoop [w1; w2] h1)) = STATE_ERROR).
Proof.
  intros Hr. unfold startWatchdog, mbind, M_bind, bind. simpl. rewrite Hr.
  simpl. eexists. split; [reflexivity|]. simpl.
  split; [reflexivity|]. split; [reflexivity|].
  set (h1 := {| globalState := globalState h; lastError := lastError h;
                errorMutex := errorMutex h;
                logger := (logger h ++ [(LOG_INFO, "Watchdog started")])
                          ++ [(LOG_INFO, "Watchdog thread started")];
                watchdogRunning := true; watchdogPing := true |}).
  assert (Hfirst : forall w1,
    exists hw, same_errors h1 hw /\
      (no_stop w1 -> watchdogRunning hw = true) /\
      ((watchdogRunning hw = false /\
        watchdog_window w1 h1
        = Exited {| globalState := globalState hw; lastError := lastError hw;
                    errorMutex := errorMutex hw;
                    logger := logger hw
                              ++ [(LOG_INFO, "Watchdog thread stopped")];
                    watchdogRunning := watchdogRunning hw;
                    watchdogPing := watchdogPing hw |}) \/
       watchdog_window w1 h1
       = Monitoring {| globalState := globalState hw; lastError := lastError hw;
                       errorMutex := errorMutex hw; logger := logger hw;
                       watchdogRunning := watchdogRunning hw;
                       watchdogPing := false |})).
  { intros w1. unfold watchdog_window. simpl.
    destruct (wait_window_spec (Z.to_nat (WATCHDOG_TIMEOUT_MS / 100)) w1 h1)
      as (Hs & Hp & _ & Hns).
    exists (wait_window (Z.to_nat (WATCHDOG_TIMEOUT_MS / 100)) w1 h1).
    split; [exact Hs|]. split; [exact Hns|].
    destruct (watchdogRunning
                (wait_window (Z.to_nat (WATCHDOG_TIMEOUT_MS / 100)) w1 h1))
      eqn:Hrw; simpl.
    - right. rewrite (Hp eq_refl). simpl. rewrite ?Hrw. reflexivity.
    - left. rewrite ?Hrw. split; reflexivity. }
  split.
  - intros w1. unfold watchdogLoop. simpl. fold h1.
    destruct (Hfirst w1) as (hw & (S1 & S2 & S3 & S4) & _ & [[_ He]|He]);
      rewrite He; eexists;
      (split; [first [left; reflexivity|right; reflexivity]|]);
      simpl; rewrite S1, S2; (split; [|auto]).
    + unfold errors at 1. simpl. rewrite S4. simpl.
      rewrite !filter_app. simpl. rewrite !app_nil_r. reflexivity.
    + unfold errors at 1. simpl. rewrite S4. simpl.
      rewrite !filter_app. simpl. rewrite !app_nil_r. reflexivity.
  - intros w1 w2 Hm Hs1 Hs2 Hp2. unfold watchdogLoop. simpl. fold h1.
    destruct (Hfirst w1) as (hw & (S1 & S2 & S3 & S4) & Hrun & [[Hstop _]|He]).
    { specialize (Hrun Hs1). congruence. }
    rewrite He. specialize (Hrun Hs1).
    set (h2 := {| globalState := globalState hw; lastError := lastError hw;
                  errorMutex := errorMutex hw; logger := logger hw;
                  watchdogRunning := watchdogRunning hw;
                  watchdogPing := false |}).
    destruct (wait_window_spec (Z.to_nat (WATCHDOG_TIMEOUT_MS / 100)) w2 h2)
      as ((T1 & T2 & T3 & T4) & _ & Hnp & Hns).
    specialize (Hnp Hp2). specialize (Hns Hs2).
    change (watchdogRunning h2) with (watchdogRunning hw) in Hns.
    change (watchdogPing h2) with false in Hnp.
    change (globalState h2) with (globalState hw) in T1.
    change (lastError h2) with (lastError hw) in T2.
    change (errorMutex h2) with (errorMutex hw) in T3.
    change (logger h2) with (logger hw) in T4.
    unfold watchdog_window.
    change (watchdogRunning h2) with (watchdogRunning hw).
    rewrite Hrun. simpl.
    set (h3 := wait_window (Z.to_nat (WATCHDOG_TIMEOUT_MS / 100)) w2 h2) in *.
    rewrite Hns, Hnp, Hrun. simpl.
    unfold mbind, M_bind, bind. simpl.
    destruct (reportError_deadlock ERROR_SYSTEM "Watchdog timeout"
                {| globalState := globalState h3; lastError := lastError h3;
                   errorMutex := errorMutex h3;
                   logger := logger h3
                             ++ [(LOG_ERR, "Watchdog timeout - system stalled")];
                   watchdogRunning := watchdogRunning h3;
                   watchdogPing := watchdogPing h3 |})
      as (line & Hrep & Hline).
    { simpl. rewrite T3, S3. exact Hm. }
    rewrite Hrep. simpl. rewrite (Hline eq_refl).
    split; [|auto].
    unfold errors. simpl. rewrite T4, S4. simpl.
    rewrite !filter_app. simpl. rewrite !app_nil_r, <- !app_assoc. reflexivity.
Qed.

Lemma first_window_never_reports_witness :
  exists h1,
    startWatchdog Demo.handler0 = Ok true h1 /\
    watchdogPing h1 = true /\ watchdogRunning h1 = true /\
    (forall w1,
       exists h2,
         (watchdogLoop [w1] h1 = Monitoring h2 \/
          watchdogLoop [w1] h1 = Exited h2) /\
         errors h2 = errors Demo.handler0 /\
         lastError h2 = lastError Demo.handler0 /\
         globalState h2 = globalState Demo.handler0) /\
    (forall w1 w2,
       errorMutex Demo.handler0 = false ->
       no_stop w1 -> no_stop w2 -> no_ping w2 ->
       errors (handler (watchdogLoop [w1; w2] h1))
       = errors Demo.handler0
           ++ [(LOG_ERR, "Watchdog timeout - system stalled");
               (LOG_ERR, "System error: Watchdog timeout")] /\
       lastError (handler (watchdogLoop [w1; w2] h1)) = ERROR_SYSTEM /\
       globalState (handler (watchdogLoop [w1; w2] h1)) = STATE_ERROR).
Proof. apply (first_window_never_reports Demo.handler0). reflexivity. Defined.

(** C7, where the code departs from it.  Three windows without a ping
    after [startWatchdog]: the first passes on the initial ping flag, the
    second reports the timeout and moves to [STATE_ERROR], and that call of
    [reportError] never returns.  The thread hangs before it resets the
    flag, the third window is not watched, and one report stands for two
    missed windows. *)
Theorem watchdog_hangs_on_first_report :
  watchdogLoop [Demo.quiet; Demo.quiet; Demo.quiet] Demo.started
  = Hung {| globalState := STATE_ERROR; lastError := ERROR_SYSTEM;
            errorMutex := true;
            logger := [(LOG_INFO, "Watchdog started");
                       (LOG_INFO, "Watchdog thread started");
                       (LOG_ERR, "Watchdog timeout - system stalled");
                       (LOG_ERR, "System error: Watchdog timeout");
                       (LOG_INFO, "Global state changed to: 2")];
            watchdogRunning := true; watchdogPing := false |} /\
  system_reports
    (handler (watchdogLoop [Demo.quiet; Demo.quiet; Demo.quiet] Demo.started))
  = 1%nat.
Proof. split; vm_compute; reflexivity. Qed.

(** A window in which a ping arrived reports nothing and the watchdog goes
    on monitoring. *)
Example pinged_window_is_silent :
  watchdogLoop [Demo.quiet; [[Ping]]] Demo.started
  = Monitoring {| globalState := STATE_INIT; lastError := ERROR_NONE;
                  errorMutex := false;
                  logger := [(LOG_INFO, "Watchdog started");
                             (LOG_INFO, "Watchdog thread started")];
                  watchdogRunning := true; watchdogPing := false |}.
Proof. vm_compute. reflexivity. Qed.

End ErrorHandlerFacts.

(** ** The capture and output loops *)

Section StageFacts.
Import Stage.

Variable snd_strerror : Z -> string.

Lemma scan_spec buffer n :
  (fst (scan buffer n) = true <->
   exists i, 0 <= i < n /\ aget buffer i <> 0).
Proof.
  unfold scan.
  assert (H : forall m : nat,
    fst (for_loop m
      (fun i '(hasNonZeroSamples, maxSample) =>
         if negb (aget buffer i =? 0) then
           (true, if Z.abs (aget buffer i) >? Z.abs maxSample
                  then aget buffer i else maxSample)
         else (hasNonZeroSamples, maxSample)) (false, 0)) = true <->
    exists i, 0 <= i < Z.of_nat m /\ aget buffer i <> 0).
  { induction m as [|m IH].
    - simpl. split; [discriminate|]. intros (i & Hi & _). lia.
    - cbn [for_loop].
      destruct (for_loop m _ (false, 0)) as [has mx] eqn:Hloop.
      simpl in IH.
      destruct (aget buffer (Z.of_nat m) =? 0) eqn:Hz; simpl.
      + apply Z.eqb_eq in Hz. rewrite IH. split.
        * intros (i & Hi & Hnz). exists i. split; [lia|assumption].
        * intros (i & Hi & Hnz). exists i. split; [|assumption].
          destruct (Z.eq_dec i (Z.of_nat m)) as [->|]; [contradiction|lia].
      + apply Z.eqb_neq in Hz. split; [|reflexivity].
        intros _. exists (Z.of_nat m). split; [lia|assumption]. }
  destruct (Z.le_gt_cases 0 n) as [Hn|Hn].
  - rewrite H. rewrite Z2Nat.id by assumption. reflexivity.
  - rewrite H. replace (Z.to_nat n) with 0%nat by lia. simpl.
    split; intros (i & Hi & _); lia.
Qed.

Lemma pcm_writes_app a b : pcm_writes (a ++ b) = pcm_writes a ++ pcm_writes b.
Proof. apply omap_app. Qed.

Lemma pcm_writes_resume n : pcm_writes (resume_loop n) = [].
Proof. unfold resume_loop. induction n; simpl; auto. Qed.

Lemma pcm_writes_report dev frames : pcm_writes (write_report dev frames) = [].
Proof.
  unfold write_report.
  destruct ((frames >? 0) && (frames <? periodSize dev)); [reflexivity|].
  destruct (frames >? 0); reflexivity.
Qed.

(** *** The capture loop *)

(** C5, as the code has it.  A pass of the capture loop that transferred
    [frames > 0] frames scans the first [min(frames * channels, 100)]
    samples.  When one of them is not zero it calls [write] of the
    downstream channel once, with the buffer and [frames * channels]
    samples.  When all of them are zero it logs the warning and does
    nothing else: that period is not written downstream.  In both cases
    the stage stays in its state and reports no error. *)
Theorem capture_writes_unless_silent dev e :
  paused (state dev) = false -> 0 < readi e ->
  fst (capture_iter snd_strerror dev e) = dev /\
  ((exists i, 0 <= i < Z.min (int_cast (readi e * channels dev)) 100 /\
              aget (captured e) i <> 0) ->
   channel_writes (snd (capture_iter snd_strerror dev e))
   = [(captured e, size_t (readi e * channels dev))] /\
   Forall (fun x => forall err d, x <> ReportError err d)
          (snd (capture_iter snd_strerror dev e))) /\
  ((forall i, 0 <= i < Z.min (int_cast (readi e * channels dev)) 100 ->
              aget (captured e) i = 0) ->
   snd (capture_iter snd_strerror dev e)
   = [Log LOG_WARNING "All audio samples are zero"]).
Proof.
  intros Hp Hf. unfold capture_iter, capture_pass. rewrite Hp.
  destruct (Z.ltb_spec (readi e) 0) as [|_]; [lia|].
  destruct (Z.gtb_spec (readi e) 0) as [_|]; [|lia].
  pose proof (scan_spec (captured e)
                (Z.min (int_cast (readi e * channels dev)) 100)) as Hscan.
  destruct (scan (captured e) (Z.min (int_cast (readi e * channels dev)) 100))
    as [has mx].
  simpl in Hscan. destruct has; simpl.
  - split; [reflexivity|]. split.
    + intros _. split.
      * destruct (written e <? size_t (readi e * channels dev)); reflexivity.
      * destruct (written e <? size_t (readi e * channels dev));
          repeat constructor; discriminate.
    + intros Hall. destruct (proj1 Hscan eq_refl) as (i & Hi & Hnz).
      exfalso. apply Hnz. apply Hall. exact Hi.
  - split; [reflexivity|]. split.
    + intros Hex. apply Hscan in Hex. discriminate.
    + intros _. reflexivity.
Qed.

(** *** The output loop *)










End StageFacts.

(** The witness of C5: a frame with one sample that is not zero. *)
Lemma capture_writes_unless_silent_witness :
  Stage.channel_writes (snd (Stage.capture_iter Demo.strerror Demo.capture_dev
                         Demo.loud_frame))
  = [([0; -7; 0; 0; 0; 0; 0; 0], 2)].
Proof.
  destruct (capture_writes_unless_silent Demo.strerror Demo.capture_dev
              Demo.loud_frame eq_refl ltac:(simpl; lia)) as (_ & Hw & _).
  apply Hw. exists 1. split; [vm_compute; split; [discriminate|reflexivity]|].
  vm_compute. discriminate.
Defined.

(** C5 as stated fails: a frame of silence is transferred and the capture
    stage does not write it to the downstream channel. *)
Lemma capture_drops_silence :
  ~ (forall snd_strerror dev e,
       Stage.paused (Stage.state dev) = false -> 0 < Stage.readi e ->
       Stage.channel_writes (snd (Stage.capture_iter snd_strerror dev e))
       = [(Stage.captured e, size_t (Stage.readi e * Stage.channels dev))]).
Proof.
  intros H.
  specialize (H Demo.strerror Demo.capture_dev Demo.silent_frame
                eq_refl ltac:(simpl; lia)).
  vm_compute in H. discriminate.
Qed.


(** A short read on an open channel, were there one, is padded to a whole
    period before it is written. *)
Example short_open_is_padded :
  Stage.pcm_writes
    (snd (Stage.output_iter Demo.strerror Demo.output_dev Demo.short_open))
  = [([5; 6; 7; 0], 4)].
Proof. reflexivity. Qed.

(** The loop starts with two periods of silence. *)
Example preroll_two_periods :
  Stage.pcm_writes (Stage.outputLoop Demo.strerror Demo.output_dev
                      [Demo.short_closed])
  = [([0; 0; 0; 0], 4); ([0; 0; 0; 0], 4)].
Proof. reflexivity. Qed.

(* ================================================================== *)
(** * Further properties of the channel *)

Section ChannelMore.
Import CircularBuffer ChannelInv.

(** A [read] run on its own on an open channel hands out what is buffered,
    up to the count asked for; it returns when that is the whole count and
    blocks in [wait_for] otherwise. *)
Lemma read_alone k cb data size fuel cb' data' o :
  wf k cb -> closed cb = false ->
  0 <= size < 2 ^ 64 -> size <= Z.of_nat (length data) -> (2 <= fuel)%nat ->
  read fuel cb data size = (cb', data', o) ->
  wf k cb' /\ closed cb' = false /\
  o = (if size <=? availableRead cb then Returned size
       else Blocked (availableRead cb)) /\
  availableRead cb' = availableRead cb - Z.min size (availableRead cb) /\
  take (Z.to_nat (Z.min size (availableRead cb))) data' =
    take (Z.to_nat (Z.min size (availableRead cb))) (contents cb) /\
  contents cb' = drop (Z.to_nat (Z.min size (availableRead cb))) (contents cb).
Proof.
  intros Hwf Hc Hsz Hlen Hfuel. unfold read.
  destruct fuel as [|[|fuel]]; try lia. cbn [read_loop].
  destruct (availableRead_wf k cb Hwf) as [_ HaRr].
  destruct (read_iter cb data size 0) as [[cb1 d1] f1] eqn:H1.
  destruct (read_iter_spec k cb data size 0 cb1 d1 f1 Hwf
              ltac:(lia) ltac:(lia) Hlen H1) as (Hwf1 & Hc1 & Hl1 & Hf1).
  destruct f1 as [n| |n1].
  - destruct Hf1 as (-> & -> & -> & [Hz|[Hz _]]); [|congruence].
    intros [= <- <- <-]. subst size.
    destruct (Z.leb_spec 0 (availableRead cb)); [|lia].
    rewrite Z.min_l by lia. simpl. rewrite Z.sub_0_r. auto 10.
  - destruct Hf1 as (-> & -> & Hz & _ & Hlt). intros [= <- <- <-].
    rewrite Hz. destruct (Z.leb_spec size 0); [lia|].
    rewrite Z.min_r by lia. simpl. auto 10.
  - destruct Hf1 as (Hn1 & Hr1 & HaR1 & Ht1 & Hct1).
    rewrite Z.add_0_l in Hn1. rewrite Z.sub_0_r in Hn1, HaR1, Ht1, Hct1.
    simpl in Ht1. rewrite (Z.min_comm size).
    destruct (read_iter cb1 d1 size n1) as [[cb2 d2] f2] eqn:H2.
    destruct (read_iter_spec k cb1 d1 size n1 cb2 d2 f2 Hwf1
                ltac:(lia) ltac:(lia) ltac:(lia) H2)
      as (Hwf2 & Hc2 & Hl2 & Hf2).
    destruct f2 as [n| |n2].
    + destruct Hf2 as (-> & -> & -> & [Hz|[Hz _]]); [|congruence].
      intros [= <- <- <-]. rewrite <- Hn1.
      destruct (Z.leb_spec size (availableRead cb)); [|lia].
      split; [assumption|]. split; [congruence|].
      split; [congruence|]. auto.
    + destruct Hf2 as (-> & -> & Hz & _ & Hlt). intros [= <- <- <-].
      rewrite <- Hn1.
      destruct (Z.leb_spec size (availableRead cb)); [lia|].
      split; [assumption|]. split; [congruence|].
      split; [f_equal; lia|]. auto.
    + destruct Hf2 as (Hn2 & Hr2 & _). lia.
Qed.

Lemma write_loop_closed k fuel cb data size w cb' o :
  wf k cb ->
  0 <= w <= size -> size < 2 ^ 64 -> size <= Z.of_nat (length data) ->
  write_loop fuel cb data size w = (cb', o) ->
  closed cb' = closed cb.
Proof.
  revert cb w.
  induction fuel as [|fuel IH]; intros cb w Hwf Hw Hsz Hlen; simpl.
  - intros [= <- _]. reflexivity.
  - destruct (write_iter cb data size w) as [cb1 f1] eqn:H1.
    destruct (write_iter_spec k cb data size w cb1 f1 Hwf Hw Hsz Hlen H1)
      as (Hwf1 & Hc1 & Hf1).
    destruct f1 as [n| |n].
    + intros [= <- _]. exact Hc1.
    + intros [= <- _]. exact Hc1.
    + intros Hr. destruct Hf1 as (_ & Hn & _).
      rewrite <- Hc1. apply (IH cb1 n); try assumption; lia.
Qed.


(** X1.  What the constructor does on every size from 1 on.  A size that
    is not a power of two throws [invalid_argument]; a power of two above
    [max_size], the most a vector can hold ([2^62] and [2^63]), throws
    [length_error] from [buffer.resize]; in both cases no channel is
    built.  For a power of two up to [max_size], the allocation taken to
    succeed, the channel is open and empty with all but one slot writable,
    and a [read] of a positive count on it blocks with nothing
    transferred. *)
Theorem fresh_channel n :
  0 < n < 2 ^ 64 ->
  (power_of_two n -> n <= max_size ->
   exists cb, CircularBuffer n = inr cb /\
     isClosed cb = false /\
     availableRead cb = 0 /\ availableWrite cb = n - 1 /\
     forall fuel data size,
       0 < size < 2 ^ 64 -> size <= Z.of_nat (length data) ->
       (2 <= fuel)%nat ->
       snd (read fuel cb data size) = Blocked 0) /\
  (power_of_two n -> max_size < n -> CircularBuffer n = inl length_error) /\
  (~ power_of_two n ->
   CircularBuffer n
   = inl (invalid_argument "Buffer size must be a power of 2")).
Proof.
  intros Hn. rewrite max_size_eq. split; [|split].
  - intros (k & Hk & ->) Hmax.
    assert (k < 62).
    { destruct (Z.lt_ge_cases k 62) as [|Hge]; [assumption|].
      pose proof (Z.pow_le_mono_r 2 62 k ltac:(lia) Hge). lia. }
    destruct (constructor_pow2 k ltac:(lia)) as (cb & H1 & Hwf & Hr & Hw & Hc).
    destruct (availableRead_wf k cb Hwf) as [HaR _].
    assert (HaR0 : availableRead cb = 0)
      by (rewrite HaR, Hr, Hw; apply Z.mod_0_l; lia).
    exists cb. split; [exact H1|]. split; [exact Hc|].
    split; [exact HaR0|].
    split; [rewrite (availableWrite_wf k cb Hwf), HaR0; lia|].
    intros fuel data size Hsz Hlen Hfuel.
    destruct (read fuel cb data size) as [[cb' data'] o] eqn:Hrd.
    destruct (read_alone k cb data size fuel cb' data' o Hwf Hc
                ltac:(lia) Hlen Hfuel Hrd) as (_ & _ & -> & _).
    rewrite HaR0. simpl. destruct (Z.leb_spec size 0); [lia|reflexivity].
  - intros (k & Hk & ->) Hmax. apply constructor_throws.
    split.
    + destruct (Z.lt_ge_cases k 62) as [Hlt|]; [|assumption].
      pose proof (Z.pow_le_mono_r 2 k 61 ltac:(lia) ltac:(lia)).
      assert (2 ^ 61 < 2 ^ 62 - 1) by reflexivity. lia.
    + destruct (Z.lt_ge_cases k 64) as [|Hge]; [assumption|].
      pose proof (Z.pow_le_mono_r 2 64 k ltac:(lia) Hge). lia.
  - intros Hnp. apply constructor_rejects; assumption.
Qed.

Lemma fresh_channel_witness :
  (exists cb, CircularBuffer 8 = inr cb /\
     isClosed cb = false /\
     availableRead cb = 0 /\ availableWrite cb = 8 - 1 /\
     forall fuel data size,
       0 < size < 2 ^ 64 -> size <= Z.of_nat (length data) ->
       (2 <= fuel)%nat ->
       snd (read fuel cb data size) = Blocked 0) /\
  CircularBuffer (2 ^ 62) = inl length_error.
Proof.
  split.
  - destruct (fresh_channel 8 ltac:(lia)) as [H _].
    apply H; [exists 3; split; [lia|reflexivity]|].
    rewrite max_size_eq. lia.
  - destruct (fresh_channel (2 ^ 62) ltac:(lia)) as (_ & H & _).
    apply H; [exists 62; split; [lia|reflexivity]|].
    rewrite max_size_eq. lia.
Defined.

(** A copy loop whose indices stay inside both arrays is defined, and does
    what the unchecked loop does. *)
Lemma copy_chk n (ix dx : Z -> Z) (src dst : list int16_t) ns nd :
  (forall i, 0 <= i < Z.of_nat n -> 0 <= ix i < nd /\ 0 <= dx i < ns) ->
  nd <= Z.of_nat (length dst) -> ns <= Z.of_nat (length src) ->
  for_loop n
    (fun i ob => b ← ob; v ← aget_chk src ns (dx i); aset_chk b nd (ix i) v)
    (Some dst)
  = Some (for_loop n (fun i b => aset b (ix i) (aget src (dx i))) dst).
Proof.
  intros Hi Hd Hs. induction n as [|n IH]; [reflexivity|].
  cbn [for_loop]. rewrite IH by (intros; apply Hi; lia).
  destruct (Hi (Z.of_nat n) ltac:(lia)) as [Hix Hdx].
  unfold aget_chk, aset_chk. simpl.
  rewrite (for_loop_length n ix (fun i => aget src (dx i)) dst).
  destruct (Z.leb_spec 0 (dx (Z.of_nat n))); [|lia].
  destruct (Z.ltb_spec (dx (Z.of_nat n)) ns); [|lia].
  destruct (Z.leb_spec ns (Z.of_nat (length src))); [|lia]. simpl.
  destruct (Z.leb_spec 0 (ix (Z.of_nat n))); [|lia].
  destruct (Z.ltb_spec (ix (Z.of_nat n)) nd); [|lia].
  destruct (Z.leb_spec nd (Z.of_nat (length dst))); [|lia]. reflexivity.
Qed.

Lemma write_iter_chk_ok k cb data size written :
  wf k cb ->
  0 <= written <= size -> size < 2 ^ 64 -> size <= Z.of_nat (length data) ->
  write_iter_chk cb data size written
  = Some (write_iter cb data size written).
Proof.
  intros Hwf Hw Hsz Hlen. unfold write_iter_chk, write_iter.
  destruct (availableRead_wf k cb Hwf) as [HaR HaRr].
  pose proof (availableWrite_wf k cb Hwf) as HaW.
  pose proof Hwf as [Hk Hs Hm Hl Hr Hwp].
  pose proof (pow2_pos k ltac:(lia)) as Hpos.
  pose proof (pow2_le_64 k Hk) as Hlt.
  destruct ((written <? size) && negb (closed cb)) eqn:Hgo; [|reflexivity].
  apply andb_true_iff in Hgo. destruct Hgo as [Hlt1 _].
  apply Z.ltb_lt in Hlt1.
  destruct (availableWrite cb =? 0); [reflexivity|].
  rewrite (size_t_small (size - written)) by lia.
  set (n := Z.min (availableWrite cb) (size - written)).
  rewrite (copy_chk (Z.to_nat n)
             (fun i => Z.land (size_t (writePos cb + i)) (bufferMask cb))
             (fun i => size_t (written + i)) data (buffer cb) size
             (bufferSize cb)).
  - reflexivity.
  - intros i Hi. split.
    + rewrite Hm, mask_size_t, Hs by exact Hk. apply Z.mod_pos_bound. lia.
    + rewrite size_t_small by lia. lia.
  - lia.
  - exact Hlen.
Qed.

Lemma read_iter_chk_ok k cb data size read :
  wf k cb ->
  0 <= read <= size -> size < 2 ^ 64 -> size <= Z.of_nat (length data) ->
  read_iter_chk cb data size read = Some (read_iter cb data size read).
Proof.
  intros Hwf Hw Hsz Hlen. unfold read_iter_chk, read_iter.
  destruct (availableRead_wf k cb Hwf) as [HaR HaRr].
  pose proof Hwf as [Hk Hs Hm Hl Hr Hwp].
  pose proof (pow2_pos k ltac:(lia)) as Hpos.
  pose proof (pow2_le_64 k Hk) as Hlt.
  destruct (Z.ltb_spec read size) as [Hlt1|]; [|reflexivity].
  destruct (availableRead cb =? 0); [destruct (closed cb); reflexivity|].
  rewrite (size_t_small (size - read)) by lia.
  set (n := Z.min (availableRead cb) (size - read)).
  rewrite (copy_chk (Z.to_nat n)
             (fun i => size_t (read + i))
             (fun i => Z.land (size_t (readPos cb + i)) (bufferMask cb))
             (buffer cb) data (bufferSize cb) size).
  - reflexivity.
  - intros i Hi. split.
    + rewrite size_t_small by lia. lia.
    + rewrite Hm, mask_size_t, Hs by exact Hk. apply Z.mod_pos_bound. lia.
  - exact Hlen.
  - lia.
Qed.

(** X2.  No operation of the channel goes out of bounds.  In every state
    reached the storage has kept its [2^k] slots, both cursors index it,
    size and mask are those of the constructor, and a call in progress has
    transferred no more than it was asked for, which is no more than its
    array holds.  And the next pass of a call in progress, run with every
    access checked, is defined and is the pass the threads make: the copy
    loops of [write] and [read] stay inside [buffer] and inside the
    [size] elements of the caller's array. *)
Theorem channel_in_bounds k cb evs s :
  0 <= k < 64 ->
  CircularBuffer (2 ^ k) = inr cb ->
  run evs (boot cb) = Some s ->
  Z.of_nat (length (buffer (chan s))) = 2 ^ k /\
  bufferSize (chan s) = 2 ^ k /\ bufferMask (chan s) = 2 ^ k - 1 /\
  0 <= readPos (chan s) < 2 ^ k /\ 0 <= writePos (chan s) < 2 ^ k /\
  (forall th data size n,
     (th = writer s \/ th = reader s) ->
     (th = AtHead data size n \/ th = InWait data size n) ->
     0 <= n <= size /\ size <= Z.of_nat (length data)) /\
  (forall data size n,
     writer s = AtHead data size n ->
     write_iter_chk (chan s) data size n
     = Some (write_iter (chan s) data size n)) /\
  (forall data size n,
     reader s = AtHead data size n ->
     read_iter_chk (chan s) data size n
     = Some (read_iter (chan s) data size n)).
Proof.
  intros Hk Hcb Hrun.
  pose proof (run_inv k evs _ _ (constructor_inv k cb Hk Hcb) Hrun)
    as [Hwf Hwt Hrd _ _ _].
  pose proof Hwf as [_ Hs Hm Hl Hr Hw].
  repeat (split; [assumption|]).
  split; [|split].
  - intros th data size n [->| ->] [Hth|Hth];
      first [rewrite Hth in Hwt; simpl in Hwt
            |rewrite Hth in Hrd; simpl in Hrd]; lia.
  - intros data size n Hth. rewrite Hth in Hwt. simpl in Hwt.
    apply (write_iter_chk_ok k); [assumption|lia|lia|lia].
  - intros data size n Hth. rewrite Hth in Hrd. simpl in Hrd.
    apply (read_iter_chk_ok k); [assumption|lia|lia|lia].
Qed.

Lemma channel_in_bounds_witness :
  Z.of_nat (length (buffer (chan Demo.at_head8))) = 2 ^ 3 /\
  0 <= readPos (chan Demo.at_head8) < 2 ^ 3 /\
  0 <= writePos (chan Demo.at_head8) < 2 ^ 3 /\
  write_iter_chk (chan Demo.at_head8) (seqZ 1 10) 10 0
  = Some (write_iter (chan Demo.at_head8) (seqZ 1 10) 10 0).
Proof.
  destruct (channel_in_bounds 3 Demo.cb8 [CallWrite (seqZ 1 10) 10]
              Demo.at_head8 ltac:(lia) eq_refl eq_refl)
    as (H1 & _ & _ & H2 & H3 & _ & H4 & _).
  split; [exact H1|]. split; [exact H2|]. split; [exact H3|].
  apply H4. reflexivity.
Defined.

(** The checked pass is not defined for a caller that passes fewer
    elements than it announces. *)
Example write_out_of_bounds :
  write_iter_chk Demo.cb8 [1; 2] 5 0 = None /\
  read_iter_chk (chan Demo.blocked8) [0; 0] 5 0 = None.
Proof. split; reflexivity. Qed.

(** X3.  A call of [write] or [read] that has returned transferred between
    0 and the count asked for, and on a channel that is still open it
    transferred all of it: only closing makes a call come back short. *)
Theorem calls_complete_unless_closed k cb evs s c :
  0 <= k < 64 ->
  CircularBuffer (2 ^ k) = inr cb ->
  run evs (boot cb) = Some s ->
  c ∈ writes s \/ c ∈ reads s ->
  0 <= c_ret c <= c_size c /\
  (closed (chan s) = false -> c_ret c = c_size c).
Proof.
  intros Hk Hcb Hrun Hin.
  pose proof (run_inv k evs _ _ (constructor_inv k cb Hk Hcb) Hrun)
    as [_ _ _ Hws Hrs _].
  rewrite Forall_forall in Hws, Hrs.
  assert (Hok : call_ok (chan s) c) by (destruct Hin; auto).
  destruct Hok as (H1 & _ & H3). split; [exact H1|].
  intros Hopen. destruct H3; congruence.
Qed.

Lemma calls_complete_unless_closed_witness :
  0 <= 3 <= 4 /\
  (closed (chan Demo.final_closed) = false -> 3 = 4).
Proof.
  apply (calls_complete_unless_closed 3 Demo.cb8 Demo.events_closed
           Demo.final_closed (mkcall [5; 6; 7; 0] 4 3));
    [lia|reflexivity|reflexivity|].
  right. change (reads Demo.final_closed) with [mkcall [5; 6; 7; 0] 4 3].
  apply list_elem_of_here.
Defined.

(** X4.  Round trip through an open channel: a [write] that fits returns
    its whole count at once, and a [read] of everything buffered after it
    returns the samples that were buffered before followed by the samples
    just written, and leaves the channel empty. *)
Theorem write_then_read k cb evs s fuel data size out :
  0 <= k < 64 ->
  CircularBuffer (2 ^ k) = inr cb ->
  run evs (boot cb) = Some s ->
  closed (chan s) = false ->
  0 <= size <= availableWrite (chan s) ->
  size <= Z.of_nat (length data) ->
  availableRead (chan s) + size <= Z.of_nat (length out) ->
  (2 <= fuel)%nat ->
  exists cb1 cb2 out',
    write fuel (chan s) data size = (cb1, Returned size) /\
    read fuel cb1 out (availableRead (chan s) + size)
    = (cb2, out', Returned (availableRead (chan s) + size)) /\
    take (Z.to_nat (availableRead (chan s) + size)) out'
    = contents (chan s) ++ take (Z.to_nat size) data /\
    availableRead cb2 = 0.
Proof.
  intros Hk Hcb Hrun Hopen Hsz Hlen Hout Hfuel.
  pose proof (run_inv k evs _ _ (constructor_inv k cb Hk Hcb) Hrun)
    as [Hwf _ _ _ _ _].
  destruct (availableRead_wf k _ Hwf) as [_ HaR].
  pose proof (availableWrite_wf k _ Hwf) as HaW.
  pose proof (pow2_le_64 k Hk) as H64.
  destruct (write fuel (chan s) data size) as [cb1 o1] eqn:Hw.
  assert (Hsz' : 0 <= size < 2 ^ 64) by lia.
  destruct (write_alone k _ _ _ _ _ _ Hwf Hopen Hsz' Hlen Hfuel Hw)
    as (Hwf1 & Ho1 & Hct1).
  destruct (Z.leb_spec size (availableWrite (chan s))); [|lia]. subst o1.
  rewrite Z.min_l in Hct1 by lia.
  assert (Hc1 : closed cb1 = false).
  { pose proof Hw as Hw'. unfold write in Hw'. rewrite Hopen in Hw'.
    rewrite <- Hopen.
    apply (write_loop_closed k fuel (chan s) data size 0 cb1 (Returned size));
      try assumption; lia. }
  assert (HaR1 : availableRead cb1 = availableRead (chan s) + size).
  { rewrite <- (contents_length k cb1 Hwf1), Hct1, length_app.
    rewrite (length_take_le data) by lia.
    rewrite Nat2Z.inj_add, (contents_length k _ Hwf). lia. }
  destruct (read fuel cb1 out (availableRead (chan s) + size))
    as [[cb2 out'] o2] eqn:Hr.
  assert (Hsz2 : 0 <= availableRead (chan s) + size < 2 ^ 64) by lia.
  destruct (read_alone k _ _ _ _ _ _ _ Hwf1 Hc1 Hsz2 Hout Hfuel Hr)
    as (Hwf2 & _ & Ho2 & HaR2 & Ht2 & _).
  rewrite HaR1 in Ho2, HaR2, Ht2. rewrite Z.min_id in HaR2, Ht2.
  destruct (Z.leb_spec (availableRead (chan s) + size)
                       (availableRead (chan s) + size)); [|lia].
  subst o2. exists cb1, cb2, out'. split; [reflexivity|].
  split; [exact Hr|]. split; [|lia].
  rewrite Ht2, <- Hct1. apply take_ge.
  pose proof (contents_length k cb1 Hwf1). lia.
Qed.

Lemma write_then_read_witness :
  exists cb1 cb2 out',
    write 2 (chan Demo.final8) [1; 2; 3] 3 = (cb1, Returned 3) /\
    read 2 cb1 [0; 0; 0] (availableRead (chan Demo.final8) + 3)
    = (cb2, out', Returned (availableRead (chan Demo.final8) + 3)) /\
    take (Z.to_nat (availableRead (chan Demo.final8) + 3)) out'
    = contents (chan Demo.final8) ++ take (Z.to_nat 3) [1; 2; 3] /\
    availableRead cb2 = 0.
Proof.
  apply (write_then_read 3 Demo.cb8 Demo.events8 Demo.final8 2 [1; 2; 3] 3
           [0; 0; 0]);
    [lia|reflexivity|reflexivity|reflexivity|vm_compute; split; discriminate
    |simpl; lia|vm_compute; discriminate|lia].
Defined.

(** X5.  On an open channel [read] never comes back short: asked for more
    than is buffered it hands out what is there and blocks, asked for no
    more than is buffered it returns the whole count.  In both cases the
    samples handed out are the oldest buffered, in order, and they leave
    the channel. *)
Theorem read_open_blocks_or_returns k cb evs s fuel data size :
  0 <= k < 64 ->
  CircularBuffer (2 ^ k) = inr cb ->
  run evs (boot cb) = Some s ->
  closed (chan s) = false ->
  0 <= size < 2 ^ 64 -> size <= Z.of_nat (length data) -> (2 <= fuel)%nat ->
  exists cb' data',
    read fuel (chan s) data size
    = (cb', data',
       if size <=? availableRead (chan s) then Returned size
       else Blocked (availableRead (chan s))) /\
    take (Z.to_nat (Z.min size (availableRead (chan s)))) data'
    = take (Z.to_nat (Z.min size (availableRead (chan s)))) (contents (chan s)) /\
    contents cb'
    = drop (Z.to_nat (Z.min size (availableRead (chan s)))) (contents (chan s)).
Proof.
  intros Hk Hcb Hrun Hopen Hsz Hlen Hfuel.
  pose proof (run_inv k evs _ _ (constructor_inv k cb Hk Hcb) Hrun)
    as [Hwf _ _ _ _ _].
  destruct (read fuel (chan s) data size) as [[cb' data'] o] eqn:Hr.
  destruct (read_alone k _ _ _ _ _ _ _ Hwf Hopen Hsz Hlen Hfuel Hr)
    as (_ & _ & -> & _ & Ht & Hct).
  exists cb', data'. auto.
Qed.

Lemma read_open_blocks_or_returns_witness :
  exists cb' data',
    read 2 (chan Demo.final8) [0; 0; 0] 3
    = (cb', data',
       if 3 <=? availableRead (chan Demo.final8) then Returned 3
       else Blocked (availableRead (chan Demo.final8))) /\
    take (Z.to_nat (Z.min 3 (availableRead (chan Demo.final8)))) data'
    = take (Z.to_nat (Z.min 3 (availableRead (chan Demo.final8))))
           (contents (chan Demo.final8)) /\
    contents cb'
    = drop (Z.to_nat (Z.min 3 (availableRead (chan Demo.final8))))
           (contents (chan Demo.final8)).
Proof.
  apply (read_open_blocks_or_returns 3 Demo.cb8 Demo.events8 Demo.final8 2
           [0; 0; 0] 3);
    [lia|reflexivity|reflexivity|reflexivity|lia|simpl; lia|lia].
Defined.

(** X6.  [close] wakes the waiters.  With the mutex free, a writer blocked
    in [wait_for] returns on its next wake-up after [close], with the count
    it had written; a blocked reader returns with the count it had read,
    without taking samples that arrived while it waited: they stay
    buffered for the next [read]. *)
Theorem close_wakes_waiters s :
  mutex s = None ->
  (forall data size written,
     writer s = InWait data size written ->
     exists s',
       run [CallClose; StepWriter] s = Some s' /\
       writer s' = Idle /\
       writes s' = writes s ++ [mkcall data size written] /\
       chan s' = close (chan s)) /\
  (forall data size n,
     reader s = InWait data size n ->
     exists s',
       run [CallClose; StepReader] s = Some s' /\
       reader s' = Idle /\
       reads s' = reads s ++ [mkcall data size n] /\
       chan s' = close (chan s) /\
       contents (chan s') = contents (chan s)).
Proof.
  intros Hm. split.
  - intros data size written Hw. simpl. rewrite ?Hm. simpl.
    rewrite ?Hw, ?Hm. simpl.
    eexists. split; [reflexivity|]. auto.
  - intros data size n Hr. simpl. rewrite ?Hm. simpl.
    rewrite ?Hr, ?Hm. simpl.
    eexists. split; [reflexivity|]. auto.
Qed.

(** X7.  A channel of capacity 1 is accepted by the constructor and can
    never carry a sample: its one slot is the reserved one.  In every
    state it reaches, on the open channel a [write] of a positive count
    blocks with nothing written and a [read] of a positive count blocks
    with nothing read. *)
Theorem capacity_one_carries_nothing cb evs s fuel data size :
  CircularBuffer 1 = inr cb ->
  run evs (boot cb) = Some s ->
  closed (chan s) = false ->
  0 < size < 2 ^ 64 -> size <= Z.of_nat (length data) -> (2 <= fuel)%nat ->
  snd (write fuel (chan s) data size) = Blocked 0 /\
  snd (read fuel (chan s) data size) = Blocked 0 /\
  contents (chan s) = [].
Proof.
  intros Hcb Hrun Hopen Hsz Hlen Hfuel.
  pose proof (run_inv 0 evs _ _ (constructor_inv 0 cb ltac:(lia) Hcb) Hrun)
    as [Hwf _ _ _ _ _].
  destruct (availableRead_wf 0 _ Hwf) as [_ HaR].
  pose proof (availableWrite_wf 0 _ Hwf) as HaW.
  change (2 ^ 0) with 1 in HaR, HaW.
  assert (Hz : availableRead (chan s) = 0) by lia.
  assert (Hsz' : 0 <= size < 2 ^ 64) by lia.
  split; [|split].
  - destruct (write fuel (chan s) data size) as [cb' o] eqn:Hw.
    destruct (write_alone 0 _ _ _ _ _ _ Hwf Hopen Hsz' Hlen Hfuel Hw)
      as (_ & -> & _).
    simpl. destruct (Z.leb_spec size (availableWrite (chan s))); [lia|].
    f_equal. lia.
  - destruct (read fuel (chan s) data size) as [[cb' data'] o] eqn:Hr.
    destruct (read_alone 0 _ _ _ _ _ _ _ Hwf Hopen Hsz' Hlen Hfuel Hr)
      as (_ & _ & -> & _).
    simpl. destruct (Z.leb_spec size (availableRead (chan s))); [lia|].
    f_equal. lia.
  - unfold contents. rewrite Hz. reflexivity.
Qed.

Lemma close_wakes_waiters_witness :
  exists s',
    run [CallClose; StepWriter] Demo.blocked8 = Some s' /\
    writer s' = Idle /\
    writes s' = writes Demo.blocked8 ++ [mkcall (seqZ 1 10) 10 7] /\
    chan s' = close (chan Demo.blocked8).
Proof.
  destruct (close_wakes_waiters Demo.blocked8 eq_refl) as [Hw _].
  apply Hw. reflexivity.
Defined.

Lemma capacity_one_carries_nothing_witness :
  snd (write 2 (chan Demo.final1) [9] 1) = Blocked 0 /\
  snd (read 2 (chan Demo.final1) [9] 1) = Blocked 0 /\
  contents (chan Demo.final1) = [].
Proof.
  apply (capacity_one_carries_nothing Demo.cb1 Demo.events1 Demo.final1 2
           [9] 1);
    [reflexivity|reflexivity|reflexivity|lia|simpl; lia|lia].
Defined.

End ChannelMore.

(* ================================================================== *)
(** * Further properties of the error handler *)

Section ErrorHandlerMore.
Import ErrorHandler.

(** X8.  [recoverFromError] called on its own, with the mutex free.  It
    returns true exactly when the last error is an ALSA underrun or
    suspend, leaves the handler in the recovery state then and in the
    error state otherwise, and so never in the running state; it keeps the
    last error, logs each change of state and releases the mutex. *)
Theorem recovery_never_resumes h :
  errorMutex h = false ->
  exists recovered h',
    recoverFromError h = Ok recovered h' /\
    (recovered = true <->
     lastError h = ERROR_ALSA_XRUN \/ lastError h = ERROR_ALSA_SUSPEND) /\
    getGlobalState h' = (if recovered then STATE_RECOVERY else STATE_ERROR) /\
    getGlobalState h' <> STATE_RUNNING /\
    lastError h' = lastError h /\
    errorMutex h' = false /\
    logger h'
    = logger h ++ (LOG_INFO, "Global state changed to: 3")
        :: (if recovered then []
            else [(LOG_INFO, "Global state changed to: 2")]).
Proof.
  intros Hm. unfold recoverFromError, lock_guard, lock.
  unfold mbind, M_bind, bind. rewrite Hm. simpl.
  destruct (lastError h) eqn:He; simpl; eexists; eexists;
    (split; [reflexivity|]); simpl; rewrite <- ?app_assoc; simpl;
    unfold getGlobalState; simpl;
    repeat split; try reflexivity; try discriminate;
    try (intros [?|?]; discriminate); auto.
Qed.

Lemma recovery_never_resumes_witness :
  exists recovered h',
    recoverFromError Demo.handler0 = Ok recovered h' /\
    (recovered = true <->
     lastError Demo.handler0 = ERROR_ALSA_XRUN \/
     lastError Demo.handler0 = ERROR_ALSA_SUSPEND) /\
    getGlobalState h' = (if recovered then STATE_RECOVERY else STATE_ERROR) /\
    getGlobalState h' <> STATE_RUNNING /\
    lastError h' = lastError Demo.handler0 /\
    errorMutex h' = false /\
    logger h'
    = logger Demo.handler0 ++ (LOG_INFO, "Global state changed to: 3")
        :: (if recovered then []
            else [(LOG_INFO, "Global state changed to: 2")]).
Proof. apply (recovery_never_resumes Demo.handler0). reflexivity. Defined.

(** [reportError] returns from no state of the handler: with the mutex
    held by another thread it waits for it, and with the mutex free it
    takes it and blocks in [recoverFromError]. *)
Lemma reportError_never_returns err details h :
  exists h', reportError err details h = Deadlock h'.
Proof.
  destruct (errorMutex h) eqn:Hm.
  - exists h. unfold reportError, lock_guard, lock.
    unfold mbind, M_bind, bind. rewrite Hm. reflexivity.
  - destruct (reportError_deadlock err details h Hm) as (line & H & _).
    eexists. exact H.
Qed.

Lemma sleep_for_ping tk h :
  Exists (fun e => e = Ping) tk -> watchdogPing (sleep_for tk h) = true.
Proof.
  unfold sleep_for. revert h.
  induction tk as [|e tk IH]; intros h Hex; [inversion Hex|].
  simpl. apply Exists_cons in Hex as [->|Hex].
  - apply (proj1 (proj2 (sleep_for_spec tk (env_step Ping h)))). reflexivity.
  - apply IH. exact Hex.
Qed.

Lemma sleep_for_stopped tk h :
  watchdogRunning h = false \/ Exists (fun e => e = Stop) tk ->
  watchdogRunning (sleep_for tk h) = false.
Proof.
  unfold sleep_for. revert h.
  induction tk as [|e tk IH]; intros h [Hr|Hex]; simpl.
  - exact Hr.
  - inversion Hex.
  - apply IH. left. destruct e; simpl; auto.
  - apply Exists_cons in Hex as [->|Hex]; apply IH; [left|right]; auto.
Qed.

Lemma wait_window_ping n w h :
  watchdogRunning h = true -> no_stop w ->
  Exists (Exists (fun e => e = Ping)) (take n w) ->
  watchdogPing (wait_window n w h) = true.
Proof.
  revert w h. induction n as [|n IH]; intros w h Hr Hns Hex.
  - rewrite take_0 in Hex. inversion Hex.
  - destruct w as [|tk w]; [inversion Hex|].
    cbn [wait_window]. rewrite Hr.
    apply Forall_cons in Hns as [Hns1 Hns2].
    simpl in Hex. apply Exists_cons in Hex as [Hex|Hex].
    + apply (proj1 (proj2 (wait_window_spec n w (sleep_for tk h)))).
      apply sleep_for_ping. exact Hex.
    + apply IH; try assumption.
      rewrite (proj2 (proj2 (proj2 (sleep_for_spec tk h))) Hns1). exact Hr.
Qed.

Lemma wait_window_stopped n w h :
  watchdogRunning h = false \/ Exists (Exists (fun e => e = Stop)) (take n w) ->
  watchdogRunning (wait_window n w h) = false.
Proof.
  revert w h. induction n as [|n IH]; intros w h [Hr|Hex].
  - exact Hr.
  - rewrite take_0 in Hex. inversion Hex.
  - cbn [wait_window]. rewrite Hr. exact Hr.
  - destruct w as [|tk w]; [inversion Hex|].
    cbn [wait_window]. destruct (watchdogRunning h) eqn:Hr; [|exact Hr].
    simpl in Hex. apply Exists_cons in Hex as [Hex|Hex]; apply IH.
    + left. apply sleep_for_stopped. right. exact Hex.
    + right. exact Hex.
Qed.

#[local] Arguments wait_window : simpl never.

(** X9.  A watchdog that is pinged in every window never reports: over any
    number of windows in each of which some thread pinged and none stopped
    it, the thread stays in its loop, logs no error, and leaves
    [lastError], the global state and the mutex as they were. *)
Theorem pinged_windows_never_report ws h :
  watchdogRunning h = true ->
  Forall (fun w => no_stop w /\ pinged w) ws ->
  exists h',
    watchdog_windows ws (Monitoring h) = Monitoring h' /\
    same_errors h h' /\ watchdogRunning h' = true.
Proof.
  revert h. induction ws as [|w ws IH]; intros h Hr Hall.
  - exists h. unfold same_errors. repeat split; auto.
  - apply Forall_cons in Hall as [[Hns Hp] Hall].
    cbn [watchdog_windows]. unfold watchdog_window. rewrite Hr. simpl.
    destruct (wait_window_spec (Z.to_nat (WATCHDOG_TIMEOUT_MS / 100)) w h)
      as ((S1 & S2 & S3 & S4) & _ & _ & Hrun).
    rewrite (Hrun Hns), Hr. simpl.
    rewrite (wait_window_ping _ w h Hr Hns Hp). simpl.
    set (hw := wait_window (Z.to_nat (WATCHDOG_TIMEOUT_MS / 100)) w h) in *.
    destruct (IH {| globalState := globalState hw; lastError := lastError hw;
                    errorMutex := errorMutex hw; logger := logger hw;
                    watchdogRunning := watchdogRunning hw;
                    watchdogPing := false |})
      as (h' & Hw & (T1 & T2 & T3 & T4) & Hr').
    { simpl. rewrite (Hrun Hns). exact Hr. }
    { exact Hall. }
    exists h'. split; [exact Hw|]. simpl in *.
    unfold same_errors. repeat split; congruence.
Qed.

Lemma pinged_windows_never_report_witness :
  exists h',
    watchdog_windows [[[Ping]]; [[]; [Ping]]] (Monitoring Demo.started)
    = Monitoring h' /\
    same_errors Demo.started h' /\ watchdogRunning h' = true.
Proof.
  apply (pinged_windows_never_report [[[Ping]]; [[]; [Ping]]] Demo.started).
  - reflexivity.
  - repeat constructor; discriminate.
Defined.

(** X10.  Stopping wins over the timeout: when the running flag is cleared
    during a window the thread leaves its loop at the end of that tick
    and ends without a report, whether or not a ping had arrived. *)
Theorem stop_ends_without_report w h :
  stopped w ->
  exists h',
    watchdog_window w h = Exited h' /\
    errors h' = errors h /\ globalState h' = globalState h /\
    lastError h' = lastError h /\ watchdogRunning h' = false.
Proof.
  intros Hs. unfold watchdog_window.
  destruct (watchdogRunning h) eqn:Hr; simpl.
  - rewrite (wait_window_stopped _ w h (or_intror Hs)). simpl.
    destruct (wait_window_spec (Z.to_nat (WATCHDOG_TIMEOUT_MS / 100)) w h)
      as ((S1 & S2 & S3 & S4) & _).
    eexists. split; [reflexivity|]. simpl.
    split; [|split; [assumption|split; [assumption|]]].
    + unfold errors. simpl. rewrite S4, filter_app. simpl.
      apply app_nil_r.
    + reflexivity.
  - eexists. split; [reflexivity|]. simpl.
    split; [|auto]. unfold errors. simpl. rewrite filter_app. simpl.
    apply app_nil_r.
Qed.

Lemma stop_ends_without_report_witness :
  exists h',
    watchdog_window [[]; [Stop]] Demo.started = Exited h' /\
    errors h' = errors Demo.started /\
    globalState h' = globalState Demo.started /\
    lastError h' = lastError Demo.started /\ watchdogRunning h' = false.
Proof.
  apply (stop_ends_without_report [[]; [Stop]] Demo.started).
  right. left. left. reflexivity.
Defined.

End ErrorHandlerMore.

(* ================================================================== *)
(** * Further properties of the capture and output loops *)

Section StageMore.
Import Stage.

Variable snd_strerror : Z -> string.

Lemma reports_app a b : reports (a ++ b) = reports a ++ reports b.
Proof. apply omap_app. Qed.

Lemma channel_writes_app a b :
  channel_writes (a ++ b) = channel_writes a ++ channel_writes b.
Proof. apply omap_app. Qed.

Lemma reports_resume n : reports (resume_loop n) = [].
Proof. unfold resume_loop. induction n; simpl; auto. Qed.

Lemma channel_writes_resume n : channel_writes (resume_loop n) = [].
Proof. unfold resume_loop. induction n; simpl; auto. Qed.

Lemma reports_write_report dev frames : reports (write_report dev frames) = [].
Proof.
  unfold write_report.
  destruct ((frames >? 0) && (frames <? periodSize dev)); [reflexivity|].
  destruct (frames >? 0); reflexivity.
Qed.

(** X11.  A failed read in the capture loop.  Recovery fails for every
    error other than [-EPIPE] and [-ESTRPIPE] (none is tried), for
    [-EPIPE] when [snd_pcm_prepare] fails, and for [-ESTRPIPE] when both
    [snd_pcm_resume] and [snd_pcm_prepare] fail.  When it fails the stage
    calls [reportError] once, always as [ERROR_ALSA_XRUN], also for a
    suspend, and that call does not return, whatever the state of the
    handler: the assignment [state = STATE_ERROR] behind it is not
    reached, the stage keeps its state and the thread makes no further
    pass.  When recovery succeeds the stage reports nothing, keeps its
    state and goes on.  Either way nothing is written to the channel in
    that pass. *)
Theorem capture_read_error dev e :
  paused (state dev) = false -> readi e < 0 ->
  let failed :=
    if readi e =? - EPIPE then c_prepare e <? 0
    else if readi e =? - ESTRPIPE then (c_resume e <? 0) && (c_prepare e <? 0)
    else true in
  fst (capture_pass snd_strerror dev e)
  = (dev, if failed then Stuck else Again) /\
  reports (snd (capture_pass snd_strerror dev e))
  = (if failed
     then [(ERROR_ALSA_XRUN, "Read error: " +:+ snd_strerror (readi e))]
     else []) /\
  channel_writes (snd (capture_pass snd_strerror dev e)) = [] /\
  (forall es,
     capture_iters snd_strerror dev (e :: es)
     = if failed then capture_iter snd_strerror dev e
       else (fst (capture_iters snd_strerror dev es),
             snd (capture_iter snd_strerror dev e)
             ++ snd (capture_iters snd_strerror dev es))).
Proof.
  intros Hp Hneg failed.
  assert (Hpass :
    fst (capture_pass snd_strerror dev e)
    = (dev, if failed then Stuck else Again) /\
    reports (snd (capture_pass snd_strerror dev e))
    = (if failed
       then [(ERROR_ALSA_XRUN, "Read error: " +:+ snd_strerror (readi e))]
       else []) /\
    channel_writes (snd (capture_pass snd_strerror dev e)) = []).
  { subst failed. unfold capture_pass, xrunRecovery. cbv zeta.
    destruct (reportError_never_returns ERROR_ALSA_XRUN
                ("Read error: " +:+ snd_strerror (readi e)) (c_handler e))
      as [h' Hd].
    rewrite Hd, Hp.
    destruct (Z.ltb_spec (readi e) 0) as [_|]; [|lia].
    destruct (readi e =? - EPIPE) eqn:E1.
    - destruct (c_prepare e <? 0) eqn:E2; simpl; rewrite ?E2; simpl; auto.
    - destruct (readi e =? - ESTRPIPE) eqn:E3.
      + destruct (c_resume e <? 0) eqn:E4; simpl.
        * destruct (c_prepare e <? 0) eqn:E2; simpl;
            rewrite ?reports_app, ?channel_writes_app, ?reports_resume,
              ?channel_writes_resume; simpl;
            rewrite ?reports_app, ?channel_writes_app, ?reports_resume,
              ?channel_writes_resume; auto.
        * rewrite E4. simpl.
          rewrite ?reports_app, ?channel_writes_app, ?reports_resume,
            ?channel_writes_resume. auto.
      + simpl. destruct (Z.ltb_spec (readi e) 0) as [_|]; [|lia]. simpl. auto. }
  destruct Hpass as (H1 & H2 & H3).
  repeat (split; [assumption|]).
  intros es. cbn [capture_iters]. unfold capture_iter.
  destruct (capture_pass snd_strerror dev e) as [[dev' c] effs].
  simpl in H1. injection H1 as -> ->.
  destruct failed; [reflexivity|].
  destruct (capture_iters snd_strerror dev es) as [dev'' effs'].
  reflexivity.
Qed.

(** X12.  A capture stage in the error, recovery or terminating state
    stays there: whatever ALSA would answer, every pass only sleeps 100 ms;
    nothing is read, written or reported and the state does not change.
    The loop never takes the stage out of its error state by itself. *)
Theorem capture_paused_for_good dev es :
  paused (state dev) = true ->
  fst (capture_iters snd_strerror dev es) = dev /\
  snd (capture_iters snd_strerror dev es)
  = replicate (length es) (SleepMs 100).
Proof.
  intros Hp. induction es as [|e es [IH1 IH2]]; [split; reflexivity|].
  assert (Hpass : capture_pass snd_strerror dev e
                  = (dev, Again, [SleepMs 100]))
    by (unfold capture_pass; rewrite Hp; reflexivity).
  cbn [capture_iters]. rewrite Hpass.
  destruct (capture_iters snd_strerror dev es) as [dev' effs].
  simpl in *. subst. split; reflexivity.
Qed.

Lemma output_write_reports dev e buffer :
  reports (snd (output_write snd_strerror dev e buffer)) = [] /\
  (fst (output_write snd_strerror dev e buffer) = dev \/
   fst (output_write snd_strerror dev e buffer) = set_state STATE_ERROR dev).
Proof.
  unfold output_write.
  destruct (writei e <? 0).
  2:{ simpl. rewrite reports_write_report. auto. }
  destruct (writei e =? - EPIPE); [|destruct (writei e =? - ESTRPIPE)].
  - destruct (o_recover e <? 0); [simpl; auto|].
    destruct (writei_retry e <? 0); simpl;
      rewrite ?reports_write_report; auto.
  - destruct ((o_resume e <? 0) && (o_prepare e <? 0)).
    + simpl. rewrite !reports_app, reports_resume. simpl. auto.
    + destruct (writei_retry e <? 0); simpl;
        rewrite !reports_app, ?reports_resume, ?reports_write_report;
        simpl; rewrite ?reports_write_report; auto.
  - destruct (o_recover e <? 0); [simpl; auto|].
    destruct (writei_retry e <? 0); simpl;
      rewrite ?reports_write_report; auto.
Qed.

Lemma output_iter_reports dev e :
  reports (snd (output_iter snd_strerror dev e)) = [] /\
  (fst (fst (output_iter snd_strerror dev e)) = dev \/
   fst (fst (output_iter snd_strerror dev e)) = set_state STATE_ERROR dev).
Proof.
  unfold output_iter.
  destruct (paused (state dev)); [simpl; auto|].
  destruct (chan_read e <? periodSize dev).
  - destruct (chan_closed e); [simpl; auto|].
    destruct (chan_read e >? 0); [|simpl; auto].
    destruct (output_write_reports dev e (fill_from (chan_data e) (chan_read e)))
      as [H1 H2].
    destruct (output_write snd_strerror dev e _) as [dev' effs].
    simpl in *. auto.
  - destruct (output_write_reports dev e (chan_data e)) as [H1 H2].
    destruct (output_write snd_strerror dev e _) as [dev' effs].
    simpl in *. auto.
Qed.

(** X13.  The output loop never reports to the error handler.  A write
    that fails and cannot be recovered only moves the stage to its own
    error state and logs: over any passes, whatever the channel and ALSA
    answer, [outputLoop] makes no call of [reportError]. *)
Theorem output_never_reports dev es :
  reports (outputLoop snd_strerror dev es) = [].
Proof.
  unfold outputLoop. rewrite !reports_app. simpl.
  revert dev. induction es as [|e es IH]; intros dev; [reflexivity|].
  cbn [output_iters].
  destruct (output_iter_reports dev e) as [H1 _].
  destruct (output_iter snd_strerror dev e) as [[dev' c] effs].
  simpl in H1. rewrite reports_app, H1. simpl.
  destruct c; [apply IH|reflexivity].
Qed.

(** X14.  An output stage in the error, recovery or terminating state only
    sleeps: no pass reads the channel or writes to the device, and the
    loop is not left even when the channel has been closed. *)
Theorem output_paused_for_good dev es :
  paused (state dev) = true ->
  output_iters snd_strerror dev es = replicate (length es) (SleepMs 100).
Proof.
  intros Hp. induction es as [|e es IH]; [reflexivity|].
  cbn [output_iters]. unfold output_iter. rewrite Hp. simpl.
  rewrite IH. reflexivity.
Qed.

(** X15.  A pass of the output loop that read a whole period submits the
    samples read, unchanged.  When the first write succeeds that is the
    only write and the stage keeps its state; when it fails the period is
    submitted a second time only after a successful recovery, and the
    stage ends the pass in its error state exactly when the recovery or
    the second write failed. *)
Theorem output_full_period dev e :
  paused (state dev) = false -> periodSize dev <= chan_read e ->
  let recovered :=
    if writei e =? - EPIPE then negb (o_recover e <? 0)
    else if writei e =? - ESTRPIPE
         then negb ((o_resume e <? 0) && (o_prepare e <? 0))
         else negb (o_recover e <? 0) in
  snd (fst (output_iter snd_strerror dev e)) = Next /\
  pcm_writes (snd (output_iter snd_strerror dev e))
  = (if writei e <? 0
     then if recovered
          then [(chan_data e, periodSize dev); (chan_data e, periodSize dev)]
          else [(chan_data e, periodSize dev)]
     else [(chan_data e, periodSize dev)]) /\
  fst (fst (output_iter snd_strerror dev e))
  = (if (writei e <? 0) && (negb recovered || (writei_retry e <? 0))
     then set_state STATE_ERROR dev else dev).
Proof.
  intros Hp Hfull. unfold output_iter. rewrite Hp.
  destruct (Z.ltb_spec (chan_read e) (periodSize dev)); [lia|].
  unfold output_write.
  destruct (writei e <? 0); simpl.
  2:{ rewrite pcm_writes_report. auto. }
  destruct (writei e =? - EPIPE); [|destruct (writei e =? - ESTRPIPE)].
  - destruct (o_recover e <? 0); simpl; [auto|].
    destruct (writei_retry e <? 0); simpl;
      rewrite ?pcm_writes_report; auto.
  - destruct ((o_resume e <? 0) && (o_prepare e <? 0)); simpl.
    + rewrite !pcm_writes_app, pcm_writes_resume. simpl. auto.
    + destruct (writei_retry e <? 0); simpl;
        rewrite !pcm_writes_app, ?pcm_writes_resume, ?pcm_writes_report;
        simpl; rewrite ?pcm_writes_report; auto.
  - destruct (o_recover e <? 0); simpl; [auto|].
    destruct (writei_retry e <? 0); simpl;
      rewrite ?pcm_writes_report; auto.
Qed.

End StageMore.

Lemma capture_read_error_witness :
  fst (Stage.capture_pass Demo.strerror Demo.capture_dev Demo.suspended)
  = (Demo.capture_dev, Stage.Stuck) /\
  Stage.reports
    (snd (Stage.capture_pass Demo.strerror Demo.capture_dev Demo.suspended))
  = [(ERROR_ALSA_XRUN, "Read error: error -86")] /\
  Stage.channel_writes
    (snd (Stage.capture_pass Demo.strerror Demo.capture_dev Demo.suspended))
  = [] /\
  (forall es,
     Stage.capture_iters Demo.strerror Demo.capture_dev (Demo.suspended :: es)
     = Stage.capture_iter Demo.strerror Demo.capture_dev Demo.suspended).
Proof.
  apply (capture_read_error Demo.strerror Demo.capture_dev Demo.suspended);
    [reflexivity|simpl; lia].
Defined.

(** The stage that could not recover is left running, stuck in its call. *)
Example capture_stuck_running :
  Stage.state
    (fst (Stage.capture_iters Demo.strerror Demo.capture_dev
            [Demo.suspended; Demo.loud_frame]))
  = STATE_RUNNING /\
  Stage.channel_writes
    (snd (Stage.capture_iters Demo.strerror Demo.capture_dev
            [Demo.suspended; Demo.loud_frame])) = [].
Proof. split; reflexivity. Qed.

Lemma capture_paused_for_good_witness :
  fst (Stage.capture_iters Demo.strerror (Stage.set_state STATE_ERROR Demo.capture_dev)
         [Demo.loud_frame; Demo.silent_frame])
  = Stage.set_state STATE_ERROR Demo.capture_dev /\
  snd (Stage.capture_iters Demo.strerror (Stage.set_state STATE_ERROR Demo.capture_dev)
         [Demo.loud_frame; Demo.silent_frame])
  = replicate (length [Demo.loud_frame; Demo.silent_frame]) (Stage.SleepMs 100).
Proof.
  apply (capture_paused_for_good Demo.strerror
           (Stage.set_state STATE_ERROR Demo.capture_dev)
           [Demo.loud_frame; Demo.silent_frame]).
  reflexivity.
Defined.

Lemma output_paused_for_good_witness :
  Stage.output_iters Demo.strerror (Stage.set_state STATE_ERROR Demo.output_dev)
    [Demo.short_closed; Demo.short_open]
  = replicate (length [Demo.short_closed; Demo.short_open]) (Stage.SleepMs 100).
Proof.
  apply (output_paused_for_good Demo.strerror
           (Stage.set_state STATE_ERROR Demo.output_dev)
           [Demo.short_closed; Demo.short_open]).
  reflexivity.
Defined.

Lemma output_full_period_witness :
  Stage.pcm_writes
    (snd (Stage.output_iter Demo.strerror Demo.output_dev Demo.underrun_once))
  = [([5; 6; 7; 8], 4); ([5; 6; 7; 8], 4)] /\
  fst (fst (Stage.output_iter Demo.strerror Demo.output_dev
              Demo.underrun_once)) = Demo.output_dev.
Proof.
  destruct (output_full_period Demo.strerror Demo.output_dev
              Demo.underrun_once eq_refl ltac:(simpl; lia))
    as (_ & Hw & Hs).
  split; [exact Hw|exact Hs].
Defined.

(* ================================================================== *)
(** * The processing loop *)

Section BeamFormerFacts.
Import Stage BeamFormer.

Lemma quot2_between l r : Z.min l r <= (l + r) ÷ 2 <= Z.max l r.
Proof.
  pose proof (Z.quot_rem' (l + r) 2) as Hq.
  destruct (Z.le_gt_cases 0 (l + r)) as [Hs|Hs].
  - pose proof (Z.rem_bound_pos (l + r) 2 Hs ltac:(lia)). lia.
  - pose proof (Z.rem_bound_pos_neg (l + r) 2 ltac:(lia) ltac:(lia)). lia.
Qed.

Lemma int16_cast_id z : int16_range z -> int16_cast z = z.
Proof.
  unfold int16_range, int16_cast. intros Hz.
  rewrite Z.mod_small by lia. lia.
Qed.

(** X16.  Mixing two samples cannot overflow: the stored value is the
    truncated mean of the two, it lies between them, so it is a sample
    again, and two equal samples give that sample back. *)
Theorem mix_between l r :
  int16_range l -> int16_range r ->
  mix l r = (l + r) ÷ 2 /\
  Z.min l r <= mix l r <= Z.max l r /\
  int16_range (mix l r) /\
  (l = r -> mix l r = l).
Proof.
  intros Hl Hr. pose proof (quot2_between l r) as Hb.
  assert (Hm : mix l r = (l + r) ÷ 2).
  { unfold mix. apply int16_cast_id. unfold int16_range in *. lia. }
  rewrite Hm. split; [reflexivity|]. split; [exact Hb|].
  split; [unfold int16_range in *; lia|]. intros ->. lia.
Qed.

Lemma mix_between_witness :
  mix (-32768) 32767 = (-32768 + 32767) ÷ 2 /\
  Z.min (-32768) 32767 <= mix (-32768) 32767 <= Z.max (-32768) 32767 /\
  int16_range (mix (-32768) 32767) /\
  (-32768 = 32767 -> mix (-32768) 32767 = -32768).
Proof.
  apply (mix_between (-32768) 32767); unfold int16_range; lia.
Defined.

Lemma mix_loop n input output :
  Z.of_nat n <= Z.of_nat (length output) ->
  take n (for_loop n
            (fun i out =>
               aset out i
                 (mix (aget input (i * NUM_CHANNELS))
                      (aget input (i * NUM_CHANNELS + 1))))
            output)
  = (fun i => mix (aget input (i * NUM_CHANNELS))
                  (aget input (i * NUM_CHANNELS + 1)))
      <$> seqZ 0 (Z.of_nat n).
Proof.
  intros Hlen.
  rewrite (for_loop_ext n _
             (fun i d => aset d (0 + i)
                           (mix (aget input (i * NUM_CHANNELS))
                                (aget input (i * NUM_CHANNELS + 1)))))
    by (intros; reflexivity).
  pose proof (for_loop_fill n 0
                (fun i => mix (aget input (i * NUM_CHANNELS))
                              (aget input (i * NUM_CHANNELS + 1)))
                output ltac:(lia) ltac:(lia)) as Hfill.
  rewrite Z.add_0_l, Nat2Z.id in Hfill. rewrite Hfill.
  change (Z.to_nat 0) with 0%nat. rewrite take_0. reflexivity.
Qed.

Lemma processFrame_length input output :
  length (processFrameTimeDomain input output) = length output.
Proof.
  unfold processFrameTimeDomain. generalize (Z.to_nat FRAME_SIZE). intros n.
  apply (for_loop_length n (fun i => i)).
Qed.

(** X17.  [processFrameTimeDomain] fills the first 512 samples of the
    output with the mixes of the 512 stereo pairs of the input, in order,
    and leaves the rest of the output and its length alone. *)
Theorem processFrame_mixes_pairs input output :
  FRAME_SIZE <= Z.of_nat (length output) ->
  length (processFrameTimeDomain input output) = length output /\
  take (Z.to_nat FRAME_SIZE) (processFrameTimeDomain input output)
  = (fun i => mix (aget input (i * NUM_CHANNELS))
                  (aget input (i * NUM_CHANNELS + 1)))
      <$> seqZ 0 FRAME_SIZE /\
  (forall j, FRAME_SIZE <= j ->
             aget (processFrameTimeDomain input output) j = aget output j).
Proof.
  intros Hlen. unfold processFrameTimeDomain.
  assert (H0 : 0 <= FRAME_SIZE) by (unfold FRAME_SIZE; lia).
  generalize dependent FRAME_SIZE. intros F Hlen H0.
  split; [|split].
  - apply (for_loop_length _ (fun i => i)).
  - rewrite mix_loop by lia. rewrite Z2Nat.id by lia. reflexivity.
  - intros j Hj.
    apply (for_loop_miss _ (fun i => i)); [lia|].
    intros i Hi. lia.
Qed.

#[local] Arguments processFrameTimeDomain : simpl never.

Lemma processFrame_mixes_pairs_witness :
  length (processFrameTimeDomain (replicate 1024 7) (replicate 512 0))
  = length (replicate 512 (0 : int16_t)) /\
  take (Z.to_nat FRAME_SIZE)
       (processFrameTimeDomain (replicate 1024 7) (replicate 512 0))
  = (fun i => mix (aget (replicate 1024 7) (i * NUM_CHANNELS))
                  (aget (replicate 1024 7) (i * NUM_CHANNELS + 1)))
      <$> seqZ 0 FRAME_SIZE /\
  (forall j, FRAME_SIZE <= j ->
             aget (processFrameTimeDomain (replicate 1024 7) (replicate 512 0)) j
             = aget (replicate 512 0) j).
Proof.
  apply (processFrame_mixes_pairs (replicate 1024 7) (replicate 512 0)).
  rewrite length_replicate. unfold FRAME_SIZE. lia.
Defined.

(** The cases of one pass of the processing loop. *)
Lemma proc_iter_cases bf out e :
  paused (state bf) = false ->
  (p_read e < FRAME_SIZE * NUM_CHANNELS ->
   proc_iter bf out e
   = (bf, out, if p_closed e then Break else Next,
      if p_closed e then [] else [SleepMs 10])) /\
  (FRAME_SIZE * NUM_CHANNELS <= p_read e ->
   let '(bf', out', c, effs) := proc_iter bf out e in
   c = Next /\
   out' = processFrameTimeDomain (p_data e) out /\
   channel_writes effs = [(out', FRAME_SIZE)] /\
   reports effs = [] /\
   state bf' = state bf /\
   frameCount bf' = int_cast (frameCount bf + 1) /\
   currentSteeringAngle bf'
   = (if Z.rem (frameCount bf) 10 =? 0 then 90
      else currentSteeringAngle bf)).
Proof.
  intros Hp. unfold proc_iter. rewrite Hp. split.
  - intros Hshort.
    destruct (Z.ltb_spec (p_read e) (FRAME_SIZE * NUM_CHANNELS)); [|lia].
    destruct (p_closed e); reflexivity.
  - intros Hfull.
    destruct (Z.ltb_spec (p_read e) (FRAME_SIZE * NUM_CHANNELS)); [lia|].
    unfold estimateDOA, updateSteering.
    destruct (Z.rem (frameCount bf) 10 =? 0); simpl;
      destruct (p_logging e); destruct (p_written e <? FRAME_SIZE);
      simpl; auto 10.
Qed.

(** X18.  One pass of the processing loop of a stage that is not paused.
    A read short of a stereo frame writes nothing downstream: on a closed
    channel the loop is left, otherwise the pass sleeps 10 ms.  A whole
    frame is mixed and written downstream once, as 512 samples; the frame
    counter goes up by one, the direction is estimated exactly when the
    counter was a multiple of ten, which sets the steering angle to 90,
    and the stage neither changes its state nor reports an error. *)
Theorem processing_pass bf out e :
  paused (state bf) = false ->
  (p_read e < FRAME_SIZE * NUM_CHANNELS ->
   proc_iter bf out e
   = (bf, out, if p_closed e then Break else Next,
      if p_closed e then [] else [SleepMs 10])) /\
  (FRAME_SIZE * NUM_CHANNELS <= p_read e ->
   let '(bf', out', c, effs) := proc_iter bf out e in
   c = Next /\
   out' = processFrameTimeDomain (p_data e) out /\
   channel_writes effs = [(out', FRAME_SIZE)] /\
   reports effs = [] /\
   state bf' = state bf /\
   frameCount bf' = int_cast (frameCount bf + 1) /\
   currentSteeringAngle bf'
   = (if Z.rem (frameCount bf) 10 =? 0 then 90
      else currentSteeringAngle bf)).
Proof.
  intros Hp. unfold proc_iter. rewrite Hp. split.
  - intros Hshort.
    destruct (Z.ltb_spec (p_read e) (FRAME_SIZE * NUM_CHANNELS)); [|lia].
    destruct (p_closed e); reflexivity.
  - intros Hfull.
    destruct (Z.ltb_spec (p_read e) (FRAME_SIZE * NUM_CHANNELS)); [lia|].
    unfold estimateDOA, updateSteering.
    destruct (Z.rem (frameCount bf) 10 =? 0); simpl;
      destruct (p_logging e); destruct (p_written e <? FRAME_SIZE);
      simpl; auto 10.
Qed.

(** X19.  Over any passes of the processing loop, whatever the channels
    answer, a beamformer that steers to 90 degrees keeps steering to 90
    degrees and keeps its state, makes no call of [reportError], and
    every write it makes downstream is one whole frame of 512 samples. *)
Theorem processing_keeps_broadside bf out es :
  currentSteeringAngle bf = 90 ->
  Z.of_nat (length out) = FRAME_SIZE ->
  currentSteeringAngle (fst (proc_iters bf out es)) = 90 /\
  state (fst (proc_iters bf out es)) = state bf /\
  reports (snd (proc_iters bf out es)) = [] /\
  Forall (fun w => w.2 = FRAME_SIZE /\ Z.of_nat (length w.1) = FRAME_SIZE)
         (channel_writes (snd (proc_iters bf out es))).
Proof.
  revert bf out. induction es as [|e es IH]; intros bf out Ha Hlen.
  - simpl. repeat split; auto.
  - cbn [proc_iters]. destruct (paused (state bf)) eqn:Hp.
    + unfold proc_iter. rewrite Hp.
      destruct (IH bf out Ha Hlen) as (I1 & I2 & I3 & I4).
      destruct (proc_iters bf out es) as [bf'' effs']. cbn [fst snd] in *.
      repeat split; assumption.
    + destruct (proc_iter_cases bf out e Hp) as [Hshort Hfull].
      destruct (Z.lt_ge_cases (p_read e) (FRAME_SIZE * NUM_CHANNELS))
        as [Hlt|Hge].
      * rewrite (Hshort Hlt). destruct (p_closed e).
        -- simpl. repeat split; auto.
        -- destruct (IH bf out Ha Hlen) as (I1 & I2 & I3 & I4).
           destruct (proc_iters bf out es) as [bf'' effs']. cbn [fst snd] in *.
           repeat split; assumption.
      * specialize (Hfull Hge).
        destruct (proc_iter bf out e) as [[[bf' out'] c] effs].
        destruct Hfull as (-> & -> & Hw & Hr & Hs & _ & Hang).
        assert (Ha' : currentSteeringAngle bf' = 90)
          by (rewrite Hang; destruct (Z.rem (frameCount bf) 10 =? 0); auto).
        assert (Hlen' : Z.of_nat (length (processFrameTimeDomain (p_data e) out))
                        = FRAME_SIZE).
        { rewrite processFrame_length. exact Hlen. }
        destruct (IH bf' _ Ha' Hlen') as (I1 & I2 & I3 & I4).
        destruct (proc_iters bf' _ es) as [bf'' effs']. cbn [fst snd] in *.
        rewrite reports_app, channel_writes_app, Hw, Hr, I3.
        repeat split; try congruence.
        constructor; [cbn [fst snd]; rewrite processFrame_length; auto|exact I4].
Qed.

Lemma processing_pass_witness :
  proc_iter (init (BeamFormer 0)) (replicate 512 0) Demo.end_of_stream
  = (init (BeamFormer 0), replicate 512 0, Break, []).
Proof.
  destruct (processing_pass (init (BeamFormer 0)) (replicate 512 0)
              Demo.end_of_stream eq_refl) as [Hs _].
  apply Hs. reflexivity.
Defined.

Lemma processing_keeps_broadside_witness :
  currentSteeringAngle
    (fst (proc_iters (init (BeamFormer 0)) (replicate 512 0)
            [Demo.full_frame; Demo.end_of_stream])) = 90.
Proof.
  destruct (processing_keeps_broadside (init (BeamFormer 0)) (replicate 512 0)
              [Demo.full_frame; Demo.end_of_stream] eq_refl)
    as (H & _).
  - rewrite length_replicate. reflexivity.
  - exact H.
Defined.

End BeamFormerFacts.

(* ================================================================== *)
(** * The logger *)

Section LoggerFacts.
Import Logger.

Lemma index_back next i :
  0 <= next < MAX_LOG_ENTRIES -> 0 <= i < MAX_LOG_ENTRIES ->
  size_t (size_t (size_t (next - i) - 1) + MAX_LOG_ENTRIES) mod MAX_LOG_ENTRIES
  = (next - 1 - i) mod MAX_LOG_ENTRIES.
Proof.
  unfold MAX_LOG_ENTRIES, size_t. intros Hn Hi.
  rewrite Zminus_mod_idemp_l, Zplus_mod_idemp_l.
  rewrite (Z.mod_small (next - i - 1 + 1000) (2 ^ 64)) by lia.
  replace (next - i - 1 + 1000) with (next - 1 - i + 1 * 1000) by lia.
  apply Z_mod_plus_full.
Qed.

Lemma ring_init useSyslog enabled : ring (Logger useSyslog enabled) [].
Proof.
  unfold ring, Logger. cbn [logBuffer nextLogIndex logMutex length].
  rewrite length_replicate.
  split; [unfold MAX_LOG_ENTRIES; lia|].
  split; [unfold MAX_LOG_ENTRIES; lia|].
  split; [reflexivity|]. intros j Hj.
  destruct (Z.ltb_spec j (Z.of_nat 0)); [lia|].
  apply lookup_total_replicate_2.
  pose proof (Z.mod_pos_bound (0 - 1 - j) MAX_LOG_ENTRIES
                ltac:(unfold MAX_LOG_ENTRIES; lia)). lia.
Qed.

(** What one call of [log] does to a ring. *)
Lemma ring_log lg es now lvl msg :
  ring lg es ->
  exists lg',
    log now lvl msg lg = Ok tt lg' /\
    loggingEnabled lg' = loggingEnabled lg /\
    ring lg' (es ++ kept (loggingEnabled lg) [(now, lvl, msg)]).
Proof.
  intros (Hlen & Hnext & Hm & Hslots).
  unfold log, lock_guard. rewrite Hm. simpl.
  destruct (negb (loggingEnabled lg) && negb (lvl =? LOG_ERR)) eqn:Hskip.
  - eexists. split; [reflexivity|]. split; [reflexivity|].
    rewrite app_nil_r. repeat split; simpl; auto; lia.
  - eexists. split; [reflexivity|]. split; [reflexivity|].
    unfold ring. simpl. rewrite length_insert.
    assert (HM : MAX_LOG_ENTRIES = 1000) by reflexivity.
    assert (Hn' : size_t (nextLogIndex lg + 1) = nextLogIndex lg + 1)
      by (apply size_t_small; lia).
    rewrite Hn'.
    split; [exact Hlen|]. split; [apply Z.mod_pos_bound; lia|].
    split; [reflexivity|]. intros j Hj.
    rewrite length_app, reverse_app. simpl.
    replace (((nextLogIndex lg + 1) mod MAX_LOG_ENTRIES - 1 - j)
               mod MAX_LOG_ENTRIES)
      with ((nextLogIndex lg - j) mod MAX_LOG_ENTRIES).
    2:{ replace ((nextLogIndex lg + 1) mod MAX_LOG_ENTRIES - 1 - j)
          with ((nextLogIndex lg + 1) mod MAX_LOG_ENTRIES - (1 + j)) by lia.
        rewrite Zminus_mod_idemp_l. f_equal. lia. }
    destruct (Z.eq_dec j 0) as [->|Hj0].
    + rewrite Z.sub_0_r, Z.mod_small by lia.
      rewrite list_lookup_total_insert_eq by lia.
      destruct (Z.ltb_spec 0 (Z.of_nat (length es + 1))); [|lia].
      reflexivity.
    + rewrite list_lookup_total_insert_ne.
      2:{ intros Heq. apply Z2Nat.inj in Heq;
            [|lia|apply Z.mod_pos_bound; lia].
          rewrite <- (Z.mod_small (nextLogIndex lg) MAX_LOG_ENTRIES) in Heq
            at 1 by lia.
          replace (nextLogIndex lg) with (nextLogIndex lg + 0) in Heq at 1
            by lia.
          replace (nextLogIndex lg - j) with (nextLogIndex lg + (- j)) in Heq
            by lia.
          apply slot_inj in Heq; lia. }
      replace (nextLogIndex lg - j) with (nextLogIndex lg - 1 - (j - 1))
        by lia.
      rewrite Hslots by lia.
      replace (Z.to_nat j) with (S (Z.to_nat (j - 1))) by lia. simpl.
      destruct (Z.ltb_spec (j - 1) (Z.of_nat (length es)));
        destruct (Z.ltb_spec j (Z.of_nat (length es + 1))); try lia;
        reflexivity.
Qed.

Lemma kept_app enabled a b :
  kept enabled (a ++ b) = kept enabled a ++ kept enabled b.
Proof. apply omap_app. Qed.

Lemma ring_log_all calls lg es :
  ring lg es ->
  exists lg',
    log_all calls lg = Ok tt lg' /\
    loggingEnabled lg' = loggingEnabled lg /\
    ring lg' (es ++ kept (loggingEnabled lg) calls).
Proof.
  revert lg es. induction calls as [|[[now lvl] msg] calls IH]; intros lg es Hr.
  - exists lg. simpl. rewrite app_nil_r. auto.
  - cbn [log_all].
    destruct (ring_log lg es now lvl msg Hr) as (lg1 & H1 & He1 & Hr1).
    rewrite H1.
    destruct (IH lg1 _ Hr1) as (lg2 & H2 & He2 & Hr2).
    exists lg2. split; [exact H2|]. split; [congruence|].
    rewrite He1 in Hr2. rewrite <- app_assoc in Hr2.
    change ((now, lvl, msg) :: calls) with ([(now, lvl, msg)] ++ calls).
    rewrite kept_app. exact Hr2.
Qed.

(** Reading a ring back, newest first. *)
Lemma ring_recent lg es count :
  ring lg es -> Forall (fun e => timestamp e <> 0) es ->
  exists lg',
    getRecentLogs count lg
    = Ok (take (Z.to_nat (Z.min count MAX_LOG_ENTRIES)) (reverse es)) lg' /\
    ring lg' es /\ loggingEnabled lg' = loggingEnabled lg.
Proof.
  intros (Hlen & Hnext & Hm & Hslots) Hts.
  unfold getRecentLogs, lock_guard. rewrite Hm. simpl.
  exists (set_logMutex false (set_logMutex true lg)).
  split; [|split; [repeat split; simpl; auto; lia|reflexivity]].
  f_equal.
  assert (Hn : (Z.to_nat (Z.min count MAX_LOG_ENTRIES)
                <= Z.to_nat MAX_LOG_ENTRIES)%nat) by lia.
  revert Hn. generalize (Z.to_nat (Z.min count MAX_LOG_ENTRIES)).
  intros n. induction n as [|n IH]; intros Hn; [reflexivity|].
  cbn [for_loop]. rewrite IH by lia.
  rewrite index_back by (unfold MAX_LOG_ENTRIES in *; lia).
  rewrite Hslots by (unfold MAX_LOG_ENTRIES in *; lia).
  rewrite Nat2Z.id.
  destruct (Z.ltb_spec (Z.of_nat n) (Z.of_nat (length es))) as [Hlt|Hge].
  - assert (Hl : (n < length (reverse es))%nat)
      by (rewrite length_reverse; lia).
    pose proof (list_lookup_lookup_total_lt (reverse es) n Hl) as Hlk.
    assert (Hin : timestamp (reverse es !!! n) <> 0).
    { rewrite Forall_forall in Hts. apply Hts.
      apply elem_of_reverse. eapply list_elem_of_lookup_2. exact Hlk. }
    destruct (Z.eqb_spec (timestamp (reverse es !!! n)) 0); [contradiction|].
    symmetry. apply take_S_r. exact Hlk.
  - simpl. rewrite !take_ge by (rewrite length_reverse; lia). reflexivity.
Qed.


Lemma kept_timestamps enabled calls :
  Forall (fun c : call => c.1.1 <> 0) calls ->
  Forall (fun e => timestamp e <> 0) (kept enabled calls).
Proof.
  induction calls as [|[[now lvl] msg] calls IH]; intros Hts; [constructor|].
  apply Forall_cons in Hts as [H1 H2]. unfold kept. simpl.
  destruct (negb enabled && negb (lvl =? LOG_ERR)); simpl.
  - apply IH. exact H2.
  - constructor; [exact H1|apply IH; exact H2].
Qed.

(** X20.  The log ring, written and read back.  After any calls of [log]
    on a new logger, [getRecentLogs(count)] returns the entries kept,
    newest first, at most [count] and at most 1000 of them: every call
    when logging is enabled, the errors only when it is disabled.  The
    index stays inside the ring, whose size does not change.  (An entry
    stamped with time 0 would be taken for an empty slot, hence the
    hypothesis.) *)
Theorem recent_logs_round_trip useSyslog enabled calls count :
  Forall (fun c : call => c.1.1 <> 0) calls ->
  exists lg lg',
    log_all calls (Logger useSyslog enabled) = Ok tt lg /\
    getRecentLogs count lg
    = Ok (take (Z.to_nat (Z.min count MAX_LOG_ENTRIES))
               (reverse (kept enabled calls))) lg' /\
    0 <= nextLogIndex lg < MAX_LOG_ENTRIES /\
    Z.of_nat (length (logBuffer lg)) = MAX_LOG_ENTRIES.
Proof.
  intros Hts.
  destruct (ring_log_all calls _ [] (ring_init useSyslog enabled))
    as (lg & Hlog & _ & Hring).
  rewrite app_nil_l in Hring.
  change (loggingEnabled (Logger useSyslog enabled)) with enabled in Hring.
  destruct (ring_recent lg _ count Hring (kept_timestamps enabled calls Hts))
    as (lg' & Hrec & _).
  exists lg, lg'. split; [exact Hlog|]. split; [exact Hrec|].
  destruct Hring as (H1 & H2 & _). auto.
Qed.



(** X22.  Two calls of the logger never return.  [setLoggingEnabled(true)]
    calls [log] while it holds [logMutex], and so does [dumpLogs] when the
    file cannot be opened: the thread blocks on the mutex it holds.
    [setLoggingEnabled(false)] returns and only clears the flag. *)
Theorem logger_self_deadlocks now lg :
  logMutex lg = false ->
  (exists lg', setLoggingEnabled now true lg = Deadlock lg' /\
               loggingEnabled lg' = true /\ logMutex lg' = true) /\
  (forall filename strftime,
     exists lg', dumpLogs now false filename strftime lg = Deadlock lg') /\
  (exists lg', setLoggingEnabled now false lg = Ok tt lg' /\
               loggingEnabled lg' = false /\
               logBuffer lg' = logBuffer lg /\
               nextLogIndex lg' = nextLogIndex lg).
Proof.
  intros Hm. unfold setLoggingEnabled, dumpLogs, log, lock_guard.
  rewrite Hm. simpl. repeat split; intros; eexists; repeat split.
Qed.

Lemma recent_logs_round_trip_witness :
  exists lg lg',
    log_all Demo.log_calls (Logger true false) = Ok tt lg /\
    getRecentLogs 50 lg
    = Ok (take (Z.to_nat (Z.min 50 MAX_LOG_ENTRIES))
               (reverse (kept false Demo.log_calls))) lg' /\
    0 <= nextLogIndex lg < MAX_LOG_ENTRIES /\
    Z.of_nat (length (logBuffer lg)) = MAX_LOG_ENTRIES.
Proof.
  apply (recent_logs_round_trip true false Demo.log_calls 50).
  repeat constructor; discriminate.
Defined.

(** With logging disabled only the error of the three calls is kept. *)
Example kept_errors_only :
  kept false Demo.log_calls
  = [{| level := LOG_ERR; message := "b"; timestamp := 101 |}].
Proof. reflexivity. Qed.


Lemma logger_self_deadlocks_witness :
  exists lg', setLoggingEnabled 100 true (Logger true false) = Deadlock lg' /\
              loggingEnabled lg' = true /\ logMutex lg' = true.
Proof.
  destruct (logger_self_deadlocks 100 (Logger true false) eq_refl)
    as (H & _).
  exact H.
Defined.

End LoggerFacts.

(* ================================================================== *)
(** * The table of steering delays *)

Section FloatSigns.
Import BeamFormer.

(** The sign of a rounded result is the sign passed in. *)
Lemma binary_round_aux_opp prec emax s m e l :
  SFopp (binary_round_aux prec emax s m e l)
  = binary_round_aux prec emax (negb s) m e l.
Proof.
  unfold binary_round_aux.
  destruct (shr_fexp prec emax m e l) as [mrs' e'].
  destruct (shr_fexp prec emax _ e' loc_Exact) as [mrs'' e''].
  destruct (shr_m mrs''); try reflexivity.
  destruct (e'' <=? emax - prec); reflexivity.
Qed.

Lemma binary_round_opp prec emax s m e :
  SFopp (binary_round prec emax s m e) = binary_round prec emax (negb s) m e.
Proof.
  unfold binary_round. destruct (shl_align m e _) as [mz ez].
  apply binary_round_aux_opp.
Qed.

Lemma SFmul_opp_l prec emax x y :
  SFmul prec emax (SFopp x) y = SFopp (SFmul prec emax x y).
Proof.
  destruct x as [sx|sx| |sx mx ex], y as [sy|sy| |sy my ey]; simpl;
    rewrite ?binary_round_aux_opp, ?negb_xorb_l; reflexivity.
Qed.

Lemma SFmul_opp_r prec emax x y :
  SFmul prec emax x (SFopp y) = SFopp (SFmul prec emax x y).
Proof.
  destruct x as [sx|sx| |sx mx ex], y as [sy|sy| |sy my ey]; simpl;
    rewrite ?binary_round_aux_opp, ?negb_xorb_r; reflexivity.
Qed.

Lemma SFdiv_opp_l prec emax x y :
  SFdiv prec emax (SFopp x) y = SFopp (SFdiv prec emax x y).
Proof.
  destruct x as [sx|sx| |sx mx ex], y as [sy|sy| |sy my ey]; simpl;
    rewrite ?negb_xorb_l; try reflexivity.
  destruct (SFdiv_core_binary prec emax (Z.pos mx) ex (Z.pos my) ey)
    as [[mz ez] lz].
  rewrite binary_round_aux_opp. destruct sx, sy; reflexivity.
Qed.

Lemma float_of_double_opp x :
  float_of_double (SFopp x) = SFopp (float_of_double x).
Proof.
  destruct x as [sx|sx| |sx mx ex]; simpl; try reflexivity.
  rewrite binary_round_opp. reflexivity.
Qed.

Lemma double_of_int_opp z :
  z <> 0 -> double_of_int (- z) = SFopp (double_of_int z).
Proof.
  unfold double_of_int, binary_normalize.
  destruct z as [|p|p]; intros Hz; [congruence| |]; simpl Z.opp; cbv iota;
    rewrite binary_round_opp; reflexivity.
Qed.

Lemma c_round_opp x : c_round (SFopp x) = Z.opp <$> c_round x.
Proof.
  destruct x as [sx|sx| |sx mx ex]; simpl; try reflexivity.
  destruct sx; simpl; f_equal; lia.
Qed.

Lemma clamp_opp d : clamp (- d) = - clamp d.
Proof.
  unfold clamp, MAX_STEERING_DELAY.
  destruct (Z.gtb_spec d 24), (Z.gtb_spec (- d) 24); try lia;
    repeat match goal with
           | |- context [?a <? ?b] => destruct (Z.ltb_spec a b)
           end; lia.
Qed.

Lemma clamp_range d : - MAX_STEERING_DELAY <= clamp d <= MAX_STEERING_DELAY.
Proof.
  unfold clamp, MAX_STEERING_DELAY.
  destruct (Z.gtb_spec d 24);
    repeat match goal with
           | |- context [?a <? ?b] => destruct (Z.ltb_spec a b)
           end; lia.
Qed.

End FloatSigns.

Section FloatBounds.
Import BeamFormer.

Lemma digits2_size p : digits2_pos p = Pos.size p.
Proof. induction p as [p IH|p IH|]; simpl; congruence. Qed.

Lemma digits2_log2 p : Z.pos (digits2_pos p) = Z.log2 (Z.pos p) + 1.
Proof.
  rewrite digits2_size. destruct p as [p|p|]; simpl; lia.
Qed.

Lemma Zdigits2_nonneg m : 0 <= Zdigits2 m.
Proof. destruct m; simpl; lia. Qed.

Lemma Zdigits2_pos_spec p :
  2 ^ (Z.pos (digits2_pos p) - 1) <= Z.pos p < 2 ^ Z.pos (digits2_pos p).
Proof.
  rewrite digits2_log2.
  pose proof (Z.log2_spec (Z.pos p) ltac:(lia)) as H.
  replace (Z.log2 (Z.pos p) + 1 - 1) with (Z.log2 (Z.pos p)) by lia.
  exact H.
Qed.

Lemma Zdigits2_lt m : 0 <= m -> m < 2 ^ Zdigits2 m.
Proof.
  destruct m as [|p|p]; intros H; [reflexivity| |lia].
  apply Zdigits2_pos_spec.
Qed.

Lemma Zdigits2_le m j : 0 <= m -> 0 <= j -> m < 2 ^ j -> Zdigits2 m <= j.
Proof.
  destruct m as [|p|p]; intros Hm Hj Hlt; [exact Hj| |lia].
  simpl. destruct (Zdigits2_pos_spec p) as [Hlo _].
  destruct (Z.le_gt_cases (Z.pos (digits2_pos p)) j) as [|Hgt]; [assumption|].
  pose proof (Z.pow_le_mono_r 2 j (Z.pos (digits2_pos p) - 1)
                ltac:(lia) ltac:(lia)). lia.
Qed.

(** Shifting right by [k] takes [k] digits away. *)
Lemma Zdigits2_div m k :
  0 <= m -> 0 <= k -> Zdigits2 (m / 2 ^ k) + k <= Z.max (Zdigits2 m) k.
Proof.
  intros Hm Hk. pose proof (Zdigits2_lt m Hm) as Hlt.
  pose proof (Zdigits2_nonneg m) as Hd.
  pose proof (Z.pow_pos_nonneg 2 k ltac:(lia) Hk) as Hp.
  destruct (Z.le_gt_cases k (Zdigits2 m)) as [Hle|Hgt].
  - assert (Zdigits2 (m / 2 ^ k) <= Zdigits2 m - k); [|lia].
    apply Zdigits2_le; [apply Z.div_pos; lia|lia|].
    apply Z.div_lt_upper_bound; [lia|].
    rewrite <- Z.pow_add_r by lia.
    replace (k + (Zdigits2 m - k)) with (Zdigits2 m) by lia. exact Hlt.
  - assert (Hz : m / 2 ^ k = 0).
    { apply Z.div_small. split; [lia|].
      pose proof (Z.pow_le_mono_r 2 (Zdigits2 m) k ltac:(lia) ltac:(lia)).
      lia. }
    rewrite Hz. simpl. lia.
Qed.

Lemma Zdigits2_succ a b :
  0 <= a -> a <= b <= a + 1 -> Zdigits2 b <= Zdigits2 a + 1.
Proof.
  intros Ha Hb. pose proof (Zdigits2_lt a Ha) as Hlt.
  pose proof (Zdigits2_nonneg a).
  apply Zdigits2_le; [lia|lia|].
  rewrite Z.pow_add_r, Z.pow_1_r by lia. lia.
Qed.

Lemma Zdigits2_mul mx my :
  Zdigits2 (Z.pos (mx * my))
  <= Z.pos (digits2_pos mx) + Z.pos (digits2_pos my).
Proof.
  destruct (Zdigits2_pos_spec mx) as [_ Hx].
  destruct (Zdigits2_pos_spec my) as [_ Hy].
  apply Zdigits2_le; [lia|lia|].
  rewrite Z.pow_add_r, Pos2Z.inj_mul by lia. nia.
Qed.

Lemma shr_1_m mrs : 0 <= shr_m mrs -> shr_m (shr_1 mrs) = shr_m mrs / 2.
Proof.
  destruct mrs as [m r s]. simpl. intros Hm.
  destruct m as [|[p|p|]|p]; simpl; try reflexivity; try lia.
  - apply (Z.div_unique _ _ _ 1); lia.
  - apply (Z.div_unique _ _ _ 0); lia.
Qed.

Lemma iter_shr_m p mrs :
  0 <= shr_m mrs ->
  shr_m (SpecFloat.iter_pos shr_1 p mrs) = shr_m mrs / 2 ^ Z.pos p.
Proof.
  revert mrs. induction p as [p IH|p IH|]; intros mrs Hm; simpl SpecFloat.iter_pos.
  - assert (H1 : 0 <= shr_m (shr_1 mrs))
      by (rewrite shr_1_m by exact Hm; apply Z.div_pos; lia).
    assert (H2 : 0 <= shr_m (SpecFloat.iter_pos shr_1 p (shr_1 mrs)))
      by (rewrite IH by exact H1; apply Z.div_pos; lia).
    rewrite IH by exact H2. rewrite IH by exact H1. rewrite shr_1_m by exact Hm.
    rewrite !Z.div_div by lia. f_equal.
    replace (Z.pos p~1) with (1 + Z.pos p + Z.pos p) by lia.
    rewrite !Z.pow_add_r, Z.pow_1_r by lia. lia.
  - assert (H1 : 0 <= shr_m (SpecFloat.iter_pos shr_1 p mrs))
      by (rewrite IH by exact Hm; apply Z.div_pos; lia).
    rewrite IH by exact H1. rewrite IH by exact Hm.
    rewrite Z.div_div by lia. f_equal.
    replace (Z.pos p~0) with (Z.pos p + Z.pos p) by lia.
    rewrite Z.pow_add_r by lia. reflexivity.
  - rewrite shr_1_m by exact Hm. reflexivity.
Qed.

Lemma shr_record_of_loc_m m l : shr_m (shr_record_of_loc m l) = m.
Proof. destruct l as [|[]]; reflexivity. Qed.

Lemma shr_fexp_spec prec emax m e l mrs e' :
  0 <= m ->
  shr_fexp prec emax m e l = (mrs, e') ->
  e' = Z.max e (fexp prec emax (Zdigits2 m + e)) /\
  shr_m mrs = m / 2 ^ (e' - e).
Proof.
  intros Hm. unfold shr_fexp, shr.
  destruct (fexp prec emax (Zdigits2 m + e) - e) as [|p|p] eqn:Hn;
    intros [= <- <-].
  - split; [lia|]. rewrite shr_record_of_loc_m, Z.sub_diag, Z.pow_0_r.
    symmetry. apply Z.div_1_r.
  - split; [lia|]. rewrite iter_shr_m by (rewrite shr_record_of_loc_m; lia).
    rewrite shr_record_of_loc_m. f_equal. f_equal. lia.
  - split; [lia|]. rewrite shr_record_of_loc_m, Z.sub_diag, Z.pow_0_r.
    symmetry. apply Z.div_1_r.
Qed.

Lemma round_nearest_even_bounds m l :
  m <= round_nearest_even m l <= m + 1.
Proof.
  unfold round_nearest_even. destruct l as [|[]]; try lia.
  destruct (Z.even m); lia.
Qed.

(** Rounding a number below [2^B] gives a finite number below
    [2^(B+1)]. *)
Lemma binary_round_aux_below prec emax s m e l B :
  0 < prec -> 0 <= m -> Zdigits2 m + e <= B ->
  emin prec emax <= B -> B <= emax - prec ->
  below (B + 1) (binary_round_aux prec emax s m e l).
Proof.
  intros Hprec Hm HD Hmin Hmax. unfold binary_round_aux.
  pose proof (Zdigits2_nonneg m) as Hdm.
  destruct (shr_fexp prec emax m e l) as [mrs1 e1] eqn:H1.
  destruct (shr_fexp_spec prec emax m e l mrs1 e1 Hm H1) as [He1 Hm1].
  set (m2 := round_nearest_even (shr_m mrs1) (loc_of_shr_record mrs1)).
  assert (Hk1 : 0 <= e1 - e) by lia.
  assert (Hm1' : 0 <= shr_m mrs1)
    by (rewrite Hm1; apply Z.div_pos; [lia|apply Z.pow_pos_nonneg; lia]).
  pose proof (round_nearest_even_bounds (shr_m mrs1) (loc_of_shr_record mrs1))
    as Hrne. fold m2 in Hrne.
  assert (He1B : e1 <= B) by (unfold fexp in He1; lia).
  assert (HD1 : Zdigits2 (shr_m mrs1) + e1 <= B).
  { pose proof (Zdigits2_div m (e1 - e) Hm Hk1). rewrite <- Hm1 in H. lia. }
  assert (HD2 : Zdigits2 m2 + e1 <= B + 1).
  { pose proof (Zdigits2_succ (shr_m mrs1) m2 Hm1' Hrne). lia. }
  destruct (shr_fexp prec emax m2 e1 loc_Exact) as [mrs2 e2] eqn:H2.
  destruct (shr_fexp_spec prec emax m2 e1 loc_Exact mrs2 e2 ltac:(lia) H2)
    as [He2 Hm2].
  assert (He2B : e2 <= B) by (unfold fexp in He2; lia).
  assert (Hk2 : 0 <= e2 - e1) by lia.
  pose proof (Zdigits2_div m2 (e2 - e1) ltac:(lia) Hk2) as HD3.
  rewrite <- Hm2 in HD3.
  assert (Hm3 : 0 <= shr_m mrs2)
    by (rewrite Hm2; apply Z.div_pos; [lia|apply Z.pow_pos_nonneg; lia]).
  destruct (shr_m mrs2) as [|p|p]; [exact I| |lia].
  destruct (Z.leb_spec e2 (emax - prec)); [|lia].
  simpl in *. lia.
Qed.

Lemma SFmul_below prec emax x y bx by' :
  0 < prec -> below bx x -> below by' y ->
  emin prec emax <= bx + by' -> bx + by' <= emax - prec ->
  below (bx + by' + 1) (SFmul prec emax x y).
Proof.
  intros Hprec Hx Hy Hmin Hmax.
  destruct x as [sx|sx| |sx mx ex], y as [sy|sy| |sy my ey]; simpl in *;
    try contradiction; try exact I.
  apply binary_round_aux_below; try assumption; [lia|].
  pose proof (Zdigits2_mul mx my). lia.
Qed.

Lemma SFdiv_core_below prec emax mx ex my ey q e' l :
  SFdiv_core_binary prec emax (Z.pos mx) ex (Z.pos my) ey = (q, e', l) ->
  0 <= q /\
  Zdigits2 q + e'
  <= Z.max (fexp prec emax (Z.pos (digits2_pos mx) + ex
                            - (Z.pos (digits2_pos my) + ey)))
           (Z.pos (digits2_pos mx) + ex
            - (Z.pos (digits2_pos my) + ey) + 1).
Proof.
  unfold SFdiv_core_binary. simpl Zdigits2.
  set (d1 := Z.pos (digits2_pos mx)). set (d2 := Z.pos (digits2_pos my)).
  set (f := fexp prec emax (d1 + ex - (d2 + ey))).
  set (e0 := Z.min f (ex - ey)).
  set (s := ex - ey - e0).
  assert (Hs : 0 <= s) by (unfold s, e0; lia).
  set (m' := match s with
             | 0 => Z.pos mx
             | Z.pos _ => Z.pos mx ≪ s
             | Z.neg _ => 0
             end).
  assert (Hm' : m' = Z.pos mx * 2 ^ s).
  { unfold m'. destruct s as [|p|p] eqn:Es; [simpl; lia| |lia].
    apply Z.shiftl_mul_pow2. lia. }
  pose proof (Z_div_mod m' (Z.pos my) ltac:(lia)) as Hdiv.
  destruct (Z.div_eucl m' (Z.pos my)) as [q0 r0].
  intros [= <- <- <-]. destruct Hdiv as [Heq Hr].
  destruct (Zdigits2_pos_spec mx) as [_ Hx]. fold d1 in Hx.
  destruct (Zdigits2_pos_spec my) as [Hy _]. fold d2 in Hy.
  pose proof (Z.pow_pos_nonneg 2 s ltac:(lia) Hs) as Hps.
  assert (Hq0 : 0 <= q0) by nia.
  split; [exact Hq0|].
  assert (Hmlt : m' < 2 ^ (d1 + s)).
  { rewrite Hm', Z.pow_add_r by (unfold d1; lia). nia. }
  destruct (Z.eq_dec q0 0) as [->|Hne].
  { simpl. unfold e0. lia. }
  assert (Hd2 : 0 < 2 ^ (d2 - 1)) by (apply Z.pow_pos_nonneg; unfold d2; lia).
  assert (Hle : 2 ^ (d2 - 1) * q0 < 2 ^ (d1 + s)) by nia.
  assert (Hj : 1 <= d1 + s - d2 + 1).
  { destruct (Z.le_gt_cases 1 (d1 + s - d2 + 1)) as [|Hgt]; [assumption|].
    pose proof (Z.pow_le_mono_r 2 (d1 + s) (d2 - 1) ltac:(lia) ltac:(lia)).
    nia. }
  assert (Hq : Zdigits2 q0 <= d1 + s - d2 + 1).
  { apply Zdigits2_le; [lia|lia|].
    apply (Z.mul_lt_mono_pos_l (2 ^ (d2 - 1))); [lia|].
    rewrite <- Z.pow_add_r by (unfold d2; lia).
    replace (d2 - 1 + (d1 + s - d2 + 1)) with (d1 + s) by lia. exact Hle. }
  unfold s in Hq. lia.
Qed.

Lemma SFdiv_below prec emax x sy my ey bx :
  0 < prec -> below bx x ->
  emin prec emax <= bx - (Z.pos (digits2_pos my) + ey) + 1 ->
  bx - (Z.pos (digits2_pos my) + ey) + 1 <= emax - prec ->
  below (bx - (Z.pos (digits2_pos my) + ey) + 2)
        (SFdiv prec emax x (S754_finite sy my ey)).
Proof.
  intros Hprec Hx Hmin Hmax.
  destruct x as [sx|sx| |sx mx ex]; simpl in *; try contradiction;
    try exact I.
  destruct (SFdiv_core_binary prec emax (Z.pos mx) ex (Z.pos my) ey)
    as [[q e'] l] eqn:Hcore.
  destruct (SFdiv_core_below prec emax mx ex my ey q e' l Hcore) as [Hq HD].
  replace (bx - (Z.pos (digits2_pos my) + ey) + 2)
    with (bx - (Z.pos (digits2_pos my) + ey) + 1 + 1) by lia.
  apply binary_round_aux_below; try assumption.
  unfold fexp in HD. lia.
Qed.

Lemma iter_xO m d : Z.pos (Pos.iter xO m d) = Z.pos m * 2 ^ Z.pos d.
Proof.
  induction d as [|d IH] using Pos.peano_ind.
  - simpl. lia.
  - rewrite Pos.iter_succ, Pos2Z.inj_xO, IH, Pos2Z.inj_succ.
    rewrite Z.pow_succ_r by lia. lia.
Qed.

Lemma float_of_double_below x b :
  below b x -> emin 24 128 <= b -> b <= 128 - 24 ->
  below (b + 1) (float_of_double x).
Proof.
  intros Hx Hmin Hmax.
  destruct x as [sx|sx| |sx mx ex]; simpl in *; try contradiction;
    try exact I.
  unfold binary_round.
  destruct (shl_align mx ex (fexp 24 128 (Z.pos (digits2_pos mx) + ex)))
    as [mz ez] eqn:Hal.
  apply binary_round_aux_below; try assumption; try lia.
  unfold shl_align in Hal.
  destruct (fexp 24 128 (Z.pos (digits2_pos mx) + ex) - ex) as [|d|d] eqn:Hn;
    injection Hal as <- <-; simpl Zdigits2; try lia.
  assert (Zdigits2 (Z.pos (Pos.iter xO mx d))
          <= Z.pos (digits2_pos mx) + Z.pos d); [|simpl in *; lia].
  destruct (Zdigits2_pos_spec mx) as [_ Hlt].
  apply Zdigits2_le; [lia|lia|].
  rewrite iter_xO, Z.pow_add_r by lia.
  pose proof (Z.pow_pos_nonneg 2 (Z.pos d) ltac:(lia) ltac:(lia)). nia.
Qed.

Lemma c_round_below x b :
  below b x -> 0 <= b ->
  exists v, c_round x = Some v /\ - 2 ^ b <= v <= 2 ^ b.
Proof.
  intros Hx Hb. pose proof (Z.pow_pos_nonneg 2 b ltac:(lia) Hb) as Hpb.
  destruct x as [sx|sx| |sx mx ex]; simpl in *; try contradiction.
  { exists 0. split; [reflexivity|lia]. }
  eexists. split; [reflexivity|].
  destruct (Zdigits2_pos_spec mx) as [_ Hlt].
  set (d := Z.pos (digits2_pos mx)) in *.
  assert (Hmag : 0 <= (if 0 <=? ex then Z.pos mx * 2 ^ ex
                       else (Z.pos mx + 2 ^ (- ex - 1)) / 2 ^ (- ex))
                 <= 2 ^ b).
  { destruct (Z.leb_spec 0 ex) as [He|He].
    - pose proof (Z.pow_pos_nonneg 2 ex ltac:(lia) He).
      split; [nia|].
      assert (Z.pos mx * 2 ^ ex < 2 ^ (d + ex))
        by (rewrite Z.pow_add_r by (unfold d; lia); nia).
      pose proof (Z.pow_le_mono_r 2 (d + ex) b ltac:(lia) ltac:(lia)). lia.
    - pose proof (Z.pow_pos_nonneg 2 (- ex) ltac:(lia) ltac:(lia)) as Hp.
      pose proof (Z.pow_pos_nonneg 2 (- ex - 1) ltac:(lia) ltac:(lia)) as Hp1.
      assert (Hhalf : 2 ^ (- ex) = 2 * 2 ^ (- ex - 1)).
      { rewrite <- Z.pow_succ_r by lia. f_equal. lia. }
      split; [apply Z.div_pos; lia|].
      assert (Hm : Z.pos mx < 2 ^ (b - ex)).
      { pose proof (Z.pow_le_mono_r 2 d (b - ex) ltac:(lia) ltac:(lia)). lia. }
      assert (Hbe : 2 ^ (b - ex) = 2 ^ b * 2 ^ (- ex))
        by (rewrite <- Z.pow_add_r by lia; f_equal; lia).
      rewrite Hbe in Hm.
      apply Z.lt_succ_r. apply Z.div_lt_upper_bound; [lia|]. nia. }
  destruct sx; lia.
Qed.

End FloatBounds.

Section DelayFacts.
Import BeamFormer.

Variable sin : spec_float -> spec_float.
Hypothesis sin_odd : forall x, sin (SFopp x) = SFopp (sin x).
Hypothesis sin_zero : sin (S754_zero false) = S754_zero false.
Hypothesis sin_below : forall x, finite x = true -> below 1 (sin x).

Lemma below_mono b b' x : b <= b' -> below b x -> below b' x.
Proof. destruct x; simpl; auto; lia. Qed.

Lemma angleRad_opp angle :
  angle <> 90 -> angleRad (180 - angle) = SFopp (angleRad angle).
Proof.
  intros Hne. unfold angleRad.
  replace (180 - angle - 90) with (- (angle - 90)) by lia.
  rewrite double_of_int_opp by lia.
  rewrite SFmul_opp_l, SFdiv_opp_l, float_of_double_opp. reflexivity.
Qed.

Lemma delaySamples_opp angle :
  angle <> 90 ->
  delaySamples sin (180 - angle) = SFopp (delaySamples sin angle).
Proof.
  intros Hne. unfold delaySamples.
  rewrite angleRad_opp by exact Hne.
  rewrite sin_odd, SFmul_opp_r, SFdiv_opp_l, float_of_double_opp, SFmul_opp_l.
  reflexivity.
Qed.

Lemma angleRad_finite angle :
  0 <= angle <= 180 -> finite (angleRad angle) = true.
Proof.
  intros Ha.
  assert (Hall : forallb (fun a => finite (angleRad a)) (seqZ 0 181) = true)
    by (vm_compute; reflexivity).
  rewrite forallb_forall in Hall. apply Hall.
  apply list_elem_of_In, elem_of_seqZ. lia.
Qed.

Lemma delaySamples_below angle :
  0 <= angle <= 180 -> below 8 (delaySamples sin angle).
Proof.
  intros Ha. unfold delaySamples.
  pose proof (sin_below _ (angleRad_finite angle Ha)) as Hs.
  assert (Hmic : below (-4) MIC_DISTANCE) by (vm_compute; discriminate).
  pose proof (SFmul_below 53 1024 _ _ (-4) 1 ltac:(lia) Hmic Hs
                ltac:(vm_compute; discriminate)
                ltac:(vm_compute; discriminate)) as H1.
  change SOUND_SPEED with (S754_finite false 6034119813234688 (-44)).
  pose proof (SFdiv_below 53 1024 _ false 6034119813234688 (-44) (-2)
                ltac:(lia) H1
                ltac:(vm_compute; discriminate)
                ltac:(vm_compute; discriminate)) as H2.
  apply (below_mono _ (-9)) in H2; [|vm_compute; discriminate].
  pose proof (float_of_double_below _ (-9) H2
                ltac:(vm_compute; discriminate)
                ltac:(vm_compute; discriminate)) as H3.
  assert (Hrate : below 15 (float_of_int SAMPLE_RATE))
    by (vm_compute; discriminate).
  exact (SFmul_below 24 128 _ _ (-9 + 1) 15 ltac:(lia) H3 Hrate
           ltac:(vm_compute; discriminate) ltac:(vm_compute; discriminate)).
Qed.

Lemma delay_defined angle :
  0 <= angle <= 180 ->
  exists v, c_round (delaySamples sin angle) = Some v /\
            - 2 ^ 8 <= v <= 2 ^ 8 /\
            delay sin angle = Some (clamp v).
Proof.
  intros Ha.
  destruct (c_round_below _ 8 (delaySamples_below angle Ha) ltac:(lia))
    as (v & Hv & Hr).
  exists v. split; [exact Hv|]. split; [exact Hr|].
  unfold delay. rewrite Hv. simpl. unfold int_of_value.
  destruct (Z.leb_spec (- 2 ^ 31) v); [|lia].
  destruct (Z.ltb_spec v (2 ^ 31)); [|lia]. reflexivity.
Qed.

Lemma delay_opp angle :
  0 <= angle <= 180 -> angle <> 90 ->
  delay sin (180 - angle) = Z.opp <$> delay sin angle.
Proof.
  intros Ha Hne.
  destruct (delay_defined angle Ha) as (v & Hv & Hr & Hd).
  rewrite Hd. simpl. unfold delay.
  rewrite delaySamples_opp by exact Hne.
  rewrite c_round_opp, Hv. simpl. unfold int_of_value.
  destruct (Z.leb_spec (- 2 ^ 31) (- v)); [|lia].
  destruct (Z.ltb_spec (- v) (2 ^ 31)); [|lia]. simpl.
  rewrite clamp_opp. reflexivity.
Qed.

Lemma delay_90 : delay sin 90 = Some 0.
Proof.
  unfold delay, delaySamples.
  change (angleRad 90) with (S754_zero false).
  rewrite sin_zero. reflexivity.
Qed.

(** A loop that stores [f a] at index [a] for [a] from 0 to [n - 1]. *)
Lemma fill_table (f : Z -> option Z) n old :
  (forall a, 0 <= a < Z.of_nat n -> is_Some (f a)) ->
  (n <= length old)%nat ->
  exists tbl,
    for_loop n (fun a tbl => t ← tbl; d ← f a; Some (aset t a d)) (Some old)
    = Some tbl /\
    length tbl = length old /\
    forall a, 0 <= a < Z.of_nat n -> f a = Some (aget tbl a).
Proof.
  intros Hf Hn. induction n as [|n IH].
  - exists old. split; [reflexivity|]. split; [reflexivity|]. intros; lia.
  - destruct IH as (tbl & Hloop & Hlen & Hget);
      [intros; apply Hf; lia|lia|].
    destruct (Hf (Z.of_nat n) ltac:(lia)) as [d Hd].
    exists (aset tbl (Z.of_nat n) d). cbn [for_loop].
    rewrite Hloop. simpl. rewrite Hd. simpl.
    split; [reflexivity|]. split; [rewrite aset_length; exact Hlen|].
    intros a Ha. destruct (Z.eq_dec a (Z.of_nat n)) as [->|Hne].
    + rewrite aget_aset_eq by lia. exact Hd.
    + rewrite aget_aset_ne by lia. apply Hget. lia.
Qed.

(** C9.  With a sine that is odd, exact at zero and of magnitude below 2
    on finite arguments, [calculateDelaysForAngles] fills the 181 entries
    without an undefined conversion, whatever the array held before: each
    entry is [delaySamples] rounded to the nearest integer and kept within
    [MAX_STEERING_DELAY].  The entry for 90 degrees is 0, and the entry
    for [angle] is the opposite of the entry for [180 - angle], exactly
    and not only up to rounding. *)
Theorem delay_table_symmetric old :
  length old = Z.to_nat MAX_DOA_ANGLES ->
  exists tbl,
    calculateDelaysForAngles sin old = Some tbl /\
    length tbl = Z.to_nat MAX_DOA_ANGLES /\
    aget tbl 90 = 0 /\
    forall angle, 0 <= angle <= 180 ->
      delay sin angle = Some (aget tbl angle) /\
      (exists v, c_round (delaySamples sin angle) = Some v /\
                 - 2 ^ 8 <= v <= 2 ^ 8 /\ aget tbl angle = clamp v) /\
      aget tbl angle = - aget tbl (180 - angle) /\
      - MAX_STEERING_DELAY <= aget tbl angle <= MAX_STEERING_DELAY.
Proof.
  intros Hlen. unfold calculateDelaysForAngles.
  change (Z.to_nat (180 + 1)) with (Z.to_nat MAX_DOA_ANGLES).
  destruct (fill_table (delay sin) (Z.to_nat MAX_DOA_ANGLES) old)
    as (tbl & Hloop & Hl & Hget).
  { intros a Ha. destruct (delay_defined a) as (v & _ & _ & ->);
      [unfold MAX_DOA_ANGLES in Ha; lia|eauto]. }
  { apply Nat.eq_le_incl. symmetry. exact Hlen. }
  exists tbl. split; [exact Hloop|].
  split; [exact (eq_trans Hl Hlen)|].
  assert (Hentry : forall a, 0 <= a <= 180 -> delay sin a = Some (aget tbl a))
    by (intros a Ha; apply Hget; unfold MAX_DOA_ANGLES; lia).
  assert (H90 : aget tbl 90 = 0).
  { pose proof (Hentry 90 ltac:(lia)) as H. rewrite delay_90 in H.
    congruence. }
  split; [exact H90|].
  intros angle Ha. split; [apply Hentry; exact Ha|]. split; [|split].
  - destruct (delay_defined angle Ha) as (v & Hv & Hr & Hd).
    rewrite (Hentry angle Ha) in Hd. injection Hd as Hd.
    exists v. auto.
  - destruct (Z.eq_dec angle 90) as [->|Hne].
    + change (180 - 90) with 90. rewrite H90. reflexivity.
    + pose proof (delay_opp angle Ha Hne) as Hopp.
      rewrite (Hentry angle Ha), (Hentry (180 - angle)) in Hopp by lia.
      simpl in Hopp. injection Hopp as Hopp. lia.
  - destruct (delay_defined angle Ha) as (v & _ & _ & Hd).
    rewrite (Hentry angle Ha) in Hd. injection Hd as ->. apply clamp_range.
Qed.

End DelayFacts.

Section DelayWitness.
Import BeamFormer.

Lemma cut_sin_odd x : Demo.cut_sin (SFopp x) = SFopp (Demo.cut_sin x).
Proof.
  destruct x as [s|s| |s m e]; simpl; try reflexivity.
  destruct (Z.pos (digits2_pos m) + e <=? 0); reflexivity.
Qed.

Lemma cut_sin_below x : finite x = true -> below 1 (Demo.cut_sin x).
Proof.
  destruct x as [s|s| |s m e]; simpl; try discriminate; intros _;
    [exact I|].
  destruct (Z.leb_spec (Z.pos (digits2_pos m) + e) 0); simpl; lia.
Qed.

Lemma delay_table_symmetric_witness :
  exists tbl,
    calculateDelaysForAngles Demo.cut_sin (replicate 181 0) = Some tbl /\
    length tbl = Z.to_nat MAX_DOA_ANGLES /\
    aget tbl 90 = 0 /\
    forall angle, 0 <= angle <= 180 ->
      delay Demo.cut_sin angle = Some (aget tbl angle) /\
      (exists v, c_round (delaySamples Demo.cut_sin angle) = Some v /\
                 - 2 ^ 8 <= v <= 2 ^ 8 /\ aget tbl angle = clamp v) /\
      aget tbl angle = - aget tbl (180 - angle) /\
      - MAX_STEERING_DELAY <= aget tbl angle <= MAX_STEERING_DELAY.
Proof.
  apply (delay_table_symmetric Demo.cut_sin cut_sin_odd eq_refl cut_sin_below
           (replicate 181 0)).
  reflexivity.
Defined.

(** The table as the code computes it with the Taylor polynomial of
    degree 7 for the sine. *)
Example delay_table_taylor :
  calculateDelaysForAngles Demo.taylor_sin (replicate 181 0)
  = Some (replicate 35 (-5) ++ replicate 16 (-4) ++ replicate 12 (-3)
          ++ replicate 12 (-2) ++ replicate 10 (-1) ++ replicate 11 0
          ++ replicate 10 1 ++ replicate 12 2 ++ replicate 12 3
          ++ replicate 16 4 ++ replicate 35 5).
Proof. vm_compute. reflexivity. Qed.

End DelayWitness.
